(** * smtrack-logging: the MQTT normalizer and the Loki batching buffer

    A shallow embedding of [mqtt-subscriber.service.ts] and
    [loki.service.ts].  JavaScript values are embedded as a small universe
    of dynamically typed values, exceptions as a [result] type, the
    [LokiService] object as a record that every method threads through, and
    each [await] as a point where a method is cut in two. *)

From Stdlib Require Import ZArith List String Ascii Bool Lia Permutation.
From Stdlib Require Import Floats.SpecFloat.
Import ListNotations.
Open Scope string_scope.
Set Warnings "-register-all,-abstract-large-number".

(* ================================================================== *)
(** * The JavaScript fragment the two services rely on                *)
(* ================================================================== *)

Module Js.

(** Exceptions: a thrown value is an [Error] carrying a message, or some
    other value (the code distinguishes the two with [instanceof Error]). *)
Inductive thrown :=
| ErrorObject (message : string)
| NonError.

Inductive result (A : Type) :=
| Ok (a : A)
| Throw (e : thrown).
Arguments Ok {A} a.
Arguments Throw {A} e.

Definition bind {A B} (r : result A) (k : A -> result B) : result B :=
  match r with
  | Ok a => k a
  | Throw e => Throw e
  end.

(** [try { body } catch { handler }] *)
Definition try_catch {A} (body : result A) (handler : thrown -> result A) : result A :=
  match body with
  | Ok a => Ok a
  | Throw e => handler e
  end.

Notation "x <- c1 ;; c2" := (bind c1 (fun x => c2))
  (at level 61, c1 at next level, right associativity).

(** Objects that only the runtime can supply.  A plain object literal
    inherits from [Object.prototype], so reading [constructor] or
    [__proto__] from it yields these. *)
Inductive native :=
| ObjectConstructor
| ObjectPrototype
| ObjectPrototypeMethod (name : string).

(** Dynamically typed values.  A Number is kept as its canonical
    [Number::toString] text (so "0" stands for both zeros and "NaN" for
    NaN); an object as its own properties in enumeration order. *)
Inductive value :=
| Undefined
| Null
| Bool (b : bool)
| Num (text : string)
| Str (s : string)
| Arr (items : list value)
| Obj (props : list (string * value))
| Native (o : native).

(** A [Date] object: its time value is NaN or a number of milliseconds. *)
Inductive Date :=
| InvalidDate
| DateMs (ms : Z).

(** ToBoolean *)
Definition truthy (v : value) : bool :=
  match v with
  | Undefined | Null => false
  | Bool b => b
  | Num text => negb (String.eqb text "0" || String.eqb text "NaN")
  | Str s => negb (String.eqb s "")
  | Arr _ | Obj _ | Native _ => true
  end.

(** [a || b] *)
Definition or_else (a b : value) : value := if truthy a then a else b.

Fixpoint lookup {A} (k : string) (props : list (string * A)) : option A :=
  match props with
  | [] => None
  | (k', v) :: rest => if String.eqb k k' then Some v else lookup k rest
  end.

(** [v.k] for a key [k] that no built-in prototype defines (all the keys
    the services read from a payload are of this kind): a TypeError on
    [null] and [undefined], the own property of an object, [undefined]
    otherwise. *)
Definition get_field (v : value) (k : string) : result value :=
  match v with
  | Undefined | Null =>
      Throw (ErrorObject ("Cannot read properties of null (reading '" ++ k ++ "')"))
  | Obj props => Ok (match lookup k props with Some x => x | None => Undefined end)
  | _ => Ok Undefined
  end.

(** [xs[i]] on an array of strings *)
Definition array_get (xs : list string) (i : Z) : value :=
  if (i <? 0)%Z then Undefined
  else match nth_error xs (Z.to_nat i) with
       | Some s => Str s
       | None => Undefined
       end.

(** ** Strings

    A string is the bytes of its UTF-8 text.  The separator and the
    keywords the services look for are ASCII, and so are the letters of the
    alias table, so splitting, searching and the lookups after
    [toLowerCase] agree with the UTF-16 operations of the runtime. *)

Definition lower_ascii (c : ascii) : ascii :=
  let n := nat_of_ascii c in
  if (65 <=? n)%nat && (n <=? 90)%nat then ascii_of_nat (n + 32) else c.

(** [s.toLowerCase()] on the ASCII letters; other bytes are kept. *)
Fixpoint toLowerCase (s : string) : string :=
  match s with
  | EmptyString => EmptyString
  | String c rest => String (lower_ascii c) (toLowerCase rest)
  end.

(** [hay.includes(needle)] *)
Fixpoint includes (needle hay : string) : bool :=
  String.prefix needle hay ||
  match hay with
  | EmptyString => false
  | String _ rest => includes needle rest
  end.

(** [s.split(sep)] for a one-character separator: never empty. *)
Fixpoint split (sep : ascii) (s : string) : list string :=
  match s with
  | EmptyString => [EmptyString]
  | String c rest =>
      if Ascii.eqb c sep then EmptyString :: split sep rest
      else match split sep rest with
           | [] => [String c EmptyString]
           | p :: ps => String c p :: ps
           end
  end.

Fixpoint join (sep : string) (xs : list string) : string :=
  match xs with
  | [] => EmptyString
  | [x] => x
  | x :: rest => x ++ sep ++ join sep rest
  end.

(** ** JSON.stringify *)

Definition dquote : ascii := "034"%char.
Definition backslash : ascii := "092"%char.

Definition hex_digit (n : nat) : ascii :=
  nth n ["0"; "1"; "2"; "3"; "4"; "5"; "6"; "7"; "8"; "9";
         "a"; "b"; "c"; "d"; "e"; "f"]%char "0"%char.

(** QuoteJSONString, one code unit *)
Definition escape_char (c : ascii) : string :=
  let n := nat_of_ascii c in
  if Ascii.eqb c dquote then String backslash (String dquote EmptyString)
  else if Ascii.eqb c backslash then String backslash (String backslash EmptyString)
  else if (n =? 8)%nat then String backslash "b"
  else if (n =? 9)%nat then String backslash "t"
  else if (n =? 10)%nat then String backslash "n"
  else if (n =? 12)%nat then String backslash "f"
  else if (n =? 13)%nat then String backslash "r"
  else if (n <? 32)%nat then
    String backslash ("u00" ++ String (hex_digit (n / 16)) (String (hex_digit (n mod 16)) EmptyString))
  else String c EmptyString.

Fixpoint escape (s : string) : string :=
  match s with
  | EmptyString => EmptyString
  | String c rest => escape_char c ++ escape rest
  end.

Definition JSON_quote (s : string) : string :=
  String dquote (escape s ++ String dquote EmptyString).

Definition hex_value (c : ascii) : nat :=
  let n := nat_of_ascii c in
  if (97 <=? n)%nat then n - 87 else n - 48.

(** Reads one escaped code unit back (what [JSON.parse] does with it): the
    inverse of [escape_char]. *)
Definition unescape_char (s : string) : option (ascii * string) :=
  match s with
  | EmptyString => None
  | String h t =>
      if Ascii.eqb h backslash then
        match t with
        | String x t' =>
            if Ascii.eqb x "u" then
              match t' with
              | String _ (String _ (String h1 (String h2 t''))) =>
                  Some (ascii_of_nat (16 * hex_value h1 + hex_value h2), t'')
              | _ => None
              end
            else if Ascii.eqb x "b" then Some (ascii_of_nat 8, t')
            else if Ascii.eqb x "t" then Some (ascii_of_nat 9, t')
            else if Ascii.eqb x "n" then Some (ascii_of_nat 10, t')
            else if Ascii.eqb x "f" then Some (ascii_of_nat 12, t')
            else if Ascii.eqb x "r" then Some (ascii_of_nat 13, t')
            else Some (x, t')
        | EmptyString => None
        end
      else Some (h, t)
  end.

Definition is_finite_text (text : string) : bool :=
  negb (String.eqb text "NaN" || String.eqb text "Infinity" || String.eqb text "-Infinity").

(** [JSON.stringify(v)]; [None] is [undefined].  Properties whose value
    serializes to [undefined] are left out of an object and become [null]
    in an array. *)
Fixpoint JSON_stringify (v : value) : option string :=
  match v with
  | Undefined => None
  | Null => Some "null"
  | Bool b => Some (if b then "true" else "false")
  | Num text => Some (if is_finite_text text then text else "null")
  | Str s => Some (JSON_quote s)
  | Arr items =>
      Some ("[" ++ join ","
              (map (fun x => match JSON_stringify x with
                             | Some t => t
                             | None => "null"
                             end) items) ++ "]")
  | Obj props =>
      Some ("{" ++ join ","
              (flat_map (fun kv => match JSON_stringify (snd kv) with
                                   | Some t => [JSON_quote (fst kv) ++ ":" ++ t]
                                   | None => []
                                   end) props) ++ "}")
  | Native ObjectPrototype => Some "{}"
  | Native _ => None
  end.

(** The members [JSON.stringify] writes between the braces of an object. *)
Definition members (props : list (string * value)) : list string :=
  flat_map (fun kv => match JSON_stringify (snd kv) with
                      | Some t => [JSON_quote (fst kv) ++ ":" ++ t]
                      | None => []
                      end) props.

(** A [Record<string, string>]: every property holds a string. *)
Definition string_valued (props : list (string * value)) : bool :=
  forallb (fun kv => match snd kv with Str _ => true | _ => false end) props.

Definition of_option (o : option string) : value :=
  match o with
  | Some s => Str s
  | None => Undefined
  end.

(** [typeof v === 'string'] *)
Definition is_string (v : value) : bool :=
  match v with
  | Str _ => true
  | _ => false
  end.

(** [v.toLowerCase()]: a TypeError unless [v] is a string. *)
Definition call_toLowerCase (v : value) : result string :=
  match v with
  | Str s => Ok (toLowerCase s)
  | Undefined | Null =>
      Throw (ErrorObject "Cannot read properties of undefined (reading 'toLowerCase')")
  | _ => Throw (ErrorObject "toLowerCase is not a function")
  end.

(** What an object literal inherits from [Object.prototype] under key [k]. *)
Definition Object_prototype_get (k : string) : value :=
  if String.eqb k "constructor" then Native ObjectConstructor
  else if String.eqb k "__proto__" then Native ObjectPrototype
  else if existsb (String.eqb k)
            ["__defineGetter__"; "__defineSetter__"; "hasOwnProperty";
             "__lookupGetter__"; "__lookupSetter__"; "isPrototypeOf";
             "propertyIsEnumerable"; "toString"; "valueOf"; "toLocaleString"]
       then Native (ObjectPrototypeMethod k)
  else Undefined.

(** [literal[k]] for an object literal with the given own properties and
    an arbitrary string key. *)
Definition literal_get (own : list (string * value)) (k : string) : value :=
  match lookup k own with
  | Some v => v
  | None => Object_prototype_get k
  end.

(** [{ ...a, ...b }]: a key of [b] already present keeps its place and
    takes the new value, a new key goes to the end (keys that are array
    indices, which the runtime enumerates first, are not told apart). *)
Fixpoint set_prop (k : string) (v : value) (props : list (string * value))
  : list (string * value) :=
  match props with
  | [] => [(k, v)]
  | (k', v') :: rest =>
      if String.eqb k k' then (k', v) :: rest else (k', v') :: set_prop k v rest
  end.

Definition spread (a b : list (string * value)) : list (string * value) :=
  fold_left (fun acc kv => set_prop (fst kv) (snd kv) acc) b a.

(** ** Spread calls

    [f(...args)] passes every element of [args] as an argument of its own.
    The engine holds the arguments of a call on its stack, and with more of
    them than fit there it throws a RangeError (on V8: Maximum call stack
    size exceeded) before [f] runs.  How many fit depends on the engine and
    on the size of its stack. *)
Definition RangeError : thrown := ErrorObject "Maximum call stack size exceeded".

Definition spread_call {A} (argumentLimit : nat) (args : list A) : result unit :=
  if (List.length args <=? argumentLimit)%nat then Ok tt else Throw RangeError.

End Js.

(** ** Shared types ([types/index.ts]) *)

Inductive LogSeverity := DEBUG | INFO | WARNING | ERROR | CRITICAL.

Definition LogSeverity_text (s : LogSeverity) : string :=
  match s with
  | DEBUG => "debug"
  | INFO => "info"
  | WARNING => "warning"
  | ERROR => "error"
  | CRITICAL => "critical"
  end.

(** An enum member at run time is its string. *)
Definition sev (s : LogSeverity) : Js.value := Js.Str (LogSeverity_text s).

Module IoTMessage.
Record t := mk {
  deviceId : Js.value;
  message : Js.value;
  severity : Js.value;
  metadata : Js.value;
  timestamp : Js.Date
}.
End IoTMessage.

(** Fields a caller may leave out are [Undefined] ([labels], [timestamp]:
    [None]). *)
Module LogEntry.
Record t := mk {
  message : Js.value;
  device_id : Js.value;
  severity : Js.value;
  timestamp : option Js.Date;
  labels : option (list (string * Js.value))
}.
End LogEntry.

(* ================================================================== *)
(** * MqttSubscriberService                                           *)
(* ================================================================== *)

Module Mqtt.
Import Js.

Definition extractDeviceIdFromTopic (topic : string) : value :=
  let parts := split "/" topic in
  if (3 <=? List.length parts)%nat then array_get parts 1
  else if (List.length parts =? 2)%nat then array_get parts 0
  else or_else (array_get parts (Z.of_nat (List.length parts) - 2)) (Str "unknown").

Definition severityMap : list (string * value) :=
  [ ("debug", sev DEBUG);
    ("info", sev INFO);
    ("information", sev INFO);
    ("warn", sev WARNING);
    ("warning", sev WARNING);
    ("error", sev ERROR);
    ("err", sev ERROR);
    ("critical", sev CRITICAL);
    ("crit", sev CRITICAL);
    ("fatal", sev CRITICAL) ].

Definition mapToLogSeverity (severity : value) : result value :=
  if negb (truthy severity) then Ok Undefined
  else
    lowered <- call_toLowerCase severity ;;
    Ok (literal_get severityMap lowered).

Definition inferMessageType (topic : string) (message : value) : result value :=
  if includes "/error" topic || includes "/alert" topic then Ok (sev ERROR)
  else if includes "/warning" topic || includes "/warn" topic then Ok (sev WARNING)
  else if includes "/debug" topic then Ok (sev DEBUG)
  else
    level <- get_field message "level" ;;
    mapped <- (if truthy level then mapToLogSeverity level else Ok Undefined) ;;
    if truthy mapped then Ok mapped
    else
      let messageText :=
        if is_string message then message else of_option (JSON_stringify message) in
      lowerMessage <- call_toLowerCase messageText ;;
      if includes "error" lowerMessage
         || includes "exception" lowerMessage
         || includes "fail" lowerMessage
      then Ok (sev ERROR)
      else if includes "warn" lowerMessage then Ok (sev WARNING)
      else Ok (sev INFO).

(** The expression that fills [severity] in [normalizeMessage]:
    [mapToLogSeverity(parsedMessage.severity) || inferMessageType(topic, parsedMessage)] *)
Definition resolveSeverity (parsedMessage : value) (topic : string) : result value :=
  explicit <- get_field parsedMessage "severity" ;;
  mapped <- mapToLogSeverity explicit ;;
  if truthy mapped then Ok mapped else inferMessageType topic parsedMessage.

Definition createPlainTextMessage (text : string) (topic : string) (now : Date)
  : result IoTMessage.t :=
  severity <- inferMessageType topic (Obj [("message", Str text)]) ;;
  Ok {| IoTMessage.deviceId := extractDeviceIdFromTopic topic;
        IoTMessage.message := Str text;
        IoTMessage.severity := severity;
        IoTMessage.metadata := Undefined;
        IoTMessage.timestamp := now |}.

Definition convertToLogEntry (message : IoTMessage.t) : LogEntry.t :=
  let logMessage :=
    if is_string (IoTMessage.message message) then IoTMessage.message message
    else of_option (JSON_stringify (IoTMessage.message message)) in
  {| LogEntry.message := logMessage;
     LogEntry.device_id := IoTMessage.deviceId message;
     LogEntry.severity := IoTMessage.severity message;
     LogEntry.timestamp := Some (IoTMessage.timestamp message);
     LogEntry.labels :=
       Some (spread
               [ ("severity", IoTMessage.severity message);
                 ("device_id", IoTMessage.deviceId message);
                 ("source", Str "smtrack-logging") ]
               (if truthy (IoTMessage.metadata message)
                then [("metadata", of_option (JSON_stringify (IoTMessage.metadata message)))]
                else [])) |}.

Section Host.

(** What the platform supplies: UTF-8 decoding of a [Buffer], the JSON
    parser (a SyntaxError when the text is not JSON) and the [Date]
    constructor on one argument (which may throw while converting an
    object to a primitive). *)
Variable Buffer_toString : list Byte.byte -> string.
Variable JSON_parse : string -> result value.
Variable Date_construct : value -> result Date.

Definition normalizeMessage (parsedMessage : value) (topic : string) (now : Date)
  : result IoTMessage.t :=
  explicitId <- get_field parsedMessage "deviceId" ;;
  let deviceId := or_else explicitId (extractDeviceIdFromTopic topic) in
  text <- get_field parsedMessage "message" ;;
  let message :=
    if is_string text then text else of_option (JSON_stringify parsedMessage) in
  severity <- resolveSeverity parsedMessage topic ;;
  metadata <- get_field parsedMessage "metadata" ;;
  stamp <- get_field parsedMessage "timestamp" ;;
  timestamp <- (if truthy stamp then Date_construct stamp else Ok now) ;;
  Ok {| IoTMessage.deviceId := deviceId;
        IoTMessage.message := message;
        IoTMessage.severity := severity;
        IoTMessage.metadata := metadata;
        IoTMessage.timestamp := timestamp |}.

(** The part of [handleMessage] that turns a bus message into the entry
    handed to [LokiService.pushLog]: the inner [try] covers both the parse
    and [normalizeMessage]; its [catch] is the plain-text fallback. *)
Definition normalize (topic : string) (payload : list Byte.byte) (now : Date)
  : result LogEntry.t :=
  let messageStr := Buffer_toString payload in
  message <-
    try_catch
      (parsedMessage <- JSON_parse messageStr ;;
       normalizeMessage parsedMessage topic now)
      (fun _ => createPlainTextMessage messageStr topic now) ;;
  Ok (convertToLogEntry message).

End Host.

End Mqtt.

(* ================================================================== *)
(** * LokiService                                                     *)
(* ================================================================== *)

Module Loki.
Import Js.

(** ** Numbers and their text, as far as timestamps need them

    [getTime()] is NaN or an integer, and so is everything computed from
    it here: a finite Number is kept as the integer it denotes. *)
Inductive number :=
| NaN
| Infinite (negative : bool)
| Finite (z : Z).

Local Open Scope Z_scope.

(** Nearest integer with a 53-bit significand, ties to even: what a
    binary64 operation returns for the exact integer result [v]. *)
Definition round53 (v : Z) : Z :=
  let a := Z.abs v in
  let e := Z.log2 a - 52 in
  if e <=? 0 then v
  else
    let q := a / 2 ^ e in
    let r := a mod 2 ^ e in
    let half := 2 ^ (e - 1) in
    let q' := if r <? half then q
              else if half <? r then q + 1
              else if Z.even q then q else q + 1 in
    Z.sgn v * (q' * 2 ^ e).

(** The Number for the exact integer result [v]: rounded, and infinite
    from 2^1024 on. *)
Definition Number_of_exact (v : Z) : number :=
  let r := round53 v in
  if 2 ^ 1024 <=? Z.abs r then Infinite (r <? 0) else Finite r.

(** [a * b] *)
Definition Number_mul (a b : number) : number :=
  match a, b with
  | NaN, _ | _, NaN => NaN
  | Finite x, Finite y => Number_of_exact (x * y)
  | Infinite n, Finite y | Finite y, Infinite n =>
      if y =? 0 then NaN else Infinite (xorb n (y <? 0))
  | Infinite n, Infinite m => Infinite (xorb n m)
  end.

Definition digit_char (d : Z) : ascii := ascii_of_nat (48 + Z.to_nat d).

Fixpoint decimal_acc (fuel : nat) (n : Z) (acc : string) : string :=
  match fuel with
  | O => acc
  | S fuel' =>
      let acc' := String (digit_char (n mod 10)) acc in
      if n <? 10 then acc' else decimal_acc fuel' (n / 10) acc'
  end.

(** The decimal digits of [n >= 0], most significant first. *)
Definition decimal (n : Z) : string :=
  decimal_acc (S (Z.to_nat (Z.log2 n))) n EmptyString.

Definition num_digits (n : Z) : Z := Z.of_nat (String.length (decimal n)).

Fixpoint zeros (n : nat) : string :=
  match n with
  | O => EmptyString
  | S n' => String "0" (zeros n')
  end.

(** Number::toString picks integers [n], [k], [s] with
    [10^(n-1) <= s < 10^n], [s * 10^(k-n)] a decimal that reads back as
    [x], and [n] as small as possible; among several [s] the one closest
    to [x], the even one on a tie.  [x] is a positive integer here, so a
    decimal with [n <= k] always exists and only those are tried. *)
Definition reads_back (x s k n : Z) : bool :=
  (10 ^ (n - 1) <=? s) && (s <? 10 ^ n) && (round53 (s * 10 ^ (k - n)) =? x).

Definition closer (x p : Z) (s1 s2 : Z) : Z :=
  let d1 := Z.abs (s1 * p - x) in
  let d2 := Z.abs (s2 * p - x) in
  if d1 <? d2 then s1 else if d2 <? d1 then s2 else if Z.even s1 then s1 else s2.

Definition candidate (x k n : Z) : option Z :=
  let p := 10 ^ (k - n) in
  let lo := x / p in
  match reads_back x lo k n, reads_back x (lo + 1) k n with
  | true, true => Some (closer x p lo (lo + 1))
  | true, false => Some lo
  | false, true => Some (lo + 1)
  | false, false => None
  end.

(** Tries [n], [n + 1], ... for [fuel] steps; for each, a decimal with as
    many integer digits as [x], then with one more. *)
Fixpoint shortest (fuel : nat) (x d n : Z) : option (Z * Z * Z) :=
  match fuel with
  | O => None
  | S fuel' =>
      match candidate x d n with
      | Some s => Some (n, d, s)
      | None =>
          match candidate x (d + 1) n with
          | Some s => Some (n, d + 1, s)
          | None => shortest fuel' x d (n + 1)
          end
      end
  end.

Definition render (n k s : Z) : string :=
  if k <=? 21 then (decimal s ++ zeros (Z.to_nat (k - n)))%string
  else
    match decimal s with
    | String c EmptyString => String c ("e+" ++ decimal (k - 1))%string
    | String c rest => String c ("." ++ rest ++ "e+" ++ decimal (k - 1))%string
    | EmptyString => EmptyString
    end.

Definition toString_positive (x : Z) : string :=
  let d := num_digits x in
  match shortest (Z.to_nat d) x d 1 with
  | Some (n, k, s) => render n k s
  | None => decimal x
  end.

(** [x.toString()] *)
Definition Number_toString (x : number) : string :=
  match x with
  | NaN => "NaN"
  | Infinite false => "Infinity"
  | Infinite true => "-Infinity"
  | Finite z =>
      if z =? 0 then "0"
      else if z <? 0 then String "-" (toString_positive (- z))
      else toString_positive z
  end.

Definition getTime (d : Date) : number :=
  match d with
  | InvalidDate => NaN
  | DateMs ms => Finite ms
  end.

(** The decimal representation of an integer. *)
Definition decimal_Z (z : Z) : string :=
  if z <? 0 then String "-" (decimal (- z)) else decimal z.

(** The same product computed with the Standard Library's IEEE 754
    binary64 ([prec = 53], [emax = 1024]), to compare [round53] against. *)
Definition binary64_of_Z (z : Z) : spec_float := binary_normalize 53 1024 z 0 false.

Definition Z_of_binary64 (f : spec_float) : option Z :=
  match f with
  | S754_zero _ => Some 0
  | S754_finite s m e =>
      let magnitude := if 0 <=? e then Z.pos m * 2 ^ e else Z.pos m / 2 ^ (- e) in
      Some (if s then - magnitude else magnitude)
  | _ => None
  end.

Definition binary64_mul (a b : Z) : option Z :=
  Z_of_binary64 (SFmul 53 1024 (binary64_of_Z a) (binary64_of_Z b)).

Local Close Scope Z_scope.
Local Open Scope list_scope.

(** ** The service *)

Record LokiStream := mkStream {
  stream : value;
  values : list (string * value)
}.

Definition LokiPushRequest := list LokiStream.

(** What [pushLog], [pushLogs] and [flushLogs] write to the logger. *)
Inductive logged :=
| WarnShuttingDown
| WarnInvalidEntry (entry : LogEntry.t)
| LogSent (count : nat)
| ErrorFailedToSend (errorMessage : string)
| WarnBufferFull (count : nat).

Record LokiService := mkService {
  logBuffer : list LogEntry.t;
  lastFlush : option Date;
  lastError : option string;
  isShuttingDown : bool;
  logger : list logged
}.

Definition initial : LokiService :=
  {| logBuffer := []; lastFlush := None; lastError := None;
     isShuttingDown := false; logger := [] |}.

Definition set_logBuffer (b : list LogEntry.t) (s : LokiService) : LokiService :=
  {| logBuffer := b; lastFlush := lastFlush s; lastError := lastError s;
     isShuttingDown := isShuttingDown s; logger := logger s |}.

Definition log (l : logged) (s : LokiService) : LokiService :=
  {| logBuffer := logBuffer s; lastFlush := lastFlush s; lastError := lastError s;
     isShuttingDown := isShuttingDown s; logger := logger s ++ [l] |}.

(** [config.loki.batchSize] is the result of [parseInt]: an integer, or
    NaN ([None]), against which every comparison is false. *)
Definition reaches (len : nat) (batchSize : option Z) : bool :=
  match batchSize with
  | Some n => (n <=? Z.of_nat len)%Z
  | None => false
  end.

(** [!entry.message || !entry.device_id || !entry.severity] *)
Definition invalid (entry : LogEntry.t) : bool :=
  negb (truthy (LogEntry.message entry))
  || negb (truthy (LogEntry.device_id entry))
  || negb (truthy (LogEntry.severity entry)).

(** [{ ...entry, timestamp: entry.timestamp || new Date() }] *)
Definition stamped (now : Date) (entry : LogEntry.t) : LogEntry.t :=
  {| LogEntry.message := LogEntry.message entry;
     LogEntry.device_id := LogEntry.device_id entry;
     LogEntry.severity := LogEntry.severity entry;
     LogEntry.timestamp := Some (match LogEntry.timestamp entry with
                                 | Some t => t
                                 | None => now
                                 end);
     LogEntry.labels := LogEntry.labels entry |}.

(** *** convertToLokiFormat *)

Definition stringify_object (props : list (string * value)) : string :=
  match JSON_stringify (Obj props) with
  | Some text => text
  | None => EmptyString
  end.

Definition labelsOf (entry : LogEntry.t) : list (string * value) :=
  spread [ ("severity", LogEntry.severity entry);
           ("device_id", LogEntry.device_id entry) ]
         (match LogEntry.labels entry with
          | Some extra => extra
          | None => []
          end).

Definition streamKeyOf (entry : LogEntry.t) : string :=
  stringify_object (labelsOf entry).

(** The [Map<string, LogEntry[]>], in insertion order. *)
Fixpoint streamMap_push (key : string) (entry : LogEntry.t)
    (m : list (string * list LogEntry.t)) : list (string * list LogEntry.t) :=
  match m with
  | [] => [(key, [entry])]
  | (k, logs) :: rest =>
      if String.eqb key k then (k, logs ++ [entry]) :: rest
      else (k, logs) :: streamMap_push key entry rest
  end.

Definition streamMapOf (entries : list LogEntry.t) : list (string * list LogEntry.t) :=
  fold_left (fun m entry => streamMap_push (streamKeyOf entry) entry m) entries [].

Definition nanosecondsOf (now : Date) (log : LogEntry.t) : string :=
  let timestamp := match LogEntry.timestamp log with
                   | Some t => t
                   | None => now
                   end in
  Number_toString (Number_mul (getTime timestamp) (Finite 1000000)).

Definition valuesOf (now : Date) (logs : list LogEntry.t) : list (string * value) :=
  map (fun log => (nanosecondsOf now log, LogEntry.message log)) logs.

Fixpoint traverse {A B} (f : A -> result B) (xs : list A) : result (list B) :=
  match xs with
  | [] => Ok []
  | x :: rest => y <- f x ;; ys <- traverse f rest ;; Ok (y :: ys)
  end.

Section Host.

Variable JSON_parse : string -> result value.

(** How many arguments a spread call can pass on this engine. *)
Variable argumentLimit : nat.

Definition convertToLokiFormat (entries : list LogEntry.t) (now : Date)
  : result LokiPushRequest :=
  traverse (fun group =>
              labels <- JSON_parse (fst group) ;;
              Ok {| stream := labels; values := valuesOf now (snd group) |})
           (streamMapOf entries).

(** *** flushLogs, cut at its [await]

    A delivery in flight: the detached batch and the request built from it. *)
Record delivery := mkDelivery {
  logsToSend : list LogEntry.t;
  request : LokiPushRequest
}.

(** The promise of an async method when the method first yields: it awaits
    the response to a delivery, or it has settled. *)
Inductive promise :=
| Awaiting (d : delivery)
| Fulfilled
| Rejected (error : thrown).

Definition settled (r : LokiService * result unit) : LokiService * promise :=
  (fst r, match snd r with
          | Ok _ => Fulfilled
          | Throw error => Rejected error
          end).

Definition errorMessageOf (error : thrown) : string :=
  match error with
  | ErrorObject message => message
  | NonError => "Unknown error"
  end.

(** The [catch] block.  [this.logBuffer.unshift(...logsToSend)] is a spread
    call: when the batch has more entries than the call can pass, it
    throws out of the [catch] block, nothing is put back and [flushLogs]
    rejects. *)
Definition flushLogs_catch (batch : list LogEntry.t) (error : thrown) (s : LokiService)
  : LokiService * result unit :=
  let errorMessage := errorMessageOf error in
  let s1 :=
    log (ErrorFailedToSend errorMessage)
        {| logBuffer := logBuffer s; lastFlush := lastFlush s;
           lastError := Some errorMessage;
           isShuttingDown := isShuttingDown s; logger := logger s |} in
  if (List.length (logBuffer s1) <? 1000)%nat
  then match spread_call argumentLimit batch with
       | Ok _ => (set_logBuffer (batch ++ logBuffer s1) s1, Ok tt)
       | Throw raised => (s1, Throw raised)
       end
  else (log (WarnBufferFull (List.length batch)) s1, Ok tt).

(** Up to the [await]: nothing at all on an empty buffer; otherwise the
    buffer is copied and replaced by a fresh array, the request is built,
    and the call to [sendToLoki] is made.  Should building the request
    throw, the [catch] block runs at once. *)
Definition flushLogs (now : Date) (s : LokiService) : LokiService * promise :=
  if (List.length (logBuffer s) =? 0)%nat then (s, Fulfilled)
  else
    let batch := logBuffer s in
    let s1 := set_logBuffer [] s in
    match convertToLokiFormat batch now with
    | Ok lokiRequest => (s1, Awaiting {| logsToSend := batch; request := lokiRequest |})
    | Throw error => settled (flushLogs_catch batch error s1)
    end.

(** After the [await]: [sendToLoki] has settled.  The result is how the
    promise of [flushLogs] settles. *)
Definition flushLogs_resume (d : delivery) (outcome : result unit) (now : Date)
    (s : LokiService) : LokiService * result unit :=
  match outcome with
  | Ok _ =>
      (log (LogSent (List.length (logsToSend d)))
           {| logBuffer := logBuffer s; lastFlush := Some now; lastError := None;
              isShuttingDown := isShuttingDown s; logger := logger s |},
       Ok tt)
  | Throw error => flushLogs_catch (logsToSend d) error s
  end.

Definition forceFlush (now : Date) (s : LokiService) : LokiService * promise :=
  flushLogs now s.

(** *** pushLog and pushLogs, up to the [await] of the flush they start *)

Definition pushLog (batchSize : option Z) (entry : LogEntry.t) (now : Date)
    (s : LokiService) : LokiService * promise :=
  if isShuttingDown s then (log WarnShuttingDown s, Fulfilled)
  else if invalid entry then (log (WarnInvalidEntry entry) s, Fulfilled)
  else
    let s1 := set_logBuffer (logBuffer s ++ [stamped now entry]) s in
    if reaches (List.length (logBuffer s1)) batchSize then flushLogs now s1
    else (s1, Fulfilled).

Definition warn_invalid (entries : list LogEntry.t) (s : LokiService) : LokiService :=
  fold_left (fun acc entry => log (WarnInvalidEntry entry) acc)
            (filter invalid entries) s.

(** [this.logBuffer.push(...validEntries)] is a spread call as well: with
    more valid entries than it can pass it throws, nothing is appended and
    [pushLogs] rejects. *)
Definition pushLogs (batchSize : option Z) (entries : list LogEntry.t) (now : Date)
    (s : LokiService) : LokiService * promise :=
  if isShuttingDown s then (log WarnShuttingDown s, Fulfilled)
  else
    let validEntries :=
      map (stamped now) (filter (fun entry => negb (invalid entry)) entries) in
    let s0 := warn_invalid entries s in
    match spread_call argumentLimit validEntries with
    | Throw raised => (s0, Rejected raised)
    | Ok _ =>
        let s1 := set_logBuffer (logBuffer s0 ++ validEntries) s0 in
        if reaches (List.length (logBuffer s1)) batchSize then flushLogs now s1
        else (s1, Fulfilled)
    end.

(** ** The event loop

    The service together with the deliveries that are awaiting their
    response.  Each event runs to its next [await] without interleaving.
    A rejection goes to the caller: [handleMessage] and the controller
    catch it, [onModuleDestroy] logs it, the timer leaves it unhandled. *)
Record World := mkWorld {
  service : LokiService;
  inflight : list delivery
}.

Inductive event :=
| CallPushLog (entry : LogEntry.t) (now : Date)
| CallPushLogs (entries : list LogEntry.t) (now : Date)
| TimerTick (now : Date)
| CallForceFlush (now : Date)
| ModuleDestroy (now : Date)
| Settled (i : nat) (outcome : result unit) (now : Date).

Definition started (r : LokiService * promise) (w : World) : World :=
  {| service := fst r;
     inflight := inflight w ++ match snd r with Awaiting d => [d] | _ => [] end |}.

Fixpoint remove_nth {A} (i : nat) (xs : list A) : list A :=
  match i, xs with
  | _, [] => []
  | O, _ :: rest => rest
  | S i', x :: rest => x :: remove_nth i' rest
  end.

Definition step (batchSize : option Z) (ev : event) (w : World) : World :=
  let s := service w in
  match ev with
  | CallPushLog entry now => started (pushLog batchSize entry now s) w
  | CallPushLogs entries now => started (pushLogs batchSize entries now s) w
  | TimerTick now =>
      if (0 <? List.length (logBuffer s))%nat && negb (isShuttingDown s)
      then started (flushLogs now s) w
      else w
  | CallForceFlush now => started (forceFlush now s) w
  | ModuleDestroy now =>
      let s1 := {| logBuffer := logBuffer s; lastFlush := lastFlush s;
                   lastError := lastError s; isShuttingDown := true;
                   logger := logger s |} in
      if (0 <? List.length (logBuffer s1))%nat
      then started (flushLogs now s1) w
      else {| service := s1; inflight := inflight w |}
  | Settled i outcome now =>
      match nth_error (inflight w) i with
      | Some d => {| service := fst (flushLogs_resume d outcome now s);
                     inflight := remove_nth i (inflight w) |}
      | None => w
      end
  end.

Definition run (batchSize : option Z) (evs : list event) (w : World) : World :=
  fold_left (fun acc ev => step batchSize ev acc) evs w.

Definition boot : World := {| service := initial; inflight := [] |}.

End Host.

(** The batch a call has just detached, if it started a delivery. *)
Definition detached (p : promise) : list LogEntry.t :=
  match p with
  | Awaiting d => logsToSend d
  | _ => []
  end.

(** What an ingestion call adds to the buffer: the stamped entry of a valid
    [pushLog]; the stamped valid entries of a [pushLogs], provided the
    spread call can pass them all. *)
Definition accepted (argumentLimit : nat) (shuttingDown : bool) (ev : event)
  : list LogEntry.t :=
  if shuttingDown then []
  else match ev with
       | CallPushLog entry now => if invalid entry then [] else [stamped now entry]
       | CallPushLogs entries now =>
           let valid := filter (fun entry => negb (invalid entry)) entries in
           if (List.length valid <=? argumentLimit)%nat
           then map (stamped now) valid else []
       | _ => []
       end.

(** The events that may run while a delivery is awaited without settling
    it or shutting the service down: appends, timer ticks, forced flushes. *)
Definition meanwhile (ev : event) : bool :=
  match ev with
  | CallPushLog _ _ | CallPushLogs _ _ | TimerTick _ | CallForceFlush _ => true
  | ModuleDestroy _ | Settled _ _ _ => false
  end.

(** What a settled delivery puts back in front of a live buffer of the
    given length: the batch of a failed delivery, when the buffer is below
    the overflow bound and the batch is within the argument limit. *)
Definition requeued (argumentLimit : nat) (d : delivery) (outcome : result unit)
    (live : nat) : list LogEntry.t :=
  match outcome with
  | Ok _ => []
  | Throw _ =>
      if (live <? 1000)%nat && (List.length (logsToSend d) <=? argumentLimit)%nat
      then logsToSend d else []
  end.

(** ** Entries that are lost

    A batch is lost when a failed flush is to put it back and the batch is
    longer than the argument limit.  That happens when the delivery fails,
    and also before any delivery when the request cannot be built. *)
Definition lost_by_flush (JSON_parse : string -> result value) (argumentLimit : nat)
    (buffer : list LogEntry.t) (now : Date) : list LogEntry.t :=
  match convertToLokiFormat JSON_parse buffer now with
  | Ok _ => []
  | Throw _ => if (List.length buffer <=? argumentLimit)%nat then [] else buffer
  end.

Definition lost_by_pushLog (JSON_parse : string -> result value) (argumentLimit : nat)
    (batchSize : option Z) (entry : LogEntry.t) (now : Date) (s : LokiService)
  : list LogEntry.t :=
  if isShuttingDown s || invalid entry then []
  else
    let buffer := logBuffer s ++ [stamped now entry] in
    if reaches (List.length buffer) batchSize
    then lost_by_flush JSON_parse argumentLimit buffer now else [].

Definition lost_by_pushLogs (JSON_parse : string -> result value) (argumentLimit : nat)
    (batchSize : option Z) (entries : list LogEntry.t) (now : Date) (s : LokiService)
  : list LogEntry.t :=
  let valid := filter (fun entry => negb (invalid entry)) entries in
  if isShuttingDown s || negb (List.length valid <=? argumentLimit)%nat then []
  else
    let buffer := logBuffer s ++ map (stamped now) valid in
    if reaches (List.length buffer) batchSize
    then lost_by_flush JSON_parse argumentLimit buffer now else [].

Definition lost_by_settling (argumentLimit : nat) (d : delivery) (outcome : result unit)
    (live : nat) : list LogEntry.t :=
  match outcome with
  | Ok _ => []
  | Throw _ =>
      if (live <? 1000)%nat && negb (List.length (logsToSend d) <=? argumentLimit)%nat
      then logsToSend d else []
  end.

Definition lost (JSON_parse : string -> result value) (argumentLimit : nat)
    (batchSize : option Z) (ev : event) (w : World) : list LogEntry.t :=
  let s := service w in
  match ev with
  | CallPushLog entry now => lost_by_pushLog JSON_parse argumentLimit batchSize entry now s
  | CallPushLogs entries now =>
      lost_by_pushLogs JSON_parse argumentLimit batchSize entries now s
  | TimerTick now =>
      if isShuttingDown s then []
      else lost_by_flush JSON_parse argumentLimit (logBuffer s) now
  | CallForceFlush now | ModuleDestroy now =>
      lost_by_flush JSON_parse argumentLimit (logBuffer s) now
  | Settled i outcome _ =>
      match nth_error (inflight w) i with
      | Some d => lost_by_settling argumentLimit d outcome (List.length (logBuffer s))
      | None => []
      end
  end.

(** The invariant of the buffer: the three required fields are truthy and
    the timestamp is set. *)
Definition populated (entry : LogEntry.t) : bool :=
  truthy (LogEntry.message entry)
  && truthy (LogEntry.device_id entry)
  && truthy (LogEntry.severity entry)
  && match LogEntry.timestamp entry with Some _ => true | None => false end.

Definition all_populated (w : World) : Prop :=
  Forall (fun e => populated e = true) (logBuffer (service w))
  /\ Forall (fun d => Forall (fun e => populated e = true) (logsToSend d)) (inflight w).

(** The keys of a batch in order of first appearance. *)
Definition distinct (keys : list string) : list string :=
  fold_left (fun seen k => if existsb (String.eqb k) seen then seen else seen ++ [k])
            keys [].

(** Book-keeping over a run: what was accepted, what the sink acknowledged,
    what the overflow policy dropped, and what was lost. *)
Record Ledger := mkLedger {
  taken : list LogEntry.t;
  delivered : list LogEntry.t;
  dropped : list LogEntry.t;
  forfeited : list LogEntry.t
}.

Definition record (JSON_parse : string -> result value) (argumentLimit : nat)
    (batchSize : option Z) (ev : event) (w : World) (l : Ledger) : Ledger :=
  let gone := lost JSON_parse argumentLimit batchSize ev w in
  match ev with
  | Settled i outcome _ =>
      match nth_error (inflight w) i with
      | Some d =>
          match outcome with
          | Ok _ => {| taken := taken l; delivered := delivered l ++ logsToSend d;
                       dropped := dropped l; forfeited := forfeited l |}
          | Throw _ =>
              if (List.length (logBuffer (service w)) <? 1000)%nat
              then {| taken := taken l; delivered := delivered l;
                      dropped := dropped l; forfeited := forfeited l ++ gone |}
              else {| taken := taken l; delivered := delivered l;
                      dropped := dropped l ++ logsToSend d;
                      forfeited := forfeited l |}
          end
      | None => l
      end
  | _ => {| taken := taken l ++ accepted argumentLimit (isShuttingDown (service w)) ev;
            delivered := delivered l; dropped := dropped l;
            forfeited := forfeited l ++ gone |}
  end.

Definition pending (w : World) : list LogEntry.t :=
  List.concat (map logsToSend (inflight w)) ++ logBuffer (service w).

Definition balanced (w : World) (l : Ledger) : Prop :=
  Permutation (taken l) (delivered l ++ dropped l ++ forfeited l ++ pending w).

(** A run of the event loop with its ledger kept alongside. *)
Fixpoint audit (JSON_parse : string -> result value) (argumentLimit : nat)
    (batchSize : option Z) (evs : list event) (w : World) (l : Ledger)
  : World * Ledger :=
  match evs with
  | [] => (w, l)
  | ev :: rest =>
      audit JSON_parse argumentLimit batchSize rest
            (step JSON_parse argumentLimit batchSize ev w)
            (record JSON_parse argumentLimit batchSize ev w l)
  end.

(** A batch partitioned by key: one group per distinct key, each holding
    the entries of that key in batch order. *)
Definition grouped (entries : list LogEntry.t) : list (string * list LogEntry.t) :=
  map (fun k => (k, filter (fun e => String.eqb (streamKeyOf e) k) entries))
      (distinct (map streamKeyOf entries)).

End Loki.

(** ** The two services together: [handleMessage] *)

Module Pipeline.
Import Js.

Section Host.

Variable Buffer_toString : list Byte.byte -> string.
Variable JSON_parse : string -> result value.
Variable Date_construct : value -> result Date.
Variable argumentLimit : nat.
Variable batchSize : option Z.

(** A bus message is normalized and the entry pushed.  The outer [catch]
    takes whatever is thrown, a rejection of [pushLog] included, and logs
    it: [handleMessage] itself never rejects. *)
Definition handleMessage (topic : string) (payload : list Byte.byte) (now : Date)
    (s : Loki.LokiService) : Loki.LokiService * Loki.promise :=
  match Mqtt.normalize Buffer_toString JSON_parse Date_construct topic payload now with
  | Ok logEntry =>
      let r := Loki.pushLog JSON_parse argumentLimit batchSize logEntry now s in
      (fst r, match snd r with
              | Loki.Rejected _ => Loki.Fulfilled
              | p => p
              end)
  | Throw _ => (s, Loki.Fulfilled)
  end.

End Host.

End Pipeline.

(* ================================================================== *)
(** * The specification's reading of the normalizer                   *)
(* ================================================================== *)

Module MqttSpec.
Import Js.

(** Device identity from the topic's segments, as the specification words
    it: second of three or more, first of two, otherwise the
    second-to-last when there is one, else the placeholder. *)
Definition second_to_last (parts : list string) : option string :=
  if (2 <=? List.length parts)%nat then nth_error parts (List.length parts - 2) else None.

Definition identity_of_segments (parts : list string) : string :=
  if (3 <=? List.length parts)%nat then nth 1 parts EmptyString
  else if (List.length parts =? 2)%nat then nth 0 parts EmptyString
  else match second_to_last parts with
       | Some s => s
       | None => "unknown"
       end.

(** A topic written out from its segments, and a segment that holds no
    separator. *)
Fixpoint slash_free (segment : string) : bool :=
  match segment with
  | EmptyString => true
  | String c rest => negb (Ascii.eqb c "/") && slash_free rest
  end.

Fixpoint topic_of (segments : list string) : string :=
  match segments with
  | [] => EmptyString
  | [segment] => segment
  | segment :: rest => segment ++ String "/" (topic_of rest)
  end.

(** The alias table of step 1, case-insensitive. *)
Definition alias (s : string) : option LogSeverity :=
  let l := toLowerCase s in
  if String.eqb l "debug" then Some DEBUG
  else if String.eqb l "info" || String.eqb l "information" then Some INFO
  else if String.eqb l "warn" || String.eqb l "warning" then Some WARNING
  else if String.eqb l "error" || String.eqb l "err" then Some ERROR
  else if String.eqb l "critical" || String.eqb l "crit" || String.eqb l "fatal"
       then Some CRITICAL
  else None.

Definition topic_hint (topic : string) : option LogSeverity :=
  if includes "/error" topic || includes "/alert" topic then Some ERROR
  else if includes "/warning" topic || includes "/warn" topic then Some WARNING
  else if includes "/debug" topic then Some DEBUG
  else None.

Definition keyword_scan (content : string) : option LogSeverity :=
  let text := toLowerCase content in
  if includes "error" text || includes "exception" text || includes "fail" text
  then Some ERROR
  else if includes "warn" text then Some WARNING
  else None.

Definition first_of (candidates : list (option LogSeverity)) : LogSeverity :=
  fold_right (fun c rest => match c with Some s => s | None => rest end) INFO candidates.

(** The five steps, first match wins. *)
Definition classify (explicitSeverity : option string) (topic : string)
    (level : option string) (content : string) : LogSeverity :=
  first_of [ match explicitSeverity with Some s => alias s | None => None end;
             topic_hint topic;
             match level with Some s => alias s | None => None end;
             keyword_scan content ].

(** A field that holds a string, or nothing that counts (absent or falsy). *)
Definition textual (v : value) : bool := is_string v || negb (truthy v).

Definition as_text (v : value) : option string :=
  match v with
  | Str s => Some s
  | _ => None
  end.

(** The two lower-case member names of [Object.prototype]. *)
Definition inherited_name (o : option string) : bool :=
  match o with
  | Some s => String.eqb (toLowerCase s) "constructor" || String.eqb (toLowerCase s) "__proto__"
  | None => false
  end.

End MqttSpec.

(* ================================================================== *)
(** * Fixtures for the worked examples                                *)
(* ================================================================== *)

Module Demo.
Import Js Loki.
Local Open Scope list_scope.

(** A parser that knows the listed values by their JSON text and rejects
    every other text. *)
Definition parse_known (known : list value) (text : string) : result value :=
  match find (fun v => match JSON_stringify v with
                       | Some t => String.eqb t text
                       | None => false
                       end) known with
  | Some v => Ok v
  | None => Throw (ErrorObject "Unexpected token")
  end.

Definition utf8 (payload : list Byte.byte) : string := string_of_list_byte payload.

Definition no_date (v : value) : result Date := Ok InvalidDate.

Definition oops : value := Obj [("message", Str "oops")].
Definition warn_payload : value := Obj [("severity", Str "warn"); ("message", Str "x")].
Definition constructor_payload : value :=
  Obj [("severity", Str "constructor"); ("message", Str "x")].

Definition entry (message : string) (ms : Z) (extra : list (string * value)) : LogEntry.t :=
  {| LogEntry.message := Str message;
     LogEntry.device_id := Str "d1";
     LogEntry.severity := sev INFO;
     LogEntry.timestamp := Some (DateMs ms);
     LogEntry.labels := Some extra |}.

Definition plain_labels : list (string * value) :=
  [("severity", sev INFO); ("device_id", Str "d1")].

Definition first : LogEntry.t := entry "first" 1700000000123 plain_labels.
Definition second : LogEntry.t := entry "second" 1700000000124 plain_labels.
Definition third : LogEntry.t := entry "third" 1700000000125 plain_labels.

Definition app_zone : LogEntry.t := entry "a" 0 [("app", Str "x"); ("zone", Str "y")].
Definition zone_app : LogEntry.t := entry "b" 0 [("zone", Str "y"); ("app", Str "x")].

Definition far_future : LogEntry.t := entry "late" 5000000000000000 plain_labels.

Definition parse_labels : string -> result value := parse_known [Obj plain_labels].

Definition holding (buffer : list LogEntry.t) : LokiService :=
  {| logBuffer := buffer; lastFlush := None; lastError := None;
     isShuttingDown := false; logger := [] |}.

Definition now : Date := DateMs 1700000000200.

(** An argument limit of the order of V8's with its default stack: a
    spread of 150000 elements throws there. *)
Definition arguments : nat := 125000.

End Demo.

(* ================================================================== *)
(** * The rest of LokiService: delivery outcome and status            *)
(* ================================================================== *)

Module LokiStatus.
Record t := mk {
  status : string;
  bufferedLogs : nat;
  lastFlush : option Js.Date;
  lastError : option string
}.
End LokiStatus.

Module LokiDelivery.
Import Js Loki.

(** What [httpClient.post] settles with: a response (fulfilled), an axios
    error with or without a response, or any other rejection. *)
Inductive posted :=
| Response (status : Z)
| AxiosError (response : option (Z * value))
| Rejection (error : thrown).

(** A value inside a template literal, [None] standing for [undefined]. *)
Definition template (o : option string) : string :=
  match o with
  | Some text => text
  | None => "undefined"
  end.

Definition sendToLoki (p : posted) : result unit :=
  match p with
  | Response status =>
      if (status =? 204)%Z then Ok tt
      else Throw (ErrorObject ("Unexpected response status: "
                               ++ Number_toString (Finite status)))
  | AxiosError response =>
      let status := option_map (fun r => Number_toString (Finite (fst r))) response in
      let data := match response with
                  | Some r => snd r
                  | None => Undefined
                  end in
      Throw (ErrorObject ("Loki API error: " ++ template status ++ " - "
                          ++ template (JSON_stringify data)))
  | Rejection error => Throw error
  end.

Section Host.

Variable argumentLimit : nat.

(** The second half of [flushLogs], with [sendToLoki] as the awaited call:
    the service afterwards, and how the promise of [flushLogs] settles. *)
Definition settle (d : delivery) (p : posted) (now : Date) (s : LokiService)
  : LokiService :=
  fst (flushLogs_resume argumentLimit d (sendToLoki p) now s).

Definition settle_outcome (d : delivery) (p : posted) (now : Date) (s : LokiService)
  : result unit :=
  snd (flushLogs_resume argumentLimit d (sendToLoki p) now s).

End Host.

(** [this.lastError ? ... : ...]: the empty string is falsy. *)
Definition has_text (o : option string) : bool :=
  match o with
  | Some text => negb (String.eqb text "")
  | None => false
  end.

Definition getStatus (s : LokiService) : LokiStatus.t :=
  {| LokiStatus.status := if has_text (lastError s) then "error" else "active";
     LokiStatus.bufferedLogs := List.length (logBuffer s);
     LokiStatus.lastFlush := lastFlush s;
     LokiStatus.lastError := lastError s |}.

(** Rounds of one push, one forced flush and the failure of the delivery
    in flight. *)
Definition failing_round (entry : LogEntry.t) (error : thrown) (now : Date)
  : list event :=
  [ CallPushLog entry now; CallForceFlush now; Settled 0 (Throw error) now ].

Definition failing_rounds (entry : LogEntry.t) (error : thrown) (now : Date) (n : nat)
  : list event :=
  List.concat (repeat (failing_round entry error now) n).

(** The sink acknowledged the batch. *)
Definition acknowledged (p : posted) : bool :=
  match p with
  | Response status => (status =? 204)%Z
  | _ => false
  end.

(** A rejection whose description is the empty string. *)
Definition silent (p : posted) : bool :=
  match p with
  | Rejection (ErrorObject message) => String.eqb message ""
  | _ => false
  end.

(** No delivery of the run fails. *)
Definition all_delivered (evs : list event) : bool :=
  forallb (fun ev => match ev with
                     | Settled _ (Throw _) _ => false
                     | _ => true
                     end) evs.

End LokiDelivery.

(* ================================================================== *)
(** * HealthService and HealthController                              *)
(* ================================================================== *)

Module Health.
Import Js Loki.

Inductive level := ok | error | degraded.

Definition getLokiHealthStatus (lokiStatus : LokiStatus.t) : level :=
  if LokiDelivery.has_text (LokiStatus.lastError lokiStatus) then error
  else if (100 <? LokiStatus.bufferedLogs lokiStatus)%nat then degraded
  else ok.

Definition getOverallStatus (mqttStatus lokiStatus : level) : level :=
  match mqttStatus, lokiStatus with
  | error, _ | _, error => error
  | _, degraded => degraded
  | _, _ => ok
  end.

(** [a - b] on the time values of two dates. *)
Definition elapsed (a b : Date) : Loki.number :=
  match a, b with
  | DateMs x, DateMs y => Finite (x - y)
  | _, _ => NaN
  end.

End Health.

Module MqttHealth.
Record t := mk {
  status : Health.level;
  connected : bool;
  details : option string
}.
End MqttHealth.

Module LokiHealth.
Record t := mk {
  status : Health.level;
  bufferedLogs : nat;
  details : option string
}.
End LokiHealth.

Module HealthStatus.
Record t := mk {
  status : Health.level;
  timestamp : Js.Date;
  uptime : Loki.number;
  version : string;
  mqtt : MqttHealth.t;
  loki : LokiHealth.t
}.
End HealthStatus.

Module HealthService.
Import Js Loki Health.

(** [getHealth]: [connected] and [mqttLastError] are what
    [getConnectionStatus()] reports, [npm_package_version] the environment
    variable. *)
Definition getHealth (startTime now : Date) (npm_package_version : option string)
    (connected : bool) (mqttLastError : option string) (s : LokiService)
  : HealthStatus.t :=
  let lokiStatus := LokiDelivery.getStatus s in
  let mqtt := {| MqttHealth.status := if connected then ok else error;
                 MqttHealth.connected := connected;
                 MqttHealth.details := mqttLastError |} in
  let loki := {| LokiHealth.status := getLokiHealthStatus lokiStatus;
                 LokiHealth.bufferedLogs := LokiStatus.bufferedLogs lokiStatus;
                 LokiHealth.details := LokiStatus.lastError lokiStatus |} in
  {| HealthStatus.status :=
       getOverallStatus (MqttHealth.status mqtt) (LokiHealth.status loki);
     HealthStatus.timestamp := now;
     HealthStatus.uptime := elapsed now startTime;
     HealthStatus.version :=
       if LokiDelivery.has_text npm_package_version
       then LokiDelivery.template npm_package_version else "0.0.1";
     HealthStatus.mqtt := mqtt;
     HealthStatus.loki := loki |}.

(** [HealthController.getReadiness] *)
Definition getReadiness (health : HealthStatus.t) : string :=
  match HealthStatus.status health with
  | error => "not ready"
  | _ => "ready"
  end.

End HealthService.

(* ================================================================== *)
(** * The connection side of MqttSubscriberService                    *)
(* ================================================================== *)

Module MqttConnectionStatus.
Record t := mk {
  connected : bool;
  connectedSince : option Js.Date;
  lastError : option string;
  reconnectAttempts : Z
}.
End MqttConnectionStatus.

Module Connection.
Import Js.
Local Open Scope list_scope.

(** Calls made on the MQTT client. *)
Inductive client_call :=
| Subscribe (topic : string)
| EndClient.

Record Subscriber := mkSubscriber {
  connectionStatus : MqttConnectionStatus.t;
  reconnectAttempts : Z;
  calls : list client_call
}.

Definition maxReconnectAttempts : Z := 10.

Definition fresh : Subscriber :=
  {| connectionStatus :=
       {| MqttConnectionStatus.connected := false;
          MqttConnectionStatus.connectedSince := None;
          MqttConnectionStatus.lastError := None;
          MqttConnectionStatus.reconnectAttempts := 0 |};
     reconnectAttempts := 0;
     calls := [] |}.

Definition with_connected (b : bool) (s : Subscriber) : Subscriber :=
  {| connectionStatus :=
       {| MqttConnectionStatus.connected := b;
          MqttConnectionStatus.connectedSince :=
            MqttConnectionStatus.connectedSince (connectionStatus s);
          MqttConnectionStatus.lastError :=
            MqttConnectionStatus.lastError (connectionStatus s);
          MqttConnectionStatus.reconnectAttempts :=
            MqttConnectionStatus.reconnectAttempts (connectionStatus s) |};
     reconnectAttempts := reconnectAttempts s;
     calls := calls s |}.

Section Config.

(** [config.mqtt.topics] *)
Variable topics : list string.

(** The handlers that [setupEventHandlers] registers. *)
Definition on_connect (now : Date) (s : Subscriber) : Subscriber :=
  {| connectionStatus :=
       {| MqttConnectionStatus.connected := true;
          MqttConnectionStatus.connectedSince := Some now;
          MqttConnectionStatus.lastError := None;
          MqttConnectionStatus.reconnectAttempts :=
            MqttConnectionStatus.reconnectAttempts (connectionStatus s) |};
     reconnectAttempts := 0;
     calls := calls s ++ map Subscribe topics |}.

Definition on_error (error : thrown) (s : Subscriber) : Subscriber :=
  {| connectionStatus :=
       {| MqttConnectionStatus.connected := false;
          MqttConnectionStatus.connectedSince :=
            MqttConnectionStatus.connectedSince (connectionStatus s);
          MqttConnectionStatus.lastError := Some (Loki.errorMessageOf error);
          MqttConnectionStatus.reconnectAttempts :=
            MqttConnectionStatus.reconnectAttempts (connectionStatus s) |};
     reconnectAttempts := reconnectAttempts s;
     calls := calls s |}.

Definition on_close (s : Subscriber) : Subscriber := with_connected false s.

Definition on_offline (s : Subscriber) : Subscriber := with_connected false s.

Definition on_reconnect (s : Subscriber) : Subscriber :=
  let attempts := (reconnectAttempts s + 1)%Z in
  {| connectionStatus :=
       {| MqttConnectionStatus.connected :=
            MqttConnectionStatus.connected (connectionStatus s);
          MqttConnectionStatus.connectedSince :=
            MqttConnectionStatus.connectedSince (connectionStatus s);
          MqttConnectionStatus.lastError :=
            MqttConnectionStatus.lastError (connectionStatus s);
          MqttConnectionStatus.reconnectAttempts := attempts |};
     reconnectAttempts := attempts;
     calls := if (maxReconnectAttempts <? attempts)%Z
              then calls s ++ [EndClient] else calls s |}.

Inductive client_event :=
| Connected (now : Date)
| Errored (error : thrown)
| Closed
| Reconnecting
| Offline.

Definition handle (ev : client_event) (s : Subscriber) : Subscriber :=
  match ev with
  | Connected now => on_connect now s
  | Errored error => on_error error s
  | Closed => on_close s
  | Reconnecting => on_reconnect s
  | Offline => on_offline s
  end.

Definition handle_all (evs : list client_event) (s : Subscriber) : Subscriber :=
  fold_left (fun acc ev => handle ev acc) evs s.

End Config.

Definition is_reconnecting (ev : client_event) : bool :=
  match ev with
  | Reconnecting => true
  | _ => false
  end.

Definition is_connected_event (ev : client_event) : bool :=
  match ev with
  | Connected _ => true
  | _ => false
  end.

Definition drops_connection (ev : client_event) : bool :=
  match ev with
  | Errored _ | Closed | Offline => true
  | _ => false
  end.

Definition is_end (c : client_call) : bool :=
  match c with
  | EndClient => true
  | _ => false
  end.

(** How often the client was told to end. *)
Definition ended (s : Subscriber) : Z := Z.of_nat (List.length (filter is_end (calls s))).

Definition reconnects (evs : list client_event) : Z :=
  Z.of_nat (List.length (filter is_reconnecting evs)).

End Connection.

(* ================================================================== *)
(** * MqttController.testLog                                          *)
(* ================================================================== *)

Module TestLogRequest.
Record t := mk {
  deviceId : Js.value;
  severity : Js.value;
  message : Js.value;
  metadata : Js.value
}.
End TestLogRequest.

Module Controller.
Import Js Loki.
Local Open Scope list_scope.

Definition testLogEntry (request : TestLogRequest.t) (now : Date) : LogEntry.t :=
  let severity := or_else (TestLogRequest.severity request) (sev INFO) in
  {| LogEntry.message := TestLogRequest.message request;
     LogEntry.device_id := TestLogRequest.deviceId request;
     LogEntry.severity := severity;
     LogEntry.timestamp := Some now;
     LogEntry.labels :=
       Some (spread
               [ ("severity", severity);
                 ("device_id", TestLogRequest.deviceId request);
                 ("source", Str "test-endpoint") ]
               (if truthy (TestLogRequest.metadata request)
                then [("metadata",
                       of_option (JSON_stringify (TestLogRequest.metadata request)))]
                else [])) |}.

Section Host.

Variable JSON_parse : string -> result value.
Variable argumentLimit : nat.
Variable batchSize : option Z.

(** A rejection of [pushLog] is answered with an [HttpException]. *)
Definition testLog (request : TestLogRequest.t) (now : Date) (s : LokiService)
  : LokiService * promise :=
  let r := pushLog JSON_parse argumentLimit batchSize (testLogEntry request now) now s in
  (fst r, match snd r with
          | Rejected error =>
              Rejected (ErrorObject ("Failed to send test log: " ++ errorMessageOf error))
          | p => p
          end).

End Host.

(** What the validation pipe lets through: [deviceId] and [message] are
    non-empty strings, [severity] is absent, [null] or a member of the
    enum. *)
Definition validated (request : TestLogRequest.t) : bool :=
  is_string (TestLogRequest.deviceId request)
  && truthy (TestLogRequest.deviceId request)
  && is_string (TestLogRequest.message request)
  && truthy (TestLogRequest.message request)
  && match TestLogRequest.severity request with
     | Undefined | Null => true
     | Str text => existsb (fun l => String.eqb text (LogSeverity_text l))
                           [DEBUG; INFO; WARNING; ERROR; CRITICAL]
     | _ => false
     end.

End Controller.

(* ================================================================== *)
(** * Label objects of the two producers                              *)
(* ================================================================== *)

Module Labels.
Import Js.
Local Open Scope list_scope.

(** What the [metadata] label holds, if the label is written at all. *)
Definition metadata_text (metadata : value) : option string :=
  if truthy metadata then JSON_stringify metadata else None.

(** The label object that [convertToLogEntry] and [testLog] build. *)
Definition sourced (severity device_id : value) (source : string) (metadata : value)
  : list (string * value) :=
  [ ("severity", severity); ("device_id", device_id); ("source", Str source) ]
  ++ (if truthy metadata then [("metadata", of_option (JSON_stringify metadata))] else []).





End Labels.

(** ** More fixtures *)

Module Sample.
Import Js Loki.
Local Open Scope list_scope.

(** A stand-in parser that accepts every text. *)
Definition reads_everything (text : string) : result value := Ok (Str text).

Definition reading : IoTMessage.t :=
  {| IoTMessage.deviceId := Str "dev1";
     IoTMessage.message := Str "21.5";
     IoTMessage.severity := sev INFO;
     IoTMessage.metadata := Obj [("unit", Str "C")];
     IoTMessage.timestamp := Demo.now |}.

Definition alarm : IoTMessage.t :=
  {| IoTMessage.deviceId := Str "dev1";
     IoTMessage.message := Str "overheated";
     IoTMessage.severity := sev ERROR;
     IoTMessage.metadata := Undefined;
     IoTMessage.timestamp := Demo.now |}.

Definition ping : TestLogRequest.t :=
  {| TestLogRequest.deviceId := Str "dev1";
     TestLogRequest.severity := Undefined;
     TestLogRequest.message := Str "ping";
     TestLogRequest.metadata := Undefined |}.

Definition undated_payload : value :=
  Obj [("message", Str "x"); ("timestamp", Str "soon")].

Definition undated : IoTMessage.t :=
  {| IoTMessage.deviceId := Str "dev1";
     IoTMessage.message := Str "x";
     IoTMessage.severity := sev INFO;
     IoTMessage.metadata := Undefined;
     IoTMessage.timestamp := InvalidDate |}.

Definition pair_request : LokiPushRequest :=
  [ {| stream := Obj Demo.plain_labels;
       values := [ ("1700000000123000000", Str "first");
                   ("1700000000124000000", Str "second") ] |} ].

Definition acknowledged_pair : list event :=
  [ CallPushLog Demo.first Demo.now;
    CallPushLog Demo.second Demo.now;
    Settled 0 (Ok tt) Demo.now ].

Definition eleven_reconnects : list Connection.client_event :=
  repeat Connection.Reconnecting 11.

Definition two_pending : World :=
  {| service := Demo.holding [Demo.first; Demo.second]; inflight := [] |}.

End Sample.

(* ================================================================== *)
(** * Properties                                                      *)
(* ================================================================== *)

Module MqttProps.
Import Js Mqtt.

Lemma split_nonempty sep s : split sep s <> [].
Proof.
  induction s as [|c s IH]; simpl; [discriminate|].
  destruct (Ascii.eqb c sep); [discriminate|].
  destruct (split sep s); discriminate.
Qed.

Example split_3 : split "/" "smtrack/dev42/logs" = ["smtrack"; "dev42"; "logs"].
Proof. reflexivity. Qed.

Example extract_3 : extractDeviceIdFromTopic "smtrack/dev42/logs" = Str "dev42".
Proof. reflexivity. Qed.

Example extract_2 : extractDeviceIdFromTopic "dev42/logs" = Str "dev42".
Proof. reflexivity. Qed.

Example extract_1 : extractDeviceIdFromTopic "logs" = Str "unknown".
Proof. reflexivity. Qed.

(** ** Totality of the normalizer *)

Lemma inferMessageType_plain_text (topic text : string) :
  exists severity, inferMessageType topic (Obj [("message", Str text)]) = Ok severity.
Proof.
  unfold inferMessageType.
  destruct (includes "/error" topic || includes "/alert" topic); [eauto|].
  destruct (includes "/warning" topic || includes "/warn" topic); [eauto|].
  destruct (includes "/debug" topic); [eauto|].
  cbn [get_field lookup String.eqb Ascii.eqb Bool.eqb bind truthy mapToLogSeverity
       is_string JSON_stringify of_option call_toLowerCase].
  match goal with |- context [if ?c then _ else _] => destruct c end; [eauto|].
  match goal with |- context [if ?c then _ else _] => destruct c end; eauto.
Qed.

Lemma createPlainTextMessage_total (text topic : string) (now : Date) :
  exists message, createPlainTextMessage text topic now = Ok message.
Proof.
  unfold createPlainTextMessage.
  destruct (inferMessageType_plain_text topic text) as [severity ->].
  cbn [bind]. eauto.
Qed.

(** C3: whatever the decoder, the parser and the [Date] constructor do,
    every topic and every payload yield an entry: a failure of the parse
    or of [normalizeMessage] lands in the plain-text fallback, which
    cannot fail. *)
Theorem normalize_total
    (Buffer_toString : list Byte.byte -> string)
    (JSON_parse : string -> result value)
    (Date_construct : value -> result Date)
    (topic : string) (payload : list Byte.byte) (now : Date) :
  exists entry : LogEntry.t,
    normalize Buffer_toString JSON_parse Date_construct topic payload now = Ok entry.
Proof.
  unfold normalize.
  destruct (createPlainTextMessage_total (Buffer_toString payload) topic now)
    as [plain Hplain].
  destruct (JSON_parse (Buffer_toString payload)) as [parsed|e]; cbn [bind try_catch].
  - destruct (normalizeMessage Date_construct parsed topic now) as [message|e];
      cbn [bind try_catch].
    + eauto.
    + rewrite Hplain. cbn [bind]. eauto.
  - rewrite Hplain. cbn [bind]. eauto.
Qed.

(** [normalizeMessage] alone is partial: the payload [null] parses, and
    reading a field of it throws. *)
Example normalizeMessage_null Date_construct topic now :
  exists e, normalizeMessage Date_construct Null topic now = Throw e.
Proof. cbn. eauto. Qed.

(** ** Severity *)

Lemma toLowerCase_idempotent s : toLowerCase (toLowerCase s) = toLowerCase s.
Proof.
  induction s as [|c s IH]; [reflexivity|].
  cbn [toLowerCase]. rewrite IH. f_equal.
  destruct c as [[] [] [] [] [] [] [] []]; reflexivity.
Qed.

(** A lowered string is none of the mixed-case member names. *)
Lemma lowered_neq (s k : string) :
  toLowerCase k <> k -> String.eqb (toLowerCase s) k = false.
Proof.
  intros Hk. apply String.eqb_neq. intros E. apply Hk.
  rewrite <- E. apply toLowerCase_idempotent.
Qed.

Lemma severityMap_alias (s : string) :
  MqttSpec.inherited_name (Some s) = false ->
  literal_get severityMap (toLowerCase s) =
    match MqttSpec.alias s with
    | Some l => sev l
    | None => Undefined
    end.
Proof.
  unfold MqttSpec.inherited_name, MqttSpec.alias, literal_get, severityMap.
  intros Hn. apply orb_false_iff in Hn as [Hc Hp].
  cbn [lookup].
  repeat match goal with
         | |- context [if String.eqb (toLowerCase s) ?k then _ else _] =>
             destruct (String.eqb (toLowerCase s) k) eqn:?; cbn [orb]; [reflexivity|]
         end.
  unfold Object_prototype_get. rewrite Hc, Hp.
  cbn [existsb].
  rewrite !lowered_neq by (cbv; discriminate). reflexivity.
Qed.

Lemma mapToLogSeverity_textual (v : value) :
  MqttSpec.textual v = true ->
  MqttSpec.inherited_name (MqttSpec.as_text v) = false ->
  mapToLogSeverity v =
    Ok match MqttSpec.as_text v with
       | Some s => match MqttSpec.alias s with Some l => sev l | None => Undefined end
       | None => Undefined
       end.
Proof.
  unfold mapToLogSeverity. intros Ht Hn.
  destruct v; cbn in Ht |- *; try discriminate; try reflexivity.
  - now destruct b.
  - destruct (String.eqb text "0" || String.eqb text "NaN"); [reflexivity|discriminate].
  - destruct (String.eqb s "") eqn:Es; cbn [negb].
    + apply String.eqb_eq in Es. subst s. reflexivity.
    + cbn [MqttSpec.as_text] in Hn. now rewrite (severityMap_alias s Hn).
Qed.

Lemma truthy_sev l : truthy (sev l) = true.
Proof. now destruct l. Qed.

(** The precedence of the five steps, for every parsed payload whose
    [severity] and [level] are strings or absent, and away from the two
    inherited names. *)
Lemma resolveSeverity_precedence (parsedMessage : value) (topic : string)
    (explicit level : value) (content : string) :
  get_field parsedMessage "severity" = Ok explicit ->
  get_field parsedMessage "level" = Ok level ->
  MqttSpec.textual explicit = true ->
  MqttSpec.textual level = true ->
  MqttSpec.inherited_name (MqttSpec.as_text explicit) = false ->
  MqttSpec.inherited_name (MqttSpec.as_text level) = false ->
  (if is_string parsedMessage then parsedMessage
   else of_option (JSON_stringify parsedMessage)) = Str content ->
  resolveSeverity parsedMessage topic =
    Ok (sev (MqttSpec.classify (MqttSpec.as_text explicit) topic
                               (MqttSpec.as_text level) content)).
Proof.
  intros He Hl Hte Htl Hie Hil Hc.
  unfold resolveSeverity. rewrite He. cbn [bind].
  rewrite (mapToLogSeverity_textual explicit Hte Hie). cbn [bind].
  unfold MqttSpec.classify, MqttSpec.first_of. cbn [fold_right].
  destruct (match MqttSpec.as_text explicit with
            | Some s => MqttSpec.alias s | None => None end) as [l|] eqn:Ea.
  { destruct (MqttSpec.as_text explicit); [|discriminate].
    rewrite Ea, truthy_sev. reflexivity. }
  assert (truthy match MqttSpec.as_text explicit with
                 | Some s => match MqttSpec.alias s with
                             | Some l => sev l | None => Undefined end
                 | None => Undefined end = false) as ->.
  { destruct (MqttSpec.as_text explicit); [rewrite Ea|]; reflexivity. }
  unfold inferMessageType, MqttSpec.topic_hint.
  destruct (includes "/error" topic || includes "/alert" topic); [reflexivity|].
  destruct (includes "/warning" topic || includes "/warn" topic); [reflexivity|].
  destruct (includes "/debug" topic); [reflexivity|].
  rewrite Hl. cbn [bind].
  assert ((if truthy level then mapToLogSeverity level else Ok Undefined) =
          Ok match MqttSpec.as_text level with
             | Some s => match MqttSpec.alias s with
                         | Some l => sev l | None => Undefined end
             | None => Undefined end) as ->.
  { destruct (truthy level) eqn:T.
    - apply mapToLogSeverity_textual; assumption.
    - destruct level; cbn in T |- *; try discriminate; try reflexivity.
      apply negb_false_iff, String.eqb_eq in T. subst s. reflexivity. }
  cbn [bind].
  destruct (match MqttSpec.as_text level with
            | Some s => MqttSpec.alias s | None => None end) as [l|] eqn:El.
  { destruct (MqttSpec.as_text level); [|discriminate].
    rewrite El, truthy_sev. reflexivity. }
  assert (truthy match MqttSpec.as_text level with
                 | Some s => match MqttSpec.alias s with
                             | Some l => sev l | None => Undefined end
                 | None => Undefined end = false) as ->.
  { destruct (MqttSpec.as_text level); [rewrite El|]; reflexivity. }
  rewrite Hc. cbn [call_toLowerCase bind].
  unfold MqttSpec.keyword_scan.
  destruct (includes "error" (toLowerCase content)
            || includes "exception" (toLowerCase content)
            || includes "fail" (toLowerCase content)); [reflexivity|].
  destruct (includes "warn" (toLowerCase content)); reflexivity.
Qed.

(** C4: the explicit severity "constructor" is in no alias, so the five
    steps give info for this message; the lookup in the alias object finds
    the member every object literal inherits, and the severity assigned is
    the [Object] constructor. *)
Theorem resolveSeverity_inherited_constructor :
  resolveSeverity Demo.constructor_payload "smtrack/dev1/logs"
    = Ok (Native ObjectConstructor)
  /\ MqttSpec.alias "constructor" = None
  /\ exists content,
       JSON_stringify Demo.constructor_payload = Some content
       /\ MqttSpec.classify (Some "constructor") "smtrack/dev1/logs" None content = INFO.
Proof.
  split; [reflexivity|]. split; [reflexivity|].
  eexists. split; reflexivity.
Qed.

(** The same through the whole normalizer: the entry handed to [pushLog]
    carries the constructor as its severity, and [pushLog] lets it in. *)
Example normalize_inherited_constructor :
  exists entry,
    normalize Demo.utf8 (Demo.parse_known [Demo.constructor_payload]) Demo.no_date
      "smtrack/dev1/logs"
      (list_byte_of_string
         (match JSON_stringify Demo.constructor_payload with Some t => t | None => "" end))
      Demo.now = Ok entry
    /\ LogEntry.severity entry = Native ObjectConstructor
    /\ Loki.invalid entry = false.
Proof. eexists. split; [vm_compute; reflexivity|]. split; reflexivity. Qed.

(** C5 as amended: with the explicit severity "warn" the entry is a
    warning, on a topic containing /error as on any other. *)
Theorem explicit_warn_on_error_topic (parsedMessage : value) (topic : string) :
  get_field parsedMessage "severity" = Ok (Str "warn") ->
  includes "/error" topic = true ->
  resolveSeverity parsedMessage topic = Ok (sev WARNING).
Proof.
  intros H _. unfold resolveSeverity. rewrite H. reflexivity.
Qed.

Lemma explicit_warn_on_error_topic_witness :
  get_field Demo.warn_payload "severity" = Ok (Str "warn")
  /\ includes "/error" "iot/sensor1/error" = true
  /\ resolveSeverity Demo.warn_payload "iot/sensor1/error" = Ok (sev WARNING).
Proof.
  split; [reflexivity|]. split; [reflexivity|].
  apply (explicit_warn_on_error_topic Demo.warn_payload "iot/sensor1/error");
    reflexivity.
Defined.

(** C5 as stated fails: explicit "warn" on iot/sensor1/error is a warning,
    not an error. *)
Lemma explicit_warn_is_not_error :
  get_field Demo.warn_payload "severity" = Ok (Str "warn")
  /\ includes "/error" "iot/sensor1/error" = true
  /\ resolveSeverity Demo.warn_payload "iot/sensor1/error" = Ok (sev WARNING)
  /\ resolveSeverity Demo.warn_payload "iot/sensor1/error" <> Ok (sev ERROR).
Proof. repeat split; try reflexivity. discriminate. Qed.

Lemma resolveSeverity_precedence_witness :
  resolveSeverity Demo.oops "iot/sensor1/error" = Ok (sev ERROR).
Proof.
  apply (resolveSeverity_precedence Demo.oops "iot/sensor1/error"
           Undefined Undefined
           (match JSON_stringify Demo.oops with Some t => t | None => "" end));
    reflexivity.
Defined.

(** A payload that does not parse becomes the message verbatim, with the
    device identity taken from the topic. *)
Theorem plain_text_is_verbatim
    (Buffer_toString : list Byte.byte -> string)
    (JSON_parse : string -> result value)
    (Date_construct : value -> result Date)
    (topic : string) (payload : list Byte.byte) (now : Date) (error : thrown) :
  JSON_parse (Buffer_toString payload) = Throw error ->
  exists entry,
    normalize Buffer_toString JSON_parse Date_construct topic payload now = Ok entry
    /\ LogEntry.message entry = Str (Buffer_toString payload)
    /\ LogEntry.device_id entry = extractDeviceIdFromTopic topic
    /\ LogEntry.timestamp entry = Some now.
Proof.
  intros H. unfold normalize. rewrite H. cbn [bind try_catch].
  unfold createPlainTextMessage.
  destruct (inferMessageType_plain_text topic (Buffer_toString payload)) as [sv ->].
  cbn [bind]. eexists. split; [reflexivity|]. repeat split.
Qed.

Lemma plain_text_is_verbatim_witness :
  Demo.parse_known [] (Demo.utf8 (list_byte_of_string "hello"))
    = Throw (ErrorObject "Unexpected token")
  /\ exists entry,
       normalize Demo.utf8 (Demo.parse_known []) Demo.no_date
         "smtrack/dev42/logs" (list_byte_of_string "hello") Demo.now = Ok entry
       /\ LogEntry.message entry = Str (Demo.utf8 (list_byte_of_string "hello"))
       /\ LogEntry.device_id entry = extractDeviceIdFromTopic "smtrack/dev42/logs"
       /\ LogEntry.timestamp entry = Some Demo.now.
Proof.
  split; [reflexivity|].
  apply (plain_text_is_verbatim Demo.utf8 (Demo.parse_known []) Demo.no_date
           "smtrack/dev42/logs" (list_byte_of_string "hello") Demo.now
           (ErrorObject "Unexpected token")).
  reflexivity.
Defined.

(** Scenario 1 of the specification: a payload that is not JSON. *)
Example scenario_plain_text :
  exists entry,
    normalize Demo.utf8 (Demo.parse_known []) Demo.no_date
      "smtrack/dev42/logs" (list_byte_of_string "hello") Demo.now = Ok entry
    /\ LogEntry.device_id entry = Str "dev42"
    /\ LogEntry.message entry = Str "hello"
    /\ LogEntry.severity entry = sev INFO.
Proof. eexists. split; [vm_compute; reflexivity|]. repeat split. Qed.

(** Scenario 2: no explicit severity, topic ending in /error. *)
Example scenario_error_topic :
  exists entry,
    normalize Demo.utf8 (Demo.parse_known [Demo.oops]) Demo.no_date
      "iot/sensor1/error"
      (list_byte_of_string
         (match JSON_stringify Demo.oops with Some t => t | None => "" end))
      Demo.now = Ok entry
    /\ LogEntry.message entry = Str "oops"
    /\ LogEntry.severity entry = sev ERROR.
Proof. eexists. split; [vm_compute; reflexivity|]. repeat split. Qed.

End MqttProps.

(* ================================================================== *)
(** * Numbers: rounding and decimal text                              *)
(* ================================================================== *)

Module NumberProps.
Import Js Loki.
Local Open Scope string_scope.
Local Open Scope Z_scope.

(** [round53] against the Standard Library's binary64 multiplication. *)
Example round53_is_binary64 :
  forallb (fun ms => match binary64_mul ms 1000000 with
                     | Some z => z =? round53 (ms * 1000000)
                     | None => false
                     end)
          [0; 1; 5; 1700000000123; 1700000000125; 1700000000126; 1762041600000;
           999999999999999; 1000000000000000; 5000000000000000; 8640000000000000;
           -1; -1700000000123] = true.
Proof. vm_compute. reflexivity. Qed.

Lemma round53_small c : 0 <= c < 2 ^ 53 -> round53 c = c.
Proof.
  intros [H0 H]. unfold round53.
  destruct (Z.leb_spec (Z.log2 (Z.abs c) - 52) 0) as [|E]; [reflexivity|].
  rewrite Z.abs_eq in E by assumption.
  assert (0 < c) by (destruct (Z.eq_dec c 0); [subst; cbn in E; lia|lia]).
  assert (Z.log2 c < 53) by (apply Z.log2_lt_pow2; lia). lia.
Qed.

Lemma round53_near c : 0 <= c < 2 ^ 70 -> Z.abs (round53 c - c) <= 2 ^ 16.
Proof.
  intros [H0 H]. unfold round53. rewrite (Z.abs_eq c) by assumption.
  destruct (Z.leb_spec (Z.log2 c - 52) 0) as [|E]; [rewrite Z.sub_diag; cbn; lia|].
  assert (0 < c) by (destruct (Z.eq_dec c 0); [subst; cbn in E; lia|lia]).
  assert (Z.log2 c < 70) by (apply Z.log2_lt_pow2; lia).
  set (e := Z.log2 c - 52) in *.
  assert (He : 2 ^ e = 2 * 2 ^ (e - 1)).
  { replace e with (Z.succ (e - 1)) at 1 by lia. apply Z.pow_succ_r. lia. }
  assert (Hh : 0 < 2 ^ (e - 1) <= 2 ^ 16).
  { split; [apply Z.pow_pos_nonneg; lia|apply Z.pow_le_mono_r; lia]. }
  rewrite Z.sgn_pos by assumption.
  pose proof (Z.div_mod c (2 ^ e) ltac:(lia)) as Hdm.
  pose proof (Z.mod_pos_bound c (2 ^ e) ltac:(lia)) as Hm.
  set (q := c / 2 ^ e) in *. set (r := c mod 2 ^ e) in *.
  set (P := 2 ^ e) in *. set (h := 2 ^ (e - 1)) in *.
  destruct (Z.ltb_spec r h); [lia|].
  destruct (Z.ltb_spec h r); [lia|].
  destruct (Z.even q); lia.
Qed.

Lemma round53_large c : 2 ^ 70 <= c -> 2 ^ 70 <= round53 c.
Proof.
  intros H. unfold round53.
  assert (0 < c) by (pose proof (Z.pow_pos_nonneg 2 70); lia).
  rewrite Z.abs_eq by lia.
  assert (70 <= Z.log2 c) by (apply Z.log2_le_pow2; lia).
  destruct (Z.leb_spec (Z.log2 c - 52) 0) as [|E]; [lia|].
  set (e := Z.log2 c - 52) in *.
  destruct (Z.log2_spec c ltac:(lia)) as [Hl _].
  replace (Z.log2 c) with (52 + e) in Hl by lia.
  rewrite Z.pow_add_r in Hl by lia.
  assert (0 < 2 ^ e) by (apply Z.pow_pos_nonneg; lia).
  assert (2 ^ 52 <= c / 2 ^ e) by (apply Z.div_le_lower_bound; lia).
  rewrite Z.sgn_pos by assumption.
  set (q := c / 2 ^ e) in *.
  assert (2 ^ 70 <= 2 ^ 52 * 2 ^ e).
  { rewrite <- Z.pow_add_r by lia. apply Z.pow_le_mono_r; lia. }
  assert (forall q', q <= q' -> 2 ^ 70 <= 1 * (q' * 2 ^ e)) as K by (intros; nia).
  destruct (_ <? _); [apply K; lia|].
  destruct (_ <? _); [apply K; lia|].
  destruct (Z.even q); apply K; lia.
Qed.

Lemma round53_opp c : round53 (- c) = - round53 c.
Proof.
  unfold round53. rewrite Z.abs_opp, Z.sgn_opp.
  destruct (_ <=? _); lia.
Qed.

(** Two multiples of a million below 10^21 that round alike are equal. *)
Lemma round53_separates c v :
  0 <= c -> 0 <= v < 10 ^ 21 ->
  (c mod 1000000 = 0) -> (v mod 1000000 = 0) ->
  round53 c = round53 v -> c = v.
Proof.
  intros Hc Hv Mc Mv E.
  assert (B : 10 ^ 21 + 2 ^ 16 < 2 ^ 70) by (vm_compute; reflexivity).
  assert (B16 : 2 ^ 16 = 65536) by reflexivity.
  assert (Hv' : 0 <= v < 2 ^ 70) by lia.
  pose proof (round53_near v Hv') as Nv.
  destruct (Z.lt_ge_cases c (2 ^ 70)) as [Lc|Lc].
  - pose proof (round53_near c ltac:(lia)) as Nc.
    rewrite E in Nc.
    apply Z.mod_divide in Mc, Mv; try lia.
    destruct Mc as [a ->], Mv as [b ->]. lia.
  - pose proof (round53_large c Lc). lia.
Qed.

Lemma string_app_assoc (a b c : string) : (a ++ b) ++ c = a ++ (b ++ c).
Proof. induction a as [|x a IH]; cbn; [reflexivity|now rewrite IH]. Qed.

Lemma string_app_nil_r (a : string) : a ++ "" = a.
Proof. induction a as [|x a IH]; cbn; [reflexivity|now rewrite IH]. Qed.

Lemma string_length_app (a b : string) :
  String.length (a ++ b) = (String.length a + String.length b)%nat.
Proof. induction a as [|x a IH]; cbn; [reflexivity|now rewrite IH]. Qed.

Lemma decimal_acc_app fuel : forall n acc,
  decimal_acc fuel n acc = decimal_acc fuel n "" ++ acc.
Proof.
  induction fuel as [|fuel IH]; intros n acc; cbn [decimal_acc]; [reflexivity|].
  destruct (n <? 10); [reflexivity|].
  rewrite IH, (IH _ (String _ "")), string_app_assoc. reflexivity.
Qed.

Lemma decimal_acc_enough f1 : forall f2 n acc,
  0 < n < 2 ^ Z.of_nat f1 -> n < 2 ^ Z.of_nat f2 ->
  decimal_acc f1 n acc = decimal_acc f2 n acc.
Proof.
  induction f1 as [|f1 IH]; intros f2 n acc H1 H2.
  - change (2 ^ Z.of_nat 0) with 1 in H1. lia.
  - destruct f2 as [|f2].
    + change (2 ^ Z.of_nat 0) with 1 in H2. lia.
    + cbn [decimal_acc]. destruct (Z.ltb_spec n 10); [reflexivity|].
      rewrite Nat2Z.inj_succ, Z.pow_succ_r in H1, H2 by lia.
      apply IH; [split|]; try (apply Z.div_str_pos; lia);
        apply Z.div_lt_upper_bound; lia.
Qed.

Lemma decimal_small n : 0 <= n < 10 -> decimal n = String (digit_char n) "".
Proof.
  intros H. unfold decimal. cbn [decimal_acc].
  rewrite Z.mod_small by lia.
  destruct (Z.ltb_spec n 10); [reflexivity|lia].
Qed.

Lemma decimal_step n :
  10 <= n -> decimal n = decimal (n / 10) ++ String (digit_char (n mod 10)) "".
Proof.
  intros H. unfold decimal. cbn [decimal_acc].
  destruct (Z.ltb_spec n 10); [lia|].
  rewrite decimal_acc_app. f_equal.
  assert (0 < n / 10) by (apply Z.div_str_pos; lia).
  assert (n / 10 < n) by (apply Z.div_lt; lia).
  destruct (Z.log2_spec n ltac:(lia)) as [_ Hn].
  destruct (Z.log2_spec (n / 10) ltac:(lia)) as [_ Hq].
  pose proof (Z.log2_nonneg n). pose proof (Z.log2_nonneg (n / 10)).
  apply (decimal_acc_enough (Z.to_nat (Z.log2 n)) (S (Z.to_nat (Z.log2 (n / 10))))).
  - rewrite Z2Nat.id by lia. split; [lia|].
    apply Z.div_lt_upper_bound; [lia|].
    rewrite Z.pow_succ_r in Hn by lia. lia.
  - rewrite Nat2Z.inj_succ, Z2Nat.id by lia. exact Hq.
Qed.

Lemma zeros_snoc j : zeros j ++ "0" = zeros (S j).
Proof. induction j as [|j IH]; cbn in *; [reflexivity|now rewrite IH]. Qed.

Lemma decimal_times_pow10 s (j : nat) :
  0 < s -> decimal (s * 10 ^ Z.of_nat j) = decimal s ++ zeros j.
Proof.
  intros Hs. induction j as [|j IH].
  - cbn [zeros]. rewrite Z.mul_1_r, string_app_nil_r. reflexivity.
  - rewrite Nat2Z.inj_succ, Z.pow_succ_r by lia.
    assert (0 < 10 ^ Z.of_nat j) by (apply Z.pow_pos_nonneg; lia).
    rewrite decimal_step by nia.
    replace (s * (10 * 10 ^ Z.of_nat j)) with ((s * 10 ^ Z.of_nat j) * 10) by ring.
    rewrite Z.div_mul, Z.mod_mul by lia.
    rewrite IH, string_app_assoc. f_equal. apply zeros_snoc.
Qed.

Lemma num_digits_small n : 0 <= n < 10 -> num_digits n = 1.
Proof. intros H. unfold num_digits. now rewrite decimal_small. Qed.

Lemma num_digits_step n : 10 <= n -> num_digits n = num_digits (n / 10) + 1.
Proof.
  intros H. unfold num_digits. rewrite decimal_step, string_length_app by assumption.
  cbn [String.length]. lia.
Qed.

Lemma num_digits_range (j : nat) : forall n,
  10 ^ Z.of_nat j <= n < 10 ^ Z.of_nat (S j) -> num_digits n = Z.of_nat (S j).
Proof.
  induction j as [|j IH]; intros n H.
  - cbn in H. rewrite num_digits_small; lia.
  - rewrite !Nat2Z.inj_succ, !Z.pow_succ_r in H by lia.
    assert (0 < 10 ^ Z.of_nat j) by (apply Z.pow_pos_nonneg; lia).
    rewrite num_digits_step by lia.
    rewrite IH; [lia|].
    rewrite Nat2Z.inj_succ, Z.pow_succ_r by lia.
    split; [apply Z.div_le_lower_bound; lia|apply Z.div_lt_upper_bound; lia].
Qed.

(** The digit count brackets a positive number below 10^22. *)
Lemma num_digits_bounds x :
  0 < x < 10 ^ 22 ->
  1 <= num_digits x <= 22 /\ 10 ^ (num_digits x - 1) <= x < 10 ^ num_digits x.
Proof.
  intros H.
  assert (exists j : nat, (j < 22)%nat /\ 10 ^ Z.of_nat j <= x < 10 ^ Z.of_nat (S j))
    as (j & Hj & Hx).
  { assert (forall b : nat, x < 10 ^ Z.of_nat b ->
              exists j : nat, (j < b)%nat /\ 10 ^ Z.of_nat j <= x < 10 ^ Z.of_nat (S j)) as K.
    { induction b as [|b IH]; intros Hb; [cbn in Hb; lia|].
      destruct (Z.lt_ge_cases x (10 ^ Z.of_nat b)) as [L|L].
      - destruct (IH L) as (j & ? & ?). exists j. split; [lia|assumption].
      - exists b. split; [lia|]. split; assumption. }
    apply (K 22%nat). apply H. }
  rewrite (num_digits_range j x Hx).
  replace (Z.of_nat (S j) - 1) with (Z.of_nat j) by lia.
  split; [lia|assumption].
Qed.

Lemma closer_either x p s1 s2 : closer x p s1 s2 = s1 \/ closer x p s1 s2 = s2.
Proof.
  unfold closer. destruct (_ <? _); [auto|].
  destruct (_ <? _); [auto|]. destruct (Z.even s1); auto.
Qed.

Lemma candidate_sound x k n s :
  candidate x k n = Some s -> reads_back x s k n = true.
Proof.
  unfold candidate. cbv zeta.
  destruct (reads_back x (x / 10 ^ (k - n)) k n) eqn:E1,
           (reads_back x (x / 10 ^ (k - n) + 1) k n) eqn:E2;
    intros [= <-]; try assumption.
  destruct (closer_either x (10 ^ (k - n)) (x / 10 ^ (k - n)) (x / 10 ^ (k - n) + 1))
    as [-> | ->]; assumption.
Qed.

Lemma candidate_complete x k n s :
  reads_back x s k n = true ->
  s = x / 10 ^ (k - n) \/ s = x / 10 ^ (k - n) + 1 ->
  candidate x k n <> None.
Proof.
  unfold candidate. cbv zeta. intros R [-> | ->]; rewrite R.
  - destruct (reads_back x (x / 10 ^ (k - n) + 1) k n); cbn; discriminate.
  - destruct (reads_back x (x / 10 ^ (k - n)) k n); cbn; discriminate.
Qed.

Lemma shortest_sound fuel : forall x d n n' k' s',
  shortest fuel x d n = Some (n', k', s') ->
  n <= n' /\ (k' = d \/ k' = d + 1) /\ reads_back x s' k' n' = true.
Proof.
  induction fuel as [|fuel IH]; intros x d n n' k' s'; cbn [shortest]; [discriminate|].
  destruct (candidate x d n) as [s|] eqn:C1.
  { intros [= <- <- <-]. apply candidate_sound in C1. repeat split; auto; lia. }
  destruct (candidate x (d + 1) n) as [s|] eqn:C2.
  { intros [= <- <- <-]. apply candidate_sound in C2. repeat split; auto; lia. }
  intros H. apply IH in H as (? & ? & ?). repeat split; auto; lia.
Qed.

Lemma shortest_complete fuel : forall x d n n1,
  candidate x d n1 <> None ->
  n <= n1 < n + Z.of_nat fuel ->
  exists n' k' s', shortest fuel x d n = Some (n', k', s') /\ n' <= n1.
Proof.
  induction fuel as [|fuel IH]; intros x d n n1 C H; [lia|].
  cbn [shortest].
  destruct (candidate x d n) as [s|] eqn:C1; [exists n, d, s; split; [reflexivity|lia]|].
  destruct (candidate x (d + 1) n) as [s|] eqn:C2;
    [exists n, (d + 1), s; split; [reflexivity|lia]|].
  assert (n <> n1) by (intros ->; contradiction).
  destruct (IH x d (n + 1) n1 C ltac:(lia)) as (n' & k' & s' & E & L).
  exists n', k', s'. split; [assumption|lia].
Qed.

Lemma round53_pow10 j : 0 <= j <= 22 -> round53 (10 ^ j) = 10 ^ j.
Proof.
  intros H.
  assert (j = 0 \/ j = 1 \/ j = 2 \/ j = 3 \/ j = 4 \/ j = 5 \/ j = 6 \/ j = 7
          \/ j = 8 \/ j = 9 \/ j = 10 \/ j = 11 \/ j = 12 \/ j = 13 \/ j = 14
          \/ j = 15 \/ j = 16 \/ j = 17 \/ j = 18 \/ j = 19 \/ j = 20 \/ j = 21
          \/ j = 22) as K by lia.
  repeat (destruct K as [-> | K]; [vm_compute; reflexivity|]).
  subst j. vm_compute. reflexivity.
Qed.

Lemma pow10_split a b : 0 <= a -> 0 <= b -> 10 ^ (a + b) = 10 ^ a * 10 ^ b.
Proof. intros. apply Z.pow_add_r; assumption. Qed.

(** The text of the rounded product is the decimal of the exact product. *)
Lemma toString_nanoseconds ms :
  0 < ms < 10 ^ 15 ->
  toString_positive (round53 (ms * 1000000)) = decimal (ms * 1000000).
Proof.
  intros Hms.
  assert (E15 : 10 ^ 15 = 1000000000000000) by reflexivity.
  assert (E21 : 10 ^ 21 = 1000000000000000000000) by reflexivity.
  assert (E22 : 10 ^ 22 = 10000000000000000000000) by reflexivity.
  assert (E6 : 10 ^ 6 = 1000000) by reflexivity.
  assert (B70 : 10 ^ 21 < 2 ^ 70) by (vm_compute; reflexivity).
  assert (B16 : 2 ^ 16 = 65536) by reflexivity.
  set (v := ms * 1000000) in *.
  assert (Hv : 1000000 <= v < 10 ^ 21) by (subst v; lia).
  pose proof (round53_near v ltac:(lia)) as Near.
  remember (round53 v) as x eqn:Hx.
  assert (Hxpos : 0 < x < 10 ^ 22) by lia.
  destruct (num_digits_bounds x Hxpos) as [HD Hbr].
  unfold toString_positive.
  set (D := num_digits x) in *.
  (* the digit count of [x] is that of [v] *)
  assert (HvD : 10 ^ (D - 1) <= v < 10 ^ D).
  { assert (6 <= D).
    { destruct (Z.lt_ge_cases D 6) as [L|L]; [|assumption].
      assert (10 ^ D <= 10 ^ 5) by (apply Z.pow_le_mono_r; lia).
      change (10 ^ 5) with 100000 in *. lia. }
    assert (P : 10 ^ D = 1000000 * 10 ^ (D - 6)).
    { replace D with (6 + (D - 6)) at 1 by lia. rewrite pow10_split by lia. now rewrite E6. }
    assert (0 < 10 ^ (D - 6)) by (apply Z.pow_pos_nonneg; lia).
    split.
    - destruct (Z.eq_dec D 6) as [->|]; [change (10 ^ (6 - 1)) with 100000; lia|].
      assert (P' : 10 ^ (D - 1) = 1000000 * 10 ^ (D - 7)).
      { replace (D - 1) with (6 + (D - 7)) by lia. rewrite pow10_split by lia. now rewrite E6. }
      destruct (Z.lt_ge_cases v (10 ^ (D - 1))) as [L|L]; [|assumption].
      exfalso. subst v. lia.
    - destruct (Z.lt_ge_cases v (10 ^ D)) as [L|L]; [assumption|].
      exfalso.
      destruct (Z.eq_dec v (10 ^ D)) as [Ev|Nv].
      + rewrite Ev, round53_pow10 in Hx by lia. lia.
      + subst v. lia. }
  assert (H7 : 7 <= D <= 21).
  { split.
    - destruct (Z.lt_ge_cases D 7) as [L|L]; [|assumption].
      assert (10 ^ D <= 10 ^ 6) by (apply Z.pow_le_mono_r; lia). lia.
    - destruct (Z.lt_ge_cases 21 D) as [L|L]; [|assumption].
      assert (10 ^ 21 <= 10 ^ (D - 1)) by (apply Z.pow_le_mono_r; lia). lia. }
  (* [ms] itself reads back with [D - 6] digits *)
  assert (C : candidate x D (D - 6) <> None).
  { apply (candidate_complete x D (D - 6) ms).
    - unfold reads_back. replace (D - (D - 6)) with 6 by lia. rewrite E6.
      fold v. rewrite <- Hx, Z.eqb_refl, andb_true_r.
      assert (P : 10 ^ D = 10 ^ (D - 6) * 1000000).
      { replace D with ((D - 6) + 6) at 1 by lia. rewrite pow10_split by lia. now rewrite E6. }
      assert (P' : 10 ^ (D - 1) = 10 ^ (D - 6 - 1) * 1000000).
      { replace (D - 1) with ((D - 6 - 1) + 6) by lia. rewrite pow10_split by lia. now rewrite E6. }
      apply andb_true_iff. split; [apply Z.leb_le|apply Z.ltb_lt]; subst v; nia.
    - replace (D - (D - 6)) with 6 by lia. rewrite E6.
      destruct (Z.le_gt_cases v x) as [L|L].
      + left. apply Z.div_unique with (r := x - v); subst v; lia.
      + right. assert (x / 1000000 = ms - 1); [|lia].
        symmetry. apply Z.div_unique with (r := x - v + 1000000); subst v; lia. }
  destruct (shortest_complete (Z.to_nat D) x D 1 (D - 6) C ltac:(lia))
    as (n' & k' & s' & Hs & Ln).
  rewrite Hs.
  (* whatever was found denotes [v] *)
  destruct (shortest_sound _ _ _ _ _ _ _ Hs) as (L1 & Hk & R).
  unfold reads_back in R.
  apply andb_true_iff in R as [R R3]. apply andb_true_iff in R as [R1 R2].
  apply Z.leb_le in R1. apply Z.ltb_lt in R2. apply Z.eqb_eq in R3.
  assert (0 < 10 ^ (n' - 1)) by (apply Z.pow_pos_nonneg; lia).
  assert (Hsplit : 10 ^ (k' - n') = 10 ^ (k' - n' - 6) * 1000000).
  { replace (k' - n') with ((k' - n' - 6) + 6) at 1 by lia.
    rewrite pow10_split by lia. now rewrite E6. }
  assert (Ev : s' * 10 ^ (k' - n') = v).
  { apply round53_separates.
    - assert (0 < 10 ^ (k' - n')) by (apply Z.pow_pos_nonneg; lia). nia.
    - lia.
    - rewrite Hsplit, Z.mul_assoc. apply Z.mod_mul. lia.
    - subst v. apply Z.mod_mul. lia.
    - now rewrite R3. }
  assert (k' <= 21).
  { destruct (Z.lt_ge_cases 21 k') as [L|L]; [|assumption]. exfalso.
    assert (10 ^ 21 <= 10 ^ (k' - 1)) by (apply Z.pow_le_mono_r; lia).
    assert (10 ^ (k' - 1) = 10 ^ (n' - 1) * 10 ^ (k' - n')).
    { rewrite <- pow10_split by lia. f_equal. lia. }
    assert (0 < 10 ^ (k' - n')) by (apply Z.pow_pos_nonneg; lia).
    nia. }
  unfold render. destruct (Z.leb_spec k' 21); [|lia].
  rewrite <- Ev. replace (k' - n') with (Z.of_nat (Z.to_nat (k' - n'))) at 2 by lia.
  symmetry. apply decimal_times_pow10. lia.
Qed.

Lemma Number_toString_nanoseconds ms :
  - 10 ^ 15 < ms < 10 ^ 15 ->
  Number_toString (Number_mul (Finite ms) (Finite 1000000)) = decimal_Z (ms * 1000000).
Proof.
  intros H.
  assert (E15 : 10 ^ 15 = 1000000000000000) by reflexivity.
  assert (B70 : 10 ^ 21 < 2 ^ 70) by (vm_compute; reflexivity).
  assert (B : 2 ^ 70 + 2 ^ 16 < 2 ^ 1024) by (vm_compute; reflexivity).
  assert (E21 : 10 ^ 21 = 1000000000000000000000) by reflexivity.
  assert (B16 : 2 ^ 16 = 65536) by reflexivity.
  cbn [Number_mul]. unfold Number_of_exact, decimal_Z.
  assert (K : forall m, 0 < m < 10 ^ 15 ->
            1000000 - 2 ^ 16 <= round53 (m * 1000000) < 2 ^ 1024).
  { intros m Hm. pose proof (round53_near (m * 1000000) ltac:(lia)). lia. }
  destruct (Z.lt_trichotomy ms 0) as [Neg | [-> | Pos]].
  - destruct (Z.ltb_spec (ms * 1000000) 0); [|lia].
    replace (- (ms * 1000000)) with (- ms * 1000000) by ring.
    replace (ms * 1000000) with (- ((- ms) * 1000000)) by ring.
    rewrite round53_opp.
    pose proof (K (- ms) ltac:(lia)) as Kb.
    rewrite <- toString_nanoseconds by lia.
    set (x := round53 (- ms * 1000000)) in *.
    rewrite Z.abs_opp, Z.abs_eq by lia.
    destruct (Z.leb_spec (2 ^ 1024) x); [lia|].
    cbn [Number_toString].
    destruct (Z.eqb_spec (- x) 0); [lia|].
    destruct (Z.ltb_spec (- x) 0); [|lia].
    now rewrite !Z.opp_involutive.
  - reflexivity.
  - pose proof (K ms ltac:(lia)) as Kb.
    rewrite <- toString_nanoseconds by lia.
    set (x := round53 (ms * 1000000)) in *.
    rewrite Z.abs_eq by lia.
    destruct (Z.leb_spec (2 ^ 1024) x); [lia|].
    cbn [Number_toString].
    destruct (Z.eqb_spec x 0); [lia|].
    destruct (Z.ltb_spec x 0); [lia|].
    destruct (Z.ltb_spec (ms * 1000000) 0); [lia|]. reflexivity.
Qed.

End NumberProps.

(* ================================================================== *)
(** * JSON text of label objects                                      *)
(* ================================================================== *)

Module JsonProps.
Import Js Loki NumberProps.
Local Open Scope string_scope.

Lemma unescape_escape_char c rest :
  unescape_char (escape_char c ++ rest) = Some (c, rest).
Proof.
  destruct c as [[] [] [] [] [] [] [] []]; reflexivity.
Qed.

Lemma escape_char_head c rest : exists h t,
  escape_char c ++ rest = String h t /\ h <> dquote.
Proof.
  destruct c as [[] [] [] [] [] [] [] []];
    (eexists; eexists; split; [reflexivity|discriminate]).
Qed.

Lemma escape_prefix_free s1 : forall s2 r1 r2,
  escape s1 ++ String dquote r1 = escape s2 ++ String dquote r2 ->
  s1 = s2 /\ r1 = r2.
Proof.
  induction s1 as [|c1 s1 IH]; intros [|c2 s2] r1 r2; cbn [escape].
  - cbn. intros [= ->]. auto.
  - cbn [append]. rewrite string_app_assoc.
    destruct (escape_char_head c2 (escape s2 ++ String dquote r2)) as (h & t & -> & Hh).
    intros [= E _]. congruence.
  - cbn [append]. rewrite string_app_assoc.
    destruct (escape_char_head c1 (escape s1 ++ String dquote r1)) as (h & t & -> & Hh).
    intros [= E _]. congruence.
  - rewrite !string_app_assoc. intros E.
    pose proof (f_equal unescape_char E) as U.
    rewrite !unescape_escape_char in U. injection U as -> U.
    destruct (IH _ _ _ U) as [-> ->]. auto.
Qed.

Lemma JSON_quote_prefix_free s1 s2 r1 r2 :
  JSON_quote s1 ++ r1 = JSON_quote s2 ++ r2 -> s1 = s2 /\ r1 = r2.
Proof.
  unfold JSON_quote. cbn [append]. rewrite !string_app_assoc. cbn [append].
  intros [= E]. now apply escape_prefix_free.
Qed.

Lemma stringify_object_members props :
  stringify_object props = "{" ++ join "," (members props) ++ "}".
Proof. reflexivity. Qed.

Lemma join_cons x xs rest :
  join "," (x :: xs) ++ rest =
  x ++ match xs with [] => rest | _ => "," ++ join "," xs ++ rest end.
Proof.
  destruct xs as [|y ys]; cbn [join]; [reflexivity|].
  now rewrite !string_app_assoc.
Qed.

Lemma members_inj l1 : forall l2,
  string_valued l1 = true -> string_valued l2 = true ->
  join "," (members l1) ++ "}" = join "," (members l2) ++ "}" ->
  l1 = l2.
Proof.
  induction l1 as [|[k1 v1] l1 IH]; intros [|[k2 v2] l2] H1 H2.
  - reflexivity.
  - cbn in H2. apply andb_true_iff in H2 as [Hv2 _].
    destruct v2; try discriminate. unfold members. cbn [flat_map fst snd JSON_stringify app].
    rewrite join_cons. cbn. discriminate.
  - cbn in H1. apply andb_true_iff in H1 as [Hv1 _].
    destruct v1; try discriminate. unfold members. cbn [flat_map fst snd JSON_stringify app].
    rewrite join_cons. cbn. discriminate.
  - cbn in H1, H2.
    apply andb_true_iff in H1 as [Hv1 H1]. apply andb_true_iff in H2 as [Hv2 H2].
    destruct v1 as [| | | |s1| | |]; try discriminate.
    destruct v2 as [| | | |s2| | |]; try discriminate.
    unfold members. cbn [flat_map fst snd JSON_stringify app].
    fold (members l1). fold (members l2).
    rewrite !join_cons, !string_app_assoc. intros E.
    apply JSON_quote_prefix_free in E as [-> E].
    cbn [append] in E. injection E as E.
    rewrite ?string_app_assoc in E. cbn [append] in E.
    apply escape_prefix_free in E as [-> E].
    f_equal.
    apply IH; try assumption.
    destruct (members l1) as [|m1 ms1] eqn:M1, (members l2) as [|m2 ms2] eqn:M2.
    + reflexivity.
    + cbn in E. discriminate.
    + cbn in E. discriminate.
    + cbn [append] in E. now injection E.
Qed.

Lemma stringify_object_inj l1 l2 :
  string_valued l1 = true -> string_valued l2 = true ->
  stringify_object l1 = stringify_object l2 -> l1 = l2.
Proof.
  intros H1 H2. rewrite !stringify_object_members. cbn [append].
  intros [= E]. now apply members_inj.
Qed.

End JsonProps.

Module LokiProps.
Import Js Loki.
Local Open Scope list_scope.

(** ** Grouping *)

Lemma streamMapOf_snoc entries entry :
  streamMapOf (entries ++ [entry]) =
  streamMap_push (streamKeyOf entry) entry (streamMapOf entries).
Proof. unfold streamMapOf. now rewrite fold_left_app. Qed.

Lemma distinct_snoc keys k :
  distinct (keys ++ [k]) =
  if existsb (String.eqb k) (distinct keys) then distinct keys else distinct keys ++ [k].
Proof. unfold distinct. now rewrite fold_left_app. Qed.

Lemma existsb_eqb_In k (ks : list string) : existsb (String.eqb k) ks = true <-> In k ks.
Proof.
  rewrite existsb_exists. split.
  - intros (y & Hy & E). apply String.eqb_eq in E. now subst.
  - intros H. exists k. split; [assumption|apply String.eqb_refl].
Qed.

Lemma distinct_In keys : forall k, In k (distinct keys) <-> In k keys.
Proof.
  induction keys as [|k0 keys IH] using rev_ind; intros k; [reflexivity|].
  rewrite distinct_snoc, in_app_iff.
  destruct (existsb (String.eqb k0) (distinct keys)) eqn:E.
  - apply existsb_eqb_In in E. rewrite IH. cbn. split; [auto|].
    intros [H | [<- | []]]; [assumption|]. now apply IH.
  - rewrite in_app_iff, IH. reflexivity.
Qed.

Lemma distinct_NoDup keys : NoDup (distinct keys).
Proof.
  induction keys as [|k0 keys IH] using rev_ind; [constructor|].
  rewrite distinct_snoc.
  destruct (existsb (String.eqb k0) (distinct keys)) eqn:E; [assumption|].
  apply NoDup_app; [assumption|repeat constructor; auto|].
  intros a Ha [<- | []].
  apply existsb_eqb_In in Ha. congruence.
Qed.

Lemma streamMap_push_map key entry (G : string -> list LogEntry.t) ks :
  NoDup ks ->
  streamMap_push key entry (map (fun k => (k, G k)) ks) =
  if existsb (String.eqb key) ks
  then map (fun k => (k, if String.eqb key k then G k ++ [entry] else G k)) ks
  else map (fun k => (k, G k)) ks ++ [(key, [entry])].
Proof.
  induction 1 as [|k ks Hk Hks IH]; [reflexivity|].
  cbn [map streamMap_push existsb].
  destruct (String.eqb key k) eqn:E; cbn [orb].
  - apply String.eqb_eq in E. subst k. f_equal.
    apply map_ext_in. intros k' Hk'.
    destruct (String.eqb_spec key k'); [subst; contradiction|reflexivity].
  - rewrite IH. destruct (existsb (String.eqb key) ks); reflexivity.
Qed.

Lemma filter_none {A} (f : A -> bool) (l : list A) :
  (forall x, In x l -> f x = false) -> filter f l = [].
Proof.
  induction l as [|a l IH]; intros H; [reflexivity|].
  cbn [filter]. rewrite (H a (or_introl eq_refl)). apply IH.
  intros x Hx. apply H. now right.
Qed.

Lemma streamMapOf_grouped entries : streamMapOf entries = grouped entries.
Proof.
  unfold grouped.
  induction entries as [|entry entries IH] using rev_ind; [reflexivity|].
  rewrite streamMapOf_snoc, IH, map_app. cbn [map].
  rewrite streamMap_push_map by apply distinct_NoDup.
  rewrite distinct_snoc.
  destruct (existsb (String.eqb (streamKeyOf entry)) (distinct (map streamKeyOf entries)))
    eqn:E.
  - apply map_ext. intros k. f_equal. rewrite filter_app. cbn [filter].
    destruct (String.eqb (streamKeyOf entry) k); [reflexivity|now rewrite app_nil_r].
  - rewrite map_app. cbn [map]. f_equal.
    + apply map_ext_in. intros k Hk. f_equal. rewrite filter_app. cbn [filter].
      destruct (String.eqb_spec (streamKeyOf entry) k) as [<-|]; [|now rewrite app_nil_r].
      apply existsb_eqb_In in Hk. congruence.
    + f_equal. f_equal. rewrite filter_app. cbn [filter]. rewrite String.eqb_refl.
      rewrite filter_none; [reflexivity|].
      intros e He. apply String.eqb_neq. intros Ek.
      assert (In (streamKeyOf entry) (distinct (map streamKeyOf entries))) as Hin.
      { apply distinct_In. rewrite <- Ek. now apply in_map. }
      apply existsb_eqb_In in Hin. congruence.
Qed.

Lemma traverse_shape {A B C} (f : A -> result B) (g : A -> C) (h : B -> C) :
  (forall a b, f a = Ok b -> h b = g a) ->
  forall xs ys, traverse f xs = Ok ys -> map h ys = map g xs.
Proof.
  intros H. induction xs as [|x xs IH]; intros ys; cbn [traverse].
  - now intros [= <-].
  - destruct (f x) as [y|e] eqn:E; cbn [bind]; [|discriminate].
    destruct (traverse f xs) as [ys'|e]; cbn [bind]; [|discriminate].
    intros [= <-]. cbn [map]. now rewrite (H _ _ E), (IH ys').
Qed.


(** C8 as amended: for a valid timestamp less than 10^15 ms from the
    epoch, on either side, the text sent is the decimal representation of
    exactly the milliseconds times 1 000 000. *)
Theorem nanoseconds_exact_decimal (now : Date) (log : LogEntry.t) (ms : Z) :
  LogEntry.timestamp log = Some (DateMs ms) ->
  (- 10 ^ 15 < ms < 10 ^ 15)%Z ->
  nanosecondsOf now log = decimal_Z (ms * 1000000).
Proof.
  intros Ht Hms. unfold nanosecondsOf. rewrite Ht. cbn [getTime].
  now apply NumberProps.Number_toString_nanoseconds.
Qed.

Lemma nanoseconds_exact_decimal_witness :
  LogEntry.timestamp Demo.first = Some (DateMs 1700000000123)
  /\ (- 10 ^ 15 < 1700000000123 < 10 ^ 15)%Z
  /\ nanosecondsOf Demo.now Demo.first = decimal_Z (1700000000123 * 1000000).
Proof.
  split; [reflexivity|]. split; [split; reflexivity|].
  apply (nanoseconds_exact_decimal Demo.now Demo.first 1700000000123);
    [reflexivity|split; reflexivity].
Defined.

(** C8 as stated fails: a valid date 5 * 10^15 ms after the epoch is sent
    in exponent notation, and an invalid date as NaN. *)
Lemma nanoseconds_far_future :
  LogEntry.timestamp Demo.far_future = Some (DateMs 5000000000000000)
  /\ nanosecondsOf Demo.now Demo.far_future = "5e+21"
  /\ decimal_Z (5000000000000000 * 1000000) = "5000000000000000000000"
  /\ nanosecondsOf Demo.now Demo.far_future <> decimal_Z (5000000000000000 * 1000000)
  /\ nanosecondsOf Demo.now
       {| LogEntry.message := Str "x"; LogEntry.device_id := Str "d1";
          LogEntry.severity := sev INFO; LogEntry.timestamp := Some InvalidDate;
          LogEntry.labels := None |} = "NaN".
Proof.
  split; [reflexivity|]. split; [vm_compute; reflexivity|].
  split; [vm_compute; reflexivity|]. split; [vm_compute; discriminate|].
  reflexivity.
Qed.

(** The stream key is the text of the label object, which depends on the
    order of its keys: two hand-built entries with the same label pairs,
    the extra labels written in a different order, go to two streams.  (No
    caller of [pushLog] builds such entries.) *)
Example label_order_splits_streams :
  Permutation (labelsOf Demo.app_zone) (labelsOf Demo.zone_app)
  /\ List.length (streamMapOf [Demo.app_zone; Demo.zone_app]) = 2
  /\ map snd (streamMapOf [Demo.app_zone; Demo.zone_app])
     = [[Demo.app_zone]; [Demo.zone_app]].
Proof.
  split; [|split; reflexivity].
  cbn. repeat apply perm_skip. apply perm_swap.
Qed.

Section Host.

Variable JSON_parse : string -> result value.
Variable argumentLimit : nat.
Variable batchSize : option Z.

Local Abbreviation flushLogs_catch := (flushLogs_catch argumentLimit).
Local Abbreviation flushLogs_resume := (flushLogs_resume argumentLimit).
Local Abbreviation flushLogs := (flushLogs JSON_parse argumentLimit).
Local Abbreviation pushLog := (pushLog JSON_parse argumentLimit batchSize).
Local Abbreviation pushLogs := (pushLogs JSON_parse argumentLimit batchSize).
Local Abbreviation step := (step JSON_parse argumentLimit batchSize).
Local Abbreviation run := (run JSON_parse argumentLimit batchSize).
Local Abbreviation audit := (audit JSON_parse argumentLimit batchSize).
Local Abbreviation record := (record JSON_parse argumentLimit batchSize).
Local Abbreviation lost := (lost JSON_parse argumentLimit batchSize).
Local Abbreviation lost_by_flush := (lost_by_flush JSON_parse argumentLimit).
Local Abbreviation lost_by_pushLog := (lost_by_pushLog JSON_parse argumentLimit batchSize).
Local Abbreviation lost_by_pushLogs := (lost_by_pushLogs JSON_parse argumentLimit batchSize).
Local Abbreviation accepted := (accepted argumentLimit).
Local Abbreviation requeued := (requeued argumentLimit).
Local Abbreviation lost_by_settling := (lost_by_settling argumentLimit).

(** ** Grouping in a request *)


(** ** The catch block *)

Lemma spread_call_fits {A} (args : list A) :
  (List.length args <= argumentLimit)%nat -> spread_call argumentLimit args = Ok tt.
Proof.
  intros H. unfold spread_call.
  destruct (Nat.leb_spec (List.length args) argumentLimit); [reflexivity|lia].
Qed.

Lemma spread_call_exceeds {A} (args : list A) :
  (argumentLimit < List.length args)%nat ->
  spread_call argumentLimit args = Throw RangeError.
Proof.
  intros H. unfold spread_call.
  destruct (Nat.leb_spec (List.length args) argumentLimit); [lia|reflexivity].
Qed.

Lemma flushLogs_catch_requeue batch error s :
  (List.length (logBuffer s) < 1000)%nat ->
  (List.length batch <= argumentLimit)%nat ->
  flushLogs_catch batch error s =
    ({| logBuffer := batch ++ logBuffer s; lastFlush := lastFlush s;
        lastError := Some (errorMessageOf error);
        isShuttingDown := isShuttingDown s;
        logger := logger s ++ [ErrorFailedToSend (errorMessageOf error)] |}, Ok tt).
Proof.
  intros H F. unfold Loki.flushLogs_catch. cbn [log logBuffer].
  destruct (Nat.ltb_spec (List.length (logBuffer s)) 1000); [|lia].
  now rewrite (spread_call_fits batch F).
Qed.

Lemma flushLogs_catch_lost batch error s :
  (List.length (logBuffer s) < 1000)%nat ->
  (argumentLimit < List.length batch)%nat ->
  flushLogs_catch batch error s =
    ({| logBuffer := logBuffer s; lastFlush := lastFlush s;
        lastError := Some (errorMessageOf error);
        isShuttingDown := isShuttingDown s;
        logger := logger s ++ [ErrorFailedToSend (errorMessageOf error)] |},
     Throw RangeError).
Proof.
  intros H F. unfold Loki.flushLogs_catch. cbn [log logBuffer].
  destruct (Nat.ltb_spec (List.length (logBuffer s)) 1000); [|lia].
  now rewrite (spread_call_exceeds batch F).
Qed.

Lemma flushLogs_catch_drop batch error s :
  (1000 <= List.length (logBuffer s))%nat ->
  flushLogs_catch batch error s =
    ({| logBuffer := logBuffer s; lastFlush := lastFlush s;
        lastError := Some (errorMessageOf error);
        isShuttingDown := isShuttingDown s;
        logger := logger s ++ [ErrorFailedToSend (errorMessageOf error);
                               WarnBufferFull (List.length batch)] |}, Ok tt).
Proof.
  intros H. unfold Loki.flushLogs_catch. cbn [log logBuffer].
  destruct (Nat.ltb_spec (List.length (logBuffer s)) 1000); [lia|].
  unfold log. cbn. now rewrite <- app_assoc.
Qed.

(** The three ways out of the catch block. *)
Lemma flushLogs_catch_cases (batch : list LogEntry.t) (s : LokiService) :
  ((List.length (logBuffer s) < 1000)%nat /\ (List.length batch <= argumentLimit)%nat)
  \/ ((List.length (logBuffer s) < 1000)%nat /\ (argumentLimit < List.length batch)%nat)
  \/ (1000 <= List.length (logBuffer s))%nat.
Proof. lia. Qed.

Lemma flushLogs_catch_frame batch error s :
  lastError (fst (flushLogs_catch batch error s)) = Some (errorMessageOf error)
  /\ lastFlush (fst (flushLogs_catch batch error s)) = lastFlush s
  /\ isShuttingDown (fst (flushLogs_catch batch error s)) = isShuttingDown s.
Proof.
  destruct (flushLogs_catch_cases batch s) as [[H F]|[[H F]|H]].
  - now rewrite flushLogs_catch_requeue.
  - now rewrite flushLogs_catch_lost.
  - now rewrite flushLogs_catch_drop.
Qed.

(** ** What each call does to the sequence of pending entries *)

Lemma convertToLokiFormat_nil now : convertToLokiFormat JSON_parse [] now = Ok [].
Proof. reflexivity. Qed.

(** A flush hands the buffer to a delivery, keeps it, or loses it whole. *)
Lemma flushLogs_holds now s :
  lost_by_flush (logBuffer s) now
    ++ detached (snd (flushLogs now s)) ++ logBuffer (fst (flushLogs now s))
  = logBuffer s
  /\ isShuttingDown (fst (flushLogs now s)) = isShuttingDown s
  /\ (lost_by_flush (logBuffer s) now = []
      \/ (detached (snd (flushLogs now s)) = [] /\ logBuffer (fst (flushLogs now s)) = [])).
Proof.
  unfold Loki.flushLogs, Loki.lost_by_flush.
  destruct (logBuffer s) as [|e l] eqn:E; cbn [List.length Nat.eqb].
  - cbn. rewrite E. auto.
  - destruct (convertToLokiFormat JSON_parse (e :: l) now) as [req|err];
      cbn [fst snd detached settled].
    + cbn. rewrite app_nil_r. auto.
    + destruct (Nat.leb_spec (S (List.length l)) argumentLimit) as [F|F].
      * rewrite flushLogs_catch_requeue by (cbn in *; lia). cbn. rewrite app_nil_r. auto.
      * rewrite flushLogs_catch_lost by (cbn in *; lia). cbn. rewrite app_nil_r. auto.
Qed.

(** How a flush leaves the service, by the promise it returns. *)
Lemma flushLogs_outcomes now s :
  match snd (flushLogs now s) with
  | Awaiting d =>
      logBuffer s <> [] /\ logsToSend d = logBuffer s
      /\ fst (flushLogs now s) = set_logBuffer [] s
  | Fulfilled =>
      logBuffer (fst (flushLogs now s)) = logBuffer s
      /\ (List.length (logBuffer s) <= argumentLimit)%nat
      /\ isShuttingDown (fst (flushLogs now s)) = isShuttingDown s
      /\ (logBuffer s = [] -> fst (flushLogs now s) = s)
  | Rejected error =>
      (argumentLimit < List.length (logBuffer s))%nat
      /\ logBuffer (fst (flushLogs now s)) = []
      /\ isShuttingDown (fst (flushLogs now s)) = isShuttingDown s
      /\ error = RangeError
  end.
Proof.
  unfold Loki.flushLogs.
  destruct (logBuffer s) as [|e l] eqn:E; cbn [List.length Nat.eqb].
  - cbn. rewrite E. repeat split; auto. lia.
  - destruct (convertToLokiFormat JSON_parse (e :: l) now) as [req|err];
      cbn [fst snd settled].
    + repeat split. discriminate.
    + destruct (Nat.leb_spec (S (List.length l)) argumentLimit) as [F|F].
      * rewrite flushLogs_catch_requeue by (cbn in *; lia). cbn. rewrite app_nil_r.
        repeat split; auto. discriminate.
      * rewrite flushLogs_catch_lost by (cbn in *; lia). cbn. auto.
Qed.

Lemma pushLog_holds entry now s :
  lost_by_pushLog entry now s
    ++ detached (snd (pushLog entry now s)) ++ logBuffer (fst (pushLog entry now s))
  = logBuffer s ++ accepted (isShuttingDown s) (CallPushLog entry now)
  /\ isShuttingDown (fst (pushLog entry now s)) = isShuttingDown s
  /\ (lost_by_pushLog entry now s = []
      \/ (detached (snd (pushLog entry now s)) = []
          /\ logBuffer (fst (pushLog entry now s)) = [])).
Proof.
  unfold Loki.pushLog, Loki.lost_by_pushLog, Loki.accepted.
  destruct (isShuttingDown s) eqn:Sd; [cbn; rewrite app_nil_r; auto|].
  destruct (invalid entry); [cbn; rewrite app_nil_r; auto|].
  cbn [orb]. cbv zeta.
  set (s1 := set_logBuffer _ s).
  change (logBuffer s ++ [stamped now entry]) with (logBuffer s1).
  destruct (reaches _ batchSize).
  - destruct (flushLogs_holds now s1) as (H1 & H2 & H3). rewrite H2. auto.
  - cbn. auto.
Qed.

(** A buffer that stays within the argument limit is never lost. *)
Lemma lost_by_pushLog_fits entry now s :
  (List.length (logBuffer s) < argumentLimit)%nat ->
  lost_by_pushLog entry now s = [].
Proof.
  intros F. unfold Loki.lost_by_pushLog, Loki.lost_by_flush. cbv zeta.
  destruct (_ || _); [reflexivity|]. rewrite length_app. cbn [List.length].
  destruct (reaches _ _); [|reflexivity].
  destruct (convertToLokiFormat _ _ _); [reflexivity|].
  destruct (Nat.leb_spec (List.length (logBuffer s) + 1) argumentLimit);
    [reflexivity|lia].
Qed.

Lemma warn_invalid_keeps entries s :
  logBuffer (warn_invalid entries s) = logBuffer s
  /\ isShuttingDown (warn_invalid entries s) = isShuttingDown s
  /\ lastFlush (warn_invalid entries s) = lastFlush s
  /\ lastError (warn_invalid entries s) = lastError s.
Proof.
  unfold warn_invalid. generalize (filter invalid entries) as bad.
  intros bad. revert s.
  induction bad as [|b bad IH]; intros s; cbn [fold_left]; [auto|].
  destruct (IH (log (WarnInvalidEntry b) s)) as (-> & -> & -> & ->). auto.
Qed.

Lemma pushLogs_holds entries now s :
  lost_by_pushLogs entries now s
    ++ detached (snd (pushLogs entries now s)) ++ logBuffer (fst (pushLogs entries now s))
  = logBuffer s ++ accepted (isShuttingDown s) (CallPushLogs entries now)
  /\ isShuttingDown (fst (pushLogs entries now s)) = isShuttingDown s
  /\ (lost_by_pushLogs entries now s = []
      \/ (detached (snd (pushLogs entries now s)) = []
          /\ logBuffer (fst (pushLogs entries now s)) = [])).
Proof.
  unfold Loki.pushLogs, Loki.lost_by_pushLogs, Loki.accepted. cbv zeta.
  destruct (isShuttingDown s) eqn:Sd; [cbn; rewrite app_nil_r; auto|].
  destruct (warn_invalid_keeps entries s) as (Hb & Hs & _).
  cbn [orb]. unfold spread_call. rewrite length_map.
  destruct (List.length (filter (fun entry => negb (invalid entry)) entries)
            <=? argumentLimit)%nat; cbn [negb].
  - set (s1 := set_logBuffer _ _).
    assert (logBuffer s1 = logBuffer s ++
              map (stamped now) (filter (fun entry => negb (invalid entry)) entries)
            /\ isShuttingDown s1 = false) as [Hb1 Hs1].
    { subst s1. cbn. now rewrite Hb, Hs. }
    rewrite <- Hb1.
    destruct (reaches _ batchSize).
    + destruct (flushLogs_holds now s1) as (H1 & H2 & H3). rewrite H2, H1. auto.
    + cbn. auto.
  - cbn. rewrite app_nil_r, Hb, Hs. auto.
Qed.

(** C10: on an empty buffer [flushLogs], and so [forceFlush], returns at
    once: no delivery is started and the service (buffer, last flush time,
    last error, logger) is exactly as it was. *)
Theorem flushLogs_empty_is_noop (now : Date) (s : LokiService) :
  logBuffer s = [] ->
  flushLogs now s = (s, Fulfilled)
  /\ forceFlush JSON_parse argumentLimit now s = (s, Fulfilled).
Proof.
  intros E. unfold forceFlush, Loki.flushLogs. rewrite E. split; reflexivity.
Qed.

(** C1: when the delivery of a detached batch fails, the last error is
    the failure's description and the last flush time is not touched.  A
    live buffer of 1000 or more keeps none of the batch and a warning is
    logged.  A live buffer shorter than 1000 gets the whole batch back in
    front of what it holds, in batch order, as long as the batch is within
    the argument limit of the spread call that puts it back; a longer
    batch makes that call throw a RangeError: none of it is retained,
    nothing more is logged and [flushLogs] rejects. *)
Theorem flushLogs_failure_policy (d : delivery) (error : thrown) (now : Date)
    (s : LokiService) :
  let description := match error with
                     | ErrorObject message => message
                     | NonError => "Unknown error"%string
                     end in
  let r := flushLogs_resume d (Throw error) now s in
  lastError (fst r) = Some description
  /\ lastFlush (fst r) = lastFlush s
  /\ ((List.length (logBuffer s) < 1000)%nat ->
      (List.length (logsToSend d) <= argumentLimit)%nat ->
        logBuffer (fst r) = logsToSend d ++ logBuffer s
        /\ logger (fst r) = logger s ++ [ErrorFailedToSend description]
        /\ snd r = Ok tt)
  /\ ((List.length (logBuffer s) < 1000)%nat ->
      (argumentLimit < List.length (logsToSend d))%nat ->
        logBuffer (fst r) = logBuffer s
        /\ logger (fst r) = logger s ++ [ErrorFailedToSend description]
        /\ snd r = Throw (ErrorObject "Maximum call stack size exceeded"))
  /\ ((1000 <= List.length (logBuffer s))%nat ->
        logBuffer (fst r) = logBuffer s
        /\ logger (fst r) = logger s ++ [ErrorFailedToSend description;
                                         WarnBufferFull (List.length (logsToSend d))]
        /\ snd r = Ok tt).
Proof.
  cbv zeta. cbn [Loki.flushLogs_resume].
  change (match error with
          | ErrorObject message => message
          | NonError => "Unknown error"%string
          end) with (errorMessageOf error).
  destruct (flushLogs_catch_cases (logsToSend d) s) as [[H F]|[[H F]|H]].
  - rewrite (flushLogs_catch_requeue _ error s H F). cbn.
    repeat split; auto; intros; lia.
  - rewrite (flushLogs_catch_lost _ error s H F). cbn.
    repeat split; auto; intros; lia.
  - rewrite (flushLogs_catch_drop (logsToSend d) error s H). cbn.
    repeat split; auto; intros; lia.
Qed.

(** ** Runs of the event loop *)

Lemma run_cons ev evs w : run (ev :: evs) w = run evs (step ev w).
Proof. reflexivity. Qed.

Lemma run_app evs1 evs2 w : run (evs1 ++ evs2) w = run evs2 (run evs1 w).
Proof. unfold Loki.run. apply fold_left_app. Qed.

Lemma started_nothing w : started (service w, Fulfilled) w = w.
Proof. destruct w as [s fl]. unfold started. cbn. now rewrite app_nil_r. Qed.

Lemma accepted_tick sd now : accepted sd (TimerTick now) = [].
Proof. now destruct sd. Qed.

Lemma accepted_forceFlush sd now : accepted sd (CallForceFlush now) = [].
Proof. now destruct sd. Qed.

Lemma accepted_destroy sd now : accepted sd (ModuleDestroy now) = [].
Proof. now destruct sd. Qed.

(** Every event but a settlement is a call [r] whose outcome is added to
    the world, and what was pending or accepted is afterwards lost, in the
    delivery the call started, or in the live buffer. *)
Lemma step_call ev w :
  (forall i outcome now, ev <> Settled i outcome now) ->
  exists r,
    step ev w = started r w
    /\ lost ev w ++ detached (snd r) ++ logBuffer (fst r)
       = logBuffer (service w) ++ accepted (isShuttingDown (service w)) ev
    /\ (lost ev w = [] \/ (detached (snd r) = [] /\ logBuffer (fst r) = []))
    /\ (isShuttingDown (service w) = true -> isShuttingDown (fst r) = true)
    /\ (meanwhile ev = true -> isShuttingDown (fst r) = isShuttingDown (service w)).
Proof.
  intros NS. destruct ev as [entry now|entries now|now|now|now|i outcome now];
    cbn [Loki.step Loki.lost meanwhile].
  - eexists; split; [reflexivity|].
    destruct (pushLog_holds entry now (service w)) as (H1 & H2 & H3).
    rewrite H2. repeat split; auto; congruence.
  - eexists; split; [reflexivity|].
    destruct (pushLogs_holds entries now (service w)) as (H1 & H2 & H3).
    rewrite H2. repeat split; auto; congruence.
  - rewrite accepted_tick, app_nil_r.
    destruct (flushLogs_holds now (service w)) as (H1 & H2 & H3).
    destruct (isShuttingDown (service w)) eqn:Sd.
    + rewrite andb_false_r. exists (service w, Fulfilled).
      rewrite started_nothing. cbn. repeat split; auto; congruence.
    + rewrite andb_true_r. destruct (logBuffer (service w)) as [|e l] eqn:E.
      * cbn. exists (service w, Fulfilled). rewrite started_nothing. cbn.
        rewrite E. repeat split; auto; congruence.
      * cbn [List.length Nat.ltb Nat.leb]. rewrite <- E in *.
        eexists; split; [reflexivity|]. rewrite H2. repeat split; auto; congruence.
  - rewrite accepted_forceFlush, app_nil_r. unfold forceFlush.
    destruct (flushLogs_holds now (service w)) as (H1 & H2 & H3).
    eexists; split; [reflexivity|]. rewrite H2. repeat split; auto; congruence.
  - rewrite accepted_destroy, app_nil_r.
    set (s1 := {| logBuffer := logBuffer (service w); lastFlush := lastFlush (service w);
                  lastError := lastError (service w); isShuttingDown := true;
                  logger := logger (service w) |}).
    change (logBuffer (service w)) with (logBuffer s1).
    destruct (flushLogs_holds now s1) as (H1 & H2 & H3).
    destruct (0 <? List.length (logBuffer s1))%nat eqn:L.
    + eexists; split; [reflexivity|]. rewrite H2. repeat split; auto; discriminate.
    + exists (s1, Fulfilled). unfold started. cbn [fst snd service inflight detached].
      rewrite app_nil_r. apply Nat.ltb_ge in L.
      destruct (logBuffer s1) as [|e l] eqn:E; [|cbn in L; lia].
      repeat split; auto; discriminate.
  - now elim (NS i outcome now).
Qed.

Lemma remove_nth_middle {A} (l : list A) (x : A) (r : list A) :
  nth_error (l ++ x :: r) (List.length l) = Some x
  /\ remove_nth (List.length l) (l ++ x :: r) = l ++ r.
Proof.
  induction l as [|a l [IH1 IH2]]; cbn; [auto|]. now rewrite IH1, IH2.
Qed.

Lemma flushLogs_resume_buffer d outcome now s :
  logBuffer (fst (flushLogs_resume d outcome now s))
    = requeued d outcome (List.length (logBuffer s)) ++ logBuffer s.
Proof.
  destruct outcome as [u|error]; cbn [Loki.flushLogs_resume Loki.requeued];
    [reflexivity|].
  destruct (flushLogs_catch_cases (logsToSend d) s) as [[H F]|[[H F]|H]].
  - rewrite flushLogs_catch_requeue by assumption.
    apply Nat.ltb_lt in H as ->. apply Nat.leb_le in F as ->. reflexivity.
  - rewrite flushLogs_catch_lost by assumption.
    apply Nat.ltb_lt in H as ->. apply Nat.leb_gt in F as ->. reflexivity.
  - rewrite flushLogs_catch_drop by assumption.
    apply Nat.ltb_ge in H as ->. reflexivity.
Qed.

Lemma flushLogs_resume_frame d outcome now s :
  isShuttingDown (fst (flushLogs_resume d outcome now s)) = isShuttingDown s
  /\ lastError (fst (flushLogs_resume d outcome now s))
     = match outcome with
       | Ok _ => None
       | Throw error => Some (errorMessageOf error)
       end.
Proof.
  destruct outcome as [u|error]; cbn [Loki.flushLogs_resume]; [auto|].
  destruct (flushLogs_catch_frame (logsToSend d) error s) as (H1 & _ & H3). auto.
Qed.

Lemma flushLogs_started now s s1 d :
  flushLogs now s = (s1, Awaiting d) ->
  logBuffer s <> [] /\ logsToSend d = logBuffer s /\ s1 = set_logBuffer [] s.
Proof.
  unfold Loki.flushLogs.
  destruct (logBuffer s) as [|e l] eqn:E; cbn [List.length Nat.eqb]; [discriminate|].
  destruct (convertToLokiFormat JSON_parse (e :: l) now).
  - intros [= <- <-]. cbn. repeat split; discriminate || auto.
  - unfold settled. destruct (snd _); discriminate.
Qed.

(** ** The buffer invariant *)

Lemma stamped_populated now entry :
  invalid entry = false -> populated (stamped now entry) = true.
Proof.
  unfold invalid, populated. cbn. intros H.
  apply orb_false_iff in H as [H H3]. apply orb_false_iff in H as [H1 H2].
  apply negb_false_iff in H1, H2, H3. now rewrite H1, H2, H3.
Qed.

Lemma accepted_populated sd ev :
  Forall (fun e => populated e = true) (accepted sd ev).
Proof.
  unfold Loki.accepted. destruct sd; [constructor|].
  destruct ev; try constructor.
  - destruct (invalid entry) eqn:E; constructor; [|constructor].
    now apply stamped_populated.
  - cbv zeta. destruct (_ <=? _)%nat; [|constructor].
    apply Forall_forall. intros e He. apply in_map_iff in He as (e0 & <- & He0).
    apply filter_In in He0 as [_ Hv]. apply negb_true_iff in Hv.
    now apply stamped_populated.
Qed.

Lemma started_populated r w gone before :
  all_populated w ->
  gone ++ detached (snd r) ++ logBuffer (fst r) = logBuffer (service w) ++ before ->
  Forall (fun e => populated e = true) before ->
  all_populated (started r w).
Proof.
  intros [Hb Hi] Hh Hbefore.
  assert (Forall (fun e => populated e = true)
            (gone ++ detached (snd r) ++ logBuffer (fst r))) as Hall.
  { rewrite Hh. apply Forall_app. auto. }
  apply Forall_app in Hall as [_ Hall]. apply Forall_app in Hall as [Hd Hl].
  split; cbn [started service inflight]; [assumption|].
  apply Forall_app. split; [assumption|].
  destruct (snd r); constructor; auto.
Qed.

Lemma remove_nth_Forall {A} (P : A -> Prop) i (l : list A) :
  Forall P l -> Forall P (remove_nth i l).
Proof.
  intros H. revert i. induction H as [|x l Hx Hl IH]; intros [|i]; cbn; auto.
Qed.

Lemma step_populated ev w : all_populated w -> all_populated (step ev w).
Proof.
  intros Hw.
  destruct ev as [entry now|entries now|now|now|now|i outcome now].
  6:{ cbn [Loki.step].
      destruct (nth_error (inflight w) i) as [d|] eqn:E; [|assumption].
      destruct Hw as [Hb Hi]. split; cbn [service inflight].
      - rewrite flushLogs_resume_buffer. apply Forall_app. split; [|assumption].
        unfold Loki.requeued. destruct outcome; [constructor|].
        destruct (_ && _); [|constructor].
        apply nth_error_In in E. rewrite Forall_forall in Hi. now apply Hi.
      - now apply remove_nth_Forall. }
  all: match goal with
       | |- all_populated (Loki.step _ _ _ ?ev ?w0) =>
           destruct (step_call ev w0) as (r & -> & H & _); [discriminate|];
           apply (started_populated r w0 _ _ Hw H); apply accepted_populated
       end.
Qed.

Lemma run_populated evs : forall w, all_populated w -> all_populated (run evs w).
Proof.
  induction evs as [|ev evs IH]; intros w Hw; [assumption|].
  rewrite run_cons. apply IH. now apply step_populated.
Qed.

(** C9: [pushLog] and [pushLogs] let an entry into the buffer only if its
    message, device_id and severity are all truthy, and they stamp it with
    the current time when it has no timestamp.  A rejected entry leaves
    the buffer as it was and starts nothing.  What a call had in the buffer
    and what it let in are afterwards, in order, in the batch it lost, in
    the delivery it started, or in the buffer; [pushLogs] lets in its
    valid entries, or none of them when they are more than its spread call
    can pass.  Hence, however the service is driven from its initial state,
    every entry in the buffer and in every batch in flight has the three
    fields populated and a timestamp. *)
Theorem buffer_holds_only_populated_entries :
  (forall entry now s,
      invalid entry = true ->
      snd (pushLog entry now s) = Fulfilled
      /\ logBuffer (fst (pushLog entry now s)) = logBuffer s)
  /\ (forall entry now s,
        lost_by_pushLog entry now s
          ++ detached (snd (pushLog entry now s)) ++ logBuffer (fst (pushLog entry now s))
        = logBuffer s ++
          (if isShuttingDown s || invalid entry then [] else [stamped now entry]))
  /\ (forall entries now s,
        let valid := filter (fun e => negb (invalid e)) entries in
        lost_by_pushLogs entries now s
          ++ detached (snd (pushLogs entries now s))
          ++ logBuffer (fst (pushLogs entries now s))
        = logBuffer s ++
          (if isShuttingDown s then []
           else if (List.length valid <=? argumentLimit)%nat
                then map (stamped now) valid
                else []))
  /\ (forall entries now s,
        (argumentLimit < List.length (filter (fun e => negb (invalid e)) entries))%nat ->
        isShuttingDown s = false ->
        snd (pushLogs entries now s) = Rejected (ErrorObject "Maximum call stack size exceeded")
        /\ logBuffer (fst (pushLogs entries now s)) = logBuffer s)
  /\ (forall entry now,
        LogEntry.timestamp (stamped now entry)
        = Some match LogEntry.timestamp entry with Some t => t | None => now end)
  /\ (forall entry now, invalid entry = false -> populated (stamped now entry) = true)
  /\ (forall e, populated e = true ->
        truthy (LogEntry.message e) = true
        /\ truthy (LogEntry.device_id e) = true
        /\ truthy (LogEntry.severity e) = true
        /\ LogEntry.timestamp e <> None)
  /\ (forall evs, all_populated (run evs boot)).
Proof.
  split; [|split; [|split; [|split; [|split; [reflexivity|split; [|split]]]]]].
  - intros entry now s H. unfold Loki.pushLog. rewrite H.
    destruct (isShuttingDown s); auto.
  - intros entry now s. rewrite (proj1 (pushLog_holds entry now s)).
    unfold Loki.accepted. destruct (isShuttingDown s), (invalid entry); reflexivity.
  - intros entries now s. cbv zeta. rewrite (proj1 (pushLogs_holds entries now s)).
    reflexivity.
  - intros entries now s F Sd. unfold Loki.pushLogs. rewrite Sd. cbv zeta.
    rewrite spread_call_exceeds by (now rewrite length_map).
    cbn. split; [reflexivity|apply warn_invalid_keeps].
  - intros entry now. apply stamped_populated.
  - intros e H. unfold populated in H.
    apply andb_prop in H as [H H4]. apply andb_prop in H as [H H3].
    apply andb_prop in H as [H1 H2]. repeat split; try assumption.
    destruct (LogEntry.timestamp e); [discriminate|discriminate].
  - intros evs. apply run_populated. split; constructor.
Qed.

(** ** Nothing is lost silently *)

Lemma pull2 {A} (x y b rest : list A) :
  Permutation (x ++ y ++ b ++ rest) (b ++ x ++ y ++ rest).
Proof.
  rewrite (app_assoc x y (b ++ rest)), (app_assoc x y rest).
  apply Permutation_app_swap_app.
Qed.

Lemma pull3 {A} (x y z b rest : list A) :
  Permutation (x ++ y ++ z ++ b ++ rest) (b ++ x ++ y ++ z ++ rest).
Proof.
  rewrite (app_assoc y z (b ++ rest)), (app_assoc y z rest). apply pull2.
Qed.

Lemma audit_run evs : forall w l, fst (audit evs w l) = run evs w.
Proof. induction evs as [|ev evs IH]; intros w l; [reflexivity|apply IH]. Qed.

Lemma started_balanced r w l acc gone :
  balanced w l ->
  gone ++ detached (snd r) ++ logBuffer (fst r) = logBuffer (service w) ++ acc ->
  balanced (started r w)
           {| taken := taken l ++ acc; delivered := delivered l; dropped := dropped l;
              forfeited := forfeited l ++ gone |}.
Proof.
  unfold balanced, pending.
  cbn [taken delivered dropped forfeited started service inflight].
  intros B H.
  assert (List.concat (map logsToSend
              (inflight w ++ match snd r with Awaiting d => [d] | _ => [] end))
          = List.concat (map logsToSend (inflight w)) ++ detached (snd r)) as ->.
  { rewrite map_app, concat_app. destruct (snd r); cbn; now rewrite ?app_nil_r. }
  symmetry.
  transitivity (delivered l ++ dropped l ++ forfeited l
                ++ List.concat (map logsToSend (inflight w))
                ++ gone ++ detached (snd r) ++ logBuffer (fst r)).
  - rewrite <- !app_assoc. do 3 apply Permutation_app_head.
    apply Permutation_app_swap_app.
  - rewrite H, !app_assoc. apply Permutation_app_tail.
    rewrite <- !app_assoc. symmetry. exact B.
Qed.

Lemma step_balanced ev w l : balanced w l -> balanced (step ev w) (record ev w l).
Proof.
  intros B.
  destruct ev as [entry now|entries now|now|now|now|i outcome now].
  6:{ cbn [Loki.step Loki.record Loki.lost].
      destruct (nth_error (inflight w) i) as [d|] eqn:E; [|assumption].
      destruct (nth_error_split _ _ E) as (l1 & l2 & Hin & Hlen). subst i.
      unfold balanced, pending in *. cbn [service inflight].
      rewrite Hin in *. rewrite (proj2 (remove_nth_middle l1 d l2)).
      rewrite flushLogs_resume_buffer.
      rewrite !map_app, !concat_app in *. cbn [map List.concat] in B.
      set (F1 := List.concat (map logsToSend l1)) in *.
      set (F2 := List.concat (map logsToSend l2)) in *.
      set (b := logsToSend d) in *. set (live := logBuffer (service w)) in *.
      rewrite <- ?app_assoc in B.
      destruct outcome as [u|error]; cbn [Loki.requeued Loki.lost_by_settling];
        fold b; fold live.
      - cbn [taken delivered dropped forfeited app]. rewrite <- ?app_assoc.
        etransitivity; [exact B|]. apply Permutation_app_head. apply pull3.
      - destruct (List.length live <? 1000)%nat; cbn [andb].
        + destruct (List.length b <=? argumentLimit)%nat; cbn [negb];
            cbn [taken delivered dropped forfeited app];
            rewrite ?app_nil_r, <- ?app_assoc.
          * etransitivity; [exact B|].
            do 4 apply Permutation_app_head. apply Permutation_app_swap_app.
          * etransitivity; [exact B|].
            do 3 apply Permutation_app_head. apply Permutation_app_swap_app.
        + cbn [taken delivered dropped forfeited app]. rewrite <- ?app_assoc.
          etransitivity; [exact B|].
          do 2 apply Permutation_app_head. apply pull2. }
  all: match goal with
       | |- balanced (Loki.step _ _ _ ?ev ?w0) _ =>
           destruct (step_call ev w0) as (r & -> & H & _); [discriminate|];
           exact (started_balanced r w0 l _ _ B H)
       end.
Qed.

(** Every entry the service let in is, at any moment, in exactly one
    place: acknowledged by the sink, dropped by the overflow policy, lost
    with a batch that could not be put back, in a batch in flight, or in
    the live buffer. *)
Theorem accepted_entries_are_accounted_for (evs : list event) :
  let final := audit evs boot
                 {| taken := []; delivered := []; dropped := []; forfeited := [] |} in
  fst final = run evs boot
  /\ Permutation (taken (snd final))
                 (delivered (snd final) ++ dropped (snd final) ++ forfeited (snd final)
                  ++ pending (fst final)).
Proof.
  cbv zeta. split; [apply audit_run|].
  assert (forall w l, balanced w l ->
            balanced (fst (audit evs w l)) (snd (audit evs w l))) as K.
  { induction evs as [|ev evs IH]; intros w l B; [assumption|].
    cbn [Loki.audit]. apply IH. now apply step_balanced. }
  apply (K boot). constructor.
Qed.

End Host.

(** ** While a delivery is in flight *)

Section ReadsBack.

Variable JSON_parse : string -> result value.
Variable argumentLimit : nat.
Variable batchSize : option Z.

(** The parser reads back every text that [JSON.stringify] writes for an
    object. *)
Hypothesis reads_back :
  forall props, exists labels, JSON_parse (stringify_object props) = Ok labels.

Local Abbreviation flushLogs := (flushLogs JSON_parse argumentLimit).
Local Abbreviation step := (step JSON_parse argumentLimit batchSize).
Local Abbreviation run := (run JSON_parse argumentLimit batchSize).
Local Abbreviation lost := (lost JSON_parse argumentLimit batchSize).
Local Abbreviation accepted := (accepted argumentLimit).
Local Abbreviation requeued := (requeued argumentLimit).

Lemma traverse_total {A B} (f : A -> result B) (xs : list A) :
  (forall x, In x xs -> exists y, f x = Ok y) ->
  exists ys, traverse f xs = Ok ys.
Proof.
  induction xs as [|x xs IH]; intros H.
  - now exists [].
  - destruct (H x (or_introl eq_refl)) as [y Hy].
    destruct IH as [ys Hys]; [intros; apply H; now right|].
    exists (y :: ys). cbn. now rewrite Hy, Hys.
Qed.

(** Then every request can be built. *)
Lemma convertToLokiFormat_total entries now :
  exists lokiRequest, convertToLokiFormat JSON_parse entries now = Ok lokiRequest.
Proof.
  unfold convertToLokiFormat. apply traverse_total.
  intros [k logs] Hin. rewrite streamMapOf_grouped in Hin.
  unfold grouped in Hin. apply in_map_iff in Hin as (k' & Hk & Hin).
  injection Hk as -> _.
  apply distinct_In, in_map_iff in Hin as (e & <- & _).
  cbn [fst snd]. unfold streamKeyOf.
  destruct (reads_back (labelsOf e)) as [labels ->]. cbn. eauto.
Qed.

Lemma lost_by_flush_none buffer now :
  lost_by_flush JSON_parse argumentLimit buffer now = [].
Proof.
  unfold lost_by_flush. now destruct (convertToLokiFormat_total buffer now) as [r ->].
Qed.

(** Only a failed delivery can lose entries. *)
Lemma lost_by_call_none ev w :
  (forall i outcome now, ev <> Settled i outcome now) -> lost ev w = [].
Proof.
  intros NS. destruct ev as [entry now|entries now|now|now|now|i outcome now];
    cbn [Loki.lost].
  - unfold lost_by_pushLog. cbv zeta. rewrite lost_by_flush_none.
    repeat match goal with |- context [if ?c then _ else _] => destruct c end;
      reflexivity.
  - unfold lost_by_pushLogs. cbv zeta. rewrite lost_by_flush_none.
    repeat match goal with |- context [if ?c then _ else _] => destruct c end;
      reflexivity.
  - rewrite lost_by_flush_none. now destruct (isShuttingDown _).
  - apply lost_by_flush_none.
  - apply lost_by_flush_none.
  - now elim (NS i outcome now).
Qed.

(** While nothing settles, the deliveries already in flight stay as they
    are, and the entries accepted are, in order, in the batches detached
    since and then in the live buffer. *)
Lemma meanwhile_window evs : forall w,
  forallb meanwhile evs = true ->
  exists later,
    inflight (run evs w) = inflight w ++ later
    /\ List.concat (map logsToSend later) ++ logBuffer (service (run evs w))
        = logBuffer (service w)
          ++ flat_map (accepted (isShuttingDown (service w))) evs
    /\ isShuttingDown (service (run evs w)) = isShuttingDown (service w).
Proof.
  induction evs as [|ev evs IH]; intros w Hev.
  - exists []. cbn. now rewrite !app_nil_r.
  - cbn [forallb] in Hev. apply andb_true_iff in Hev as [Hi Hev].
    rewrite run_cons.
    destruct (step_call JSON_parse argumentLimit batchSize ev w)
      as (r & Hst & Hh & _ & _ & Hs).
    { intros i outcome now ->. discriminate. }
    specialize (Hs Hi).
    rewrite lost_by_call_none in Hh by (intros i outcome now ->; discriminate).
    cbn [app] in Hh.
    destruct (IH (step ev w) Hev) as (later & Hin & Hb & Hsd).
    rewrite Hst in *. cbn [started service inflight] in *.
    exists (match snd r with Awaiting d => [d] | _ => [] end ++ later).
    rewrite Hin, Hsd, Hs, app_assoc. split; [reflexivity|]. split; [|reflexivity].
    rewrite map_app, concat_app, <- app_assoc, Hb, Hs.
    cbn [flat_map]. rewrite !app_assoc. f_equal. rewrite <- Hh.
    destruct (snd r); cbn; now rewrite ?app_nil_r.
Qed.

(** C2: a flush that starts a delivery has detached the whole buffer as
    the batch and left the live buffer empty before the request goes out.
    Whatever is pushed while that delivery is awaited (timer ticks and
    forced flushes may come in between), the delivery stays in flight with
    the same batch; the entries let in meanwhile are, in order and once
    each, in the batches detached since and then in the live buffer; when
    the delivery settles, however it settles, they are still in the live
    buffer, behind the batch if the failure policy put it back; and the
    next flush to start a delivery takes that buffer whole as its batch. *)
Theorem flush_detaches_before_delivery (w : World) (now : Date)
    (s1 : LokiService) (d : delivery) :
  flushLogs now (service w) = (s1, Awaiting d) ->
  logsToSend d = logBuffer (service w)
  /\ logBuffer s1 = []
  /\ forall evs, forallb meanwhile evs = true ->
     let w2 := run evs (started (s1, Awaiting d) w) in
     exists later,
       inflight w2 = inflight w ++ d :: later
       /\ List.concat (map logsToSend later) ++ logBuffer (service w2)
          = flat_map (accepted (isShuttingDown (service w))) evs
       /\ forall outcome now',
          let w3 := step (Settled (List.length (inflight w)) outcome now') w2 in
          let back := requeued d outcome (List.length (logBuffer (service w2))) in
          inflight w3 = inflight w ++ later
          /\ logBuffer (service w3) = back ++ logBuffer (service w2)
          /\ (back = [] \/ back = logsToSend d)
          /\ forall now'' s4 d',
               flushLogs now'' (service w3) = (s4, Awaiting d') ->
               logsToSend d' = back ++ logBuffer (service w2)
               /\ logBuffer s4 = [].
Proof.
  intros Hf.
  destruct (flushLogs_started JSON_parse argumentLimit now _ _ _ Hf) as (_ & Hd & ->).
  split; [assumption|]. split; [reflexivity|].
  intros evs Hev w2.
  destruct (meanwhile_window evs
              (started (set_logBuffer [] (service w), Awaiting d) w) Hev)
    as (later & Hin & Hb & Hs).
  fold w2 in Hin, Hb, Hs. cbn in Hin, Hb, Hs.
  exists later. rewrite <- app_assoc in Hin. cbn in Hin.
  split; [assumption|]. split; [assumption|].
  intros outcome now' w3 back.
  destruct (remove_nth_middle (inflight w) d later) as [Hn Hr].
  assert (w3 = {| service := fst (flushLogs_resume argumentLimit d outcome now'
                                    (service w2));
                  inflight := inflight w ++ later |}) as ->.
  { subst w3. cbn [Loki.step]. now rewrite Hin, Hn, Hr. }
  cbn [service inflight]. split; [reflexivity|].
  split; [apply flushLogs_resume_buffer|]. split.
  - subst back. unfold Loki.requeued. destruct outcome; [now left|].
    destruct (_ && _); auto.
  - intros now'' s4 d' Hf'.
    destruct (flushLogs_started JSON_parse argumentLimit now'' _ _ _ Hf')
      as (_ & Hd' & ->).
    rewrite Hd'. split; [apply flushLogs_resume_buffer|reflexivity].
Qed.

End ReadsBack.

Lemma flushLogs_empty_is_noop_witness :
  logBuffer initial = []
  /\ flushLogs Demo.parse_labels Demo.arguments Demo.now initial = (initial, Fulfilled)
  /\ forceFlush Demo.parse_labels Demo.arguments Demo.now initial = (initial, Fulfilled).
Proof.
  split; [reflexivity|].
  apply (flushLogs_empty_is_noop Demo.parse_labels Demo.arguments Demo.now initial).
  reflexivity.
Defined.

(** A batch of two is in flight when a third entry is pushed: the third
    waits in the live buffer, and is behind the two when their delivery
    fails and they are put back. *)
Lemma flush_detaches_before_delivery_witness :
  (forall props, exists labels,
      Sample.reads_everything (stringify_object props) = Ok labels)
  /\ exists d,
       flushLogs Sample.reads_everything Demo.arguments Demo.now
         (Demo.holding [Demo.first; Demo.second])
       = (Demo.holding [], Awaiting d)
       /\ logsToSend d = [Demo.first; Demo.second]
       /\ forallb meanwhile [CallPushLog Demo.third Demo.now] = true
       /\ exists later,
            inflight (run Sample.reads_everything Demo.arguments (Some 3%Z)
                        [CallPushLog Demo.third Demo.now]
                        (started (Demo.holding [], Awaiting d) Sample.two_pending))
            = d :: later
            /\ List.concat (map logsToSend later)
               ++ logBuffer (service
                    (run Sample.reads_everything Demo.arguments (Some 3%Z)
                       [CallPushLog Demo.third Demo.now]
                       (started (Demo.holding [], Awaiting d) Sample.two_pending)))
               = [Demo.third]
            /\ logBuffer (service
                 (step Sample.reads_everything Demo.arguments (Some 3%Z)
                    (Settled 0 (Throw NonError) Demo.now)
                    (run Sample.reads_everything Demo.arguments (Some 3%Z)
                       [CallPushLog Demo.third Demo.now]
                       (started (Demo.holding [], Awaiting d) Sample.two_pending))))
               = [Demo.first; Demo.second; Demo.third].
Proof.
  assert (R : forall props, exists labels,
                Sample.reads_everything (stringify_object props) = Ok labels)
    by (intros props; eexists; reflexivity).
  split; [exact R|].
  eexists. split; [vm_compute; reflexivity|].
  match goal with
  | |- logsToSend ?d = _ /\ _ =>
      destruct (flush_detaches_before_delivery Sample.reads_everything Demo.arguments
                  (Some 3%Z) R Sample.two_pending Demo.now (Demo.holding []) d)
        as (H1 & _ & H3); [vm_compute; reflexivity|]
  end.
  split; [exact H1|]. split; [reflexivity|].
  destruct (H3 [CallPushLog Demo.third Demo.now] eq_refl) as (later & I1 & I2 & I3).
  exists later. split; [exact I1|]. split; [exact I2|].
  destruct (I3 (Throw NonError) Demo.now) as (_ & J2 & _).
  etransitivity; [exact J2|]. vm_compute. reflexivity.
Defined.

(** A message on the topic /logs has the empty string as its device
    identity: it is normalized, and rejected at [pushLog]. *)
Example empty_device_is_rejected :
  Pipeline.handleMessage Demo.utf8 (Demo.parse_known []) Demo.no_date Demo.arguments
    (Some 3%Z) "/logs" (list_byte_of_string "hello") Demo.now initial
  = (log (WarnInvalidEntry
            {| LogEntry.message := Str "hello"; LogEntry.device_id := Str "";
               LogEntry.severity := sev INFO; LogEntry.timestamp := Some Demo.now;
               LogEntry.labels :=
                 Some [("severity", sev INFO); ("device_id", Str "");
                       ("source", Str "smtrack-logging")] |}) initial, Fulfilled).
Proof. vm_compute. reflexivity. Qed.

(** Scenario 3 of the specification: with a size threshold of 3 the third
    append starts the flush; when the delivery fails all three entries are
    back at the head of the live buffer, ahead of what was appended
    meanwhile. *)
Example scenario_requeue :
  let late := Demo.entry "late" 1700000000300 Demo.plain_labels in
  let w := run Demo.parse_labels Demo.arguments (Some 3%Z)
             [ CallPushLog Demo.first Demo.now;
               CallPushLog Demo.second Demo.now;
               CallPushLog Demo.third Demo.now;
               CallPushLog late Demo.now ] boot in
  map logsToSend (inflight w) = [[Demo.first; Demo.second; Demo.third]]
  /\ logBuffer (service w) = [late]
  /\ logBuffer (service (step Demo.parse_labels Demo.arguments (Some 3%Z)
                           (Settled 0 (Throw (ErrorObject "timeout of 10000ms exceeded"))
                                    Demo.now) w))
     = [Demo.first; Demo.second; Demo.third; late]
  /\ lastError (service (step Demo.parse_labels Demo.arguments (Some 3%Z)
                           (Settled 0 (Throw (ErrorObject "timeout of 10000ms exceeded"))
                                    Demo.now) w))
     = Some "timeout of 10000ms exceeded".
Proof. vm_compute. repeat split. Qed.

(** The failing input of C1: the delivery of a batch of 150000 entries
    fails while one entry waits in the live buffer.  The spread call that
    is to put the batch back throws: the live buffer is as it was, the
    150000 entries are gone, and [flushLogs] rejects with the RangeError. *)
Example oversized_batch_is_lost :
  let r := flushLogs_resume Demo.arguments
             {| logsToSend := repeat Demo.first 150000; request := [] |}
             (Throw (ErrorObject "timeout of 10000ms exceeded")) Demo.now
             (Demo.holding [Demo.third]) in
  logBuffer (fst r) = [Demo.third]
  /\ lastError (fst r) = Some "timeout of 10000ms exceeded"
  /\ snd r = Throw (ErrorObject "Maximum call stack size exceeded").
Proof.
  cbv zeta. cbn [flushLogs_resume logsToSend].
  rewrite flushLogs_catch_lost.
  - repeat split.
  - cbn. lia.
  - rewrite repeat_length. apply Nat.ltb_lt. vm_compute. reflexivity.
Qed.

(** Scenario 4: two entries with identical label sets share one stream,
    their value pairs in append order. *)
Example scenario_one_stream :
  exists labels,
    convertToLokiFormat Demo.parse_labels [Demo.first; Demo.second] Demo.now
    = Ok [ {| stream := labels;
              values := [ ("1700000000123000000", Str "first");
                          ("1700000000124000000", Str "second") ] |} ].
Proof. eexists. vm_compute. reflexivity. Qed.

End LokiProps.

(* ================================================================== *)
(** * Delivery, shutdown and health                                   *)
(* ================================================================== *)

Module DeliveryProps.
Import Js Loki LokiDelivery.
Local Open Scope string_scope.
Local Open Scope list_scope.

Lemma streamMap_push_carries key entry m :
  Permutation (List.concat (map snd (streamMap_push key entry m)))
              (List.concat (map snd m) ++ [entry]).
Proof.
  induction m as [|[k logs] rest IH]; cbn [streamMap_push].
  - reflexivity.
  - destruct (String.eqb key k); cbn [map snd List.concat].
    + rewrite <- !app_assoc. apply Permutation_app_head.
      apply Permutation_app_comm.
    + rewrite <- app_assoc. now apply Permutation_app_head.
Qed.

Lemma streamMapOf_carries entries :
  Permutation (List.concat (map snd (streamMapOf entries))) entries.
Proof.
  induction entries as [|entry entries IH] using rev_ind.
  - reflexivity.
  - rewrite LokiProps.streamMapOf_snoc.
    etransitivity; [apply streamMap_push_carries|].
    now apply Permutation_app_tail.
Qed.

Section Host.

Variable JSON_parse : string -> result value.
Variable argumentLimit : nat.
Variable batchSize : option Z.

Local Abbreviation flushLogs := (flushLogs JSON_parse argumentLimit).
Local Abbreviation pushLog := (pushLog JSON_parse argumentLimit batchSize).
Local Abbreviation step := (step JSON_parse argumentLimit batchSize).
Local Abbreviation run := (run JSON_parse argumentLimit batchSize).
Local Abbreviation audit := (audit JSON_parse argumentLimit batchSize).
Local Abbreviation record := (record JSON_parse argumentLimit batchSize).
Local Abbreviation lost := (lost JSON_parse argumentLimit batchSize).
Local Abbreviation accepted := (accepted argumentLimit).
Local Abbreviation requeued := (requeued argumentLimit).

(** *** Rounds of failure *)

(** After a flush of the buffer [B] with nothing else in flight: the batch
    is out, or back in the buffer, or lost. *)
Lemma flushLogs_round now s w :
  inflight w = [] ->
  let w' := started (flushLogs now s) w in
  isShuttingDown (service w') = isShuttingDown s
  /\ ((exists d, inflight w' = [d] /\ logsToSend d = logBuffer s
                 /\ logBuffer (service w') = [])
      \/ (inflight w' = [] /\ logBuffer (service w') = logBuffer s
          /\ (List.length (logBuffer s) <= argumentLimit)%nat)
      \/ (inflight w' = [] /\ logBuffer (service w') = []
          /\ (argumentLimit < List.length (logBuffer s))%nat)).
Proof.
  intros Hin. cbv zeta. unfold started. cbn [service inflight]. rewrite Hin.
  pose proof (LokiProps.flushLogs_outcomes JSON_parse argumentLimit now s) as O.
  destruct (snd (flushLogs now s)) as [d| |error]; cbn [app].
  - destruct O as (_ & Hd & ->). split; [reflexivity|]. left. exists d. auto.
  - destruct O as (Hb & F & Hs & _). split; [exact Hs|]. right. left. auto.
  - destruct O as (F & Hb & Hs & _). split; [exact Hs|]. right. right. auto.
Qed.

(** One round from a quiet state: the entry is appended if the buffer then
    still fits a spread call, and otherwise everything is lost. *)
Lemma failing_round_effect entry error now w :
  invalid entry = false ->
  inflight w = [] ->
  isShuttingDown (service w) = false ->
  let w' := run (failing_round entry error now) w in
  let B := logBuffer (service w) ++ [stamped now entry] in
  logBuffer (service w')
    = (if (List.length B <=? argumentLimit)%nat then B else [])
  /\ inflight w' = []
  /\ isShuttingDown (service w') = false.
Proof.
  intros Hv Hin Hsd. unfold failing_round. cbv zeta.
  rewrite !LokiProps.run_cons. cbn [Loki.run fold_left].
  set (B := logBuffer (service w) ++ [stamped now entry]).
  (* the push *)
  set (w1 := step (CallPushLog entry now) w).
  assert (H1 : isShuttingDown (service w1) = false
               /\ ((exists d, inflight w1 = [d] /\ logsToSend d = B
                              /\ logBuffer (service w1) = [])
                   \/ (inflight w1 = [] /\ logBuffer (service w1) = B)
                   \/ (inflight w1 = [] /\ logBuffer (service w1) = []
                       /\ (argumentLimit < List.length B)%nat))).
  { subst w1. cbn [Loki.step]. unfold Loki.pushLog. rewrite Hsd, Hv.
    set (s1 := set_logBuffer _ (service w)).
    destruct (reaches _ batchSize).
    - destruct (flushLogs_round now s1 w Hin) as [Hs H]. cbv zeta in H, Hs.
      split; [rewrite Hs; exact Hsd|]. destruct H as [H|[(H & H' & _)|H]]; auto.
    - unfold started; cbn [fst snd service inflight]. rewrite Hin.
      split; [assumption|]. right. left. auto. }
  destruct H1 as [Hsd1 H1]. clearbody w1.
  (* the forced flush *)
  set (w2 := step (CallForceFlush now) w1).
  assert (H2 : isShuttingDown (service w2) = false
               /\ ((exists d, inflight w2 = [d] /\ logsToSend d = B
                              /\ logBuffer (service w2) = [])
                   \/ (inflight w2 = [] /\ logBuffer (service w2) = B
                       /\ (List.length B <= argumentLimit)%nat)
                   \/ (inflight w2 = [] /\ logBuffer (service w2) = []
                       /\ (argumentLimit < List.length B)%nat))).
  { subst w2. cbn [Loki.step]. unfold forceFlush.
    destruct H1 as [(d & Hi & Hd & Hb)|[(Hi & Hb)|(Hi & Hb & F)]].
    - pose proof (LokiProps.flushLogs_outcomes JSON_parse argumentLimit now (service w1))
        as O.
      rewrite Hb in O.
      destruct (snd (flushLogs now (service w1))) as [d'| |e'] eqn:P.
      + destruct O as (O & _). now elim O.
      + destruct O as (_ & _ & Hs & Hsame). specialize (Hsame eq_refl).
        unfold started. rewrite P, Hsame, app_nil_r. cbn [fst service inflight].
        split; [assumption|]. left. exists d. auto.
      + destruct O as (O & _). cbn in O. lia.
    - destruct (flushLogs_round now (service w1) w1 Hi) as [Hs H].
      cbv zeta in H, Hs. rewrite Hb in H. rewrite Hs. split; [exact Hsd1|]. exact H.
    - pose proof (LokiProps.flushLogs_outcomes JSON_parse argumentLimit now (service w1))
        as O.
      rewrite Hb in O.
      destruct (snd (flushLogs now (service w1))) as [d'| |e'] eqn:P.
      + destruct O as (O & _). now elim O.
      + destruct O as (_ & _ & Hs & Hsame). specialize (Hsame eq_refl).
        unfold started. rewrite P, Hsame, app_nil_r. cbn [fst service inflight].
        split; [assumption|]. right. right. auto.
      + destruct O as (O & _). cbn in O. lia. }
  destruct H2 as [Hsd2 H2]. clearbody w2.
  (* the failure *)
  cbn [Loki.step].
  destruct H2 as [(d & Hi & Hd & Hb)|[(Hi & Hb & F)|(Hi & Hb & F)]];
    rewrite Hi; cbn [nth_error].
  - cbn [service inflight remove_nth Loki.flushLogs_resume].
    destruct (Nat.leb_spec (List.length B) argumentLimit) as [F|F].
    + rewrite LokiProps.flushLogs_catch_requeue by (rewrite ?Hb, ?Hd; cbn; lia).
      cbn. rewrite Hb, Hd, app_nil_r. auto.
    + rewrite LokiProps.flushLogs_catch_lost by (rewrite ?Hb, ?Hd; cbn; lia).
      cbn. rewrite Hb. auto.
  - apply Nat.leb_le in F as ->. auto.
  - apply Nat.leb_gt in F as ->. auto.
Qed.

Lemma failing_rounds_effect entry error now :
  invalid entry = false ->
  forall n k w,
    inflight w = [] ->
    isShuttingDown (service w) = false ->
    logBuffer (service w) = repeat (stamped now entry) k ->
    (k <= argumentLimit)%nat ->
    let w' := run (failing_rounds entry error now n) w in
    inflight w' = []
    /\ ((k + n <= argumentLimit)%nat ->
        logBuffer (service w') = repeat (stamped now entry) (k + n))
    /\ ((k + n = S argumentLimit)%nat -> logBuffer (service w') = []).
Proof.
  intros Hv. unfold failing_rounds.
  induction n as [|n IH]; intros k w Hin Hsd Hb Hk; cbv zeta.
  - cbn. rewrite Nat.add_0_r. repeat split; auto. lia.
  - cbn [repeat List.concat]. rewrite LokiProps.run_app.
    destruct (failing_round_effect entry error now w Hv Hin Hsd) as (Eb & Ei & Es).
    cbv zeta in Eb. rewrite Hb, <- repeat_cons in Eb.
    cbn [List.length] in Eb. rewrite repeat_length in Eb.
    change (stamped now entry :: repeat (stamped now entry) k)
      with (repeat (stamped now entry) (S k)) in Eb.
    set (w1 := run (failing_round entry error now) w) in *.
    destruct (Nat.leb_spec (S k) argumentLimit) as [F|F].
    + destruct (IH (S k) w1 Ei Es Eb) as (I1 & I2 & I3); [lia|].
      cbv zeta in I1, I2, I3. split; [exact I1|]. split.
      * intros L. replace (k + S n)%nat with (S k + n)%nat by lia. apply I2. lia.
      * intros L. apply I3. lia.
    + assert (k = argumentLimit) by lia. subst k.
      destruct (IH 0%nat w1 Ei Es Eb) as (I1 & I2 & I3); [lia|].
      cbv zeta in I1, I2, I3. split; [exact I1|]. split.
      * intros L. lia.
      * intros L. assert (n = 0)%nat by lia. subst n. cbn. exact Eb.
Qed.

(** The overflow policy does not bound the buffer.  The bound of 1000 is
    compared with the live buffer at the moment a delivery fails, and the
    live buffer was emptied when the batch was detached: with no append
    during the flight every failed batch is put back whole.  After [n]
    rounds of one append, one forced flush and one failed delivery the
    buffer holds all [n] entries, whatever the batch size is, for every
    [n] up to the argument limit of the spread call that puts the batch
    back.  One round more, and that call throws: the buffer is empty and
    every entry is lost. *)
Theorem overflow_threshold_does_not_bound_buffer
    (entry : LogEntry.t) (error : thrown) (now : Date) :
  invalid entry = false ->
  (forall n, (n <= argumentLimit)%nat ->
     let w := run (failing_rounds entry error now n) boot in
     logBuffer (service w) = repeat (stamped now entry) n
     /\ inflight w = [])
  /\ (let w := run (failing_rounds entry error now (S argumentLimit)) boot in
      logBuffer (service w) = [] /\ inflight w = []).
Proof.
  intros Hv. split.
  - intros n Hn. cbv zeta.
    destruct (failing_rounds_effect entry error now Hv n 0%nat boot)
      as (I1 & I2 & _); try reflexivity; [lia|].
    split; [apply I2; lia|exact I1].
  - cbv zeta.
    destruct (failing_rounds_effect entry error now Hv (S argumentLimit) 0%nat boot)
      as (I1 & _ & I3); try reflexivity; [lia|].
    split; [apply I3; lia|exact I1].
Qed.

(** *** After shutdown *)

Lemma pending_started r w gone acc :
  gone ++ detached (snd r) ++ logBuffer (fst r) = logBuffer (service w) ++ acc ->
  gone = [] \/ (detached (snd r) = [] /\ logBuffer (fst r) = []) ->
  pending (started r w) ++ gone = pending w ++ acc.
Proof.
  intros H C. unfold pending, started. cbn [service inflight].
  assert (List.concat (map logsToSend
              (inflight w ++ match snd r with Awaiting d => [d] | _ => [] end))
          = List.concat (map logsToSend (inflight w)) ++ detached (snd r)) as ->.
  { rewrite map_app, concat_app. destruct (snd r); cbn; now rewrite ?app_nil_r. }
  rewrite <- !app_assoc. f_equal. rewrite <- H.
  destruct C as [->|[-> ->]]; cbn; now rewrite ?app_nil_r.
Qed.

Lemma remove_nth_pending i : forall ds d,
  nth_error ds i = Some d ->
  (List.length (List.concat (map logsToSend (remove_nth i ds)))
   + List.length (logsToSend d)
   = List.length (List.concat (map logsToSend ds)))%nat.
Proof.
  induction i as [|i IH]; intros [|x ds] d H; cbn in H; try discriminate.
  - injection H as ->. cbn. rewrite length_app. lia.
  - cbn. rewrite !length_app. specialize (IH _ _ H). lia.
Qed.

Lemma step_after_shutdown ev w l :
  isShuttingDown (service w) = true ->
  isShuttingDown (service (step ev w)) = true
  /\ taken (record ev w l) = taken l
  /\ (List.length (pending (step ev w)) <= List.length (pending w))%nat.
Proof.
  intros Hsd. destruct ev as [entry now|entries now|now|now|now|i outcome now].
  6:{ cbn [Loki.step Loki.record].
      destruct (nth_error (inflight w) i) as [d|] eqn:E; [|auto].
      cbn [service inflight]. split; [|split].
      - now rewrite (proj1 (LokiProps.flushLogs_resume_frame argumentLimit d outcome now
                              (service w))).
      - destruct outcome; [reflexivity|]. now destruct (Nat.ltb _ 1000).
      - unfold pending. cbn [service inflight].
        rewrite LokiProps.flushLogs_resume_buffer, !length_app.
        pose proof (remove_nth_pending i _ _ E) as P.
        assert (List.length (requeued d outcome (List.length (logBuffer (service w))))
                <= List.length (logsToSend d))%nat.
        { destruct outcome; cbn [Loki.requeued]; [cbn; lia|].
          destruct (_ && _); cbn; lia. }
        lia. }
  all: match goal with
       | |- isShuttingDown (service (Loki.step _ _ _ ?ev ?w0)) = true /\ _ =>
           destruct (LokiProps.step_call JSON_parse argumentLimit batchSize ev w0)
             as (r & -> & H & C & S & _); [discriminate|];
           pose proof (pending_started r w0 _ _ H C) as P;
           apply (f_equal (@List.length _)) in P; rewrite !length_app in P;
           unfold Loki.accepted in P; rewrite Hsd in P; cbn [List.length] in P;
           split; [exact (S Hsd)|]; split;
           [cbn [Loki.record taken]; unfold Loki.accepted; rewrite Hsd;
            apply app_nil_r | lia]
       end.
Qed.

(** Shutdown is final.  [onModuleDestroy] moves the buffer into a delivery
    (or leaves it, or loses it when the request cannot be built and the
    batch is too long to be put back); from then on, whatever events
    follow, the service stays shut, no entry is accepted, and the backlog
    (batches in flight plus live buffer) never grows. *)
Theorem shutdown_is_final (w : World) (now : Date) (evs : list event) (l : Ledger) :
  let w1 := step (ModuleDestroy now) w in
  isShuttingDown (service (run evs w1)) = true
  /\ taken (snd (audit evs w1 l)) = taken l
  /\ (List.length (pending (run evs w1)) <= List.length (pending w))%nat
  /\ pending w1 ++ lost (ModuleDestroy now) w = pending w.
Proof.
  cbv zeta.
  assert (H1 : isShuttingDown (service (step (ModuleDestroy now) w)) = true
               /\ pending (step (ModuleDestroy now) w) ++ lost (ModuleDestroy now) w
                  = pending w).
  { destruct (LokiProps.step_call JSON_parse argumentLimit batchSize (ModuleDestroy now) w)
      as (r & Hst & H & C & _); [discriminate|].
    rewrite Hst. split.
    - rewrite <- Hst. cbn [Loki.step]. destruct (0 <? _)%nat.
      + unfold started. cbn [service].
        now rewrite (proj1 (proj2 (LokiProps.flushLogs_holds JSON_parse argumentLimit
                                     now _))).
      + reflexivity.
    - rewrite (pending_started r w _ _ H C).
      rewrite LokiProps.accepted_destroy. apply app_nil_r. }
  destruct H1 as [Hsd Hp]. split; [|split; [|split; [|exact Hp]]].
  all: assert (Hlen : (List.length (pending (step (ModuleDestroy now) w))
                       <= List.length (pending w))%nat)
         by (rewrite <- Hp, length_app; lia).
  all: clear Hp; revert Hlen Hsd;
       generalize (step (ModuleDestroy now) w) as w1; intros w1 Hlen Hsd;
       revert w1 l Hlen Hsd; induction evs as [|ev evs IH]; intros w1 l Hlen Hsd.
  all: try (cbn; auto; fail).
  all: rewrite ?LokiProps.run_cons; cbn [Loki.audit];
       destruct (step_after_shutdown ev w1 l Hsd) as (H1 & H2 & H3).
  - apply (IH _ l); [lia|exact H1].
  - rewrite <- H2. apply IH; [lia|exact H1].
  - apply (IH _ l); [lia|exact H1].
Qed.

(** A push request holds every entry of its batch exactly once: the value
    pairs of all its streams together are a rearrangement of the
    (timestamp text, message) pairs of the batch, and no stream is
    empty. *)
Theorem request_carries_every_entry_once (entries : list LogEntry.t) (now : Date)
    (lokiRequest : LokiPushRequest) :
  Loki.convertToLokiFormat JSON_parse entries now = Ok lokiRequest ->
  Permutation (List.concat (map values lokiRequest)) (valuesOf now entries)
  /\ List.length (List.concat (map values lokiRequest)) = List.length entries
  /\ Forall (fun s => values s <> []) lokiRequest.
Proof.
  intros H. unfold convertToLokiFormat in H.
  apply (LokiProps.traverse_shape _ (fun group => valuesOf now (snd group)) values) in H.
  2:{ intros [k logs] b E. cbn [fst snd] in *.
      destruct (JSON_parse k); [|discriminate]. cbn in E. now injection E as <-. }
  assert (P : Permutation (List.concat (map values lokiRequest)) (valuesOf now entries)).
  { rewrite H.
    replace (map (fun group => valuesOf now (snd group)) (streamMapOf entries))
      with (map (valuesOf now) (map snd (streamMapOf entries)))
      by (now rewrite map_map).
    unfold valuesOf. rewrite <- concat_map.
    apply Permutation_map, streamMapOf_carries. }
  split; [exact P|]. split.
  - rewrite (Permutation_length P). unfold valuesOf. apply length_map.
  - apply (proj1 (Forall_map values (fun v => v <> []) lokiRequest)).
    rewrite H. apply Forall_map.
    rewrite LokiProps.streamMapOf_grouped. unfold grouped. apply Forall_map.
    apply Forall_forall. intros k Hk. cbn [snd].
    apply LokiProps.distinct_In, in_map_iff in Hk as (e & <- & He).
    unfold valuesOf. intros E. apply map_eq_nil in E.
    assert (In e (filter (fun e0 => String.eqb (streamKeyOf e0) (streamKeyOf e)) entries)) as I.
    { apply filter_In. split; [exact He|apply String.eqb_refl]. }
    rewrite E in I. exact I.
Qed.

End Host.

Section Healthy.

Variable JSON_parse : string -> result value.
Variable argumentLimit : nat.
Variable b : Z.

(** The parser reads back every text that [JSON.stringify] writes for an
    object. *)
Hypothesis reads_back :
  forall props, exists labels, JSON_parse (stringify_object props) = Ok labels.
Hypothesis positive : (1 <= b)%Z.

Local Abbreviation flushLogs := (flushLogs JSON_parse argumentLimit).
Local Abbreviation step := (step JSON_parse argumentLimit (Some b)).
Local Abbreviation run := (run JSON_parse argumentLimit (Some b)).

Lemma flushLogs_calm now s :
  lastError s = None ->
  logBuffer (fst (flushLogs now s)) = []
  /\ lastError (fst (flushLogs now s)) = None.
Proof.
  intros He. unfold Loki.flushLogs.
  destruct (logBuffer s) as [|e l] eqn:E; cbn [List.length Nat.eqb].
  - cbn. auto.
  - cbv zeta.
    destruct (LokiProps.convertToLokiFormat_total JSON_parse reads_back (e :: l) now)
      as [r ->].
    cbn. auto.
Qed.

Lemma push_calm now s extra :
  lastError s = None ->
  (Z.of_nat (List.length (logBuffer s)) < b)%Z ->
  let s1 := set_logBuffer (logBuffer s ++ extra) s in
  let r := if reaches (List.length (logBuffer s1)) (Some b)
           then flushLogs now s1 else (s1, Fulfilled) in
  (Z.of_nat (List.length (logBuffer (fst r))) < b)%Z /\ lastError (fst r) = None.
Proof.
  intros He Hl. cbv zeta. cbn [reaches].
  destruct (Z.leb_spec b (Z.of_nat (List.length
              (logBuffer (set_logBuffer (logBuffer s ++ extra) s))))) as [H|H].
  - destruct (flushLogs_calm now (set_logBuffer (logBuffer s ++ extra) s) He)
      as [-> ->]. cbn. split; [lia|reflexivity].
  - cbn [fst]. split; [exact H|exact He].
Qed.

Lemma step_calm ev w :
  all_delivered [ev] = true ->
  (Z.of_nat (List.length (logBuffer (service w))) < b)%Z ->
  lastError (service w) = None ->
  (Z.of_nat (List.length (logBuffer (service (step ev w)))) < b)%Z
  /\ lastError (service (step ev w)) = None.
Proof.
  intros Hev Hl He.
  destruct ev as [entry now|entries now|now|now|now|i outcome now];
    cbn [Loki.step started service].
  - unfold pushLog. destruct (isShuttingDown (service w)); [cbn; auto|].
    destruct (invalid entry); [cbn; auto|].
    apply (push_calm now (service w) [stamped now entry] He Hl).
  - unfold pushLogs. destruct (isShuttingDown (service w)); [cbn; auto|].
    destruct (LokiProps.warn_invalid_keeps entries (service w)) as (Kb & _ & _ & Ke).
    cbv zeta. destruct (spread_call argumentLimit _).
    + apply (push_calm now (warn_invalid entries (service w)));
        [now rewrite Ke|now rewrite Kb].
    + cbn [fst]. now rewrite Kb, Ke.
  - destruct (_ && _); [|auto]. cbn [started service].
    destruct (flushLogs_calm now (service w) He) as [-> ->]. cbn. split; [lia|reflexivity].
  - unfold forceFlush.
    destruct (flushLogs_calm now (service w) He) as [-> ->]. cbn. split; [lia|reflexivity].
  - set (s1 := {| logBuffer := _ |}). cbn [logBuffer].
    destruct (0 <? _)%nat; cbn [started service].
    + destruct (flushLogs_calm now s1 He) as [-> ->]. cbn. split; [lia|reflexivity].
    + cbn. auto.
  - destruct (nth_error (inflight w) i); [|auto].
    destruct outcome; [|discriminate]. cbn. auto.
Qed.

(** With a parser that reads back what [JSON.stringify] writes, a batch
    size of at least one and no failed delivery, the live buffer is
    shorter than the batch size after every event, no error is recorded
    and the reported status is active. *)
Theorem healthy_sink_keeps_buffer_below_batch (evs : list event) :
  all_delivered evs = true ->
  let s := service (run evs boot) in
  (Z.of_nat (List.length (logBuffer s)) < b)%Z
  /\ lastError s = None
  /\ LokiStatus.status (getStatus s) = "active".
Proof.
  intros Hev. cbv zeta.
  assert (K : forall w,
            (Z.of_nat (List.length (logBuffer (service w))) < b)%Z ->
            lastError (service w) = None ->
            (Z.of_nat (List.length (logBuffer (service (run evs w)))) < b)%Z
            /\ lastError (service (run evs w)) = None).
  { induction evs as [|ev evs' IH]; intros w Hl He; [cbn; auto|].
    rewrite LokiProps.run_cons. cbn [all_delivered forallb] in Hev.
    apply andb_prop in Hev as [H1 H2].
    destruct (step_calm ev w) as [Hl' He']; try assumption.
    { cbn. now rewrite H1. }
    now apply IH. }
  destruct (K boot) as [Hl He]; [cbn; lia|reflexivity|].
  split; [exact Hl|]. split; [exact He|].
  unfold getStatus. cbn [LokiStatus.status]. now rewrite He.
Qed.

End Healthy.

Section Settling.

Variable argumentLimit : nat.

Local Abbreviation settle := (settle argumentLimit).
Local Abbreviation settle_outcome := (settle_outcome argumentLimit).

(** The description [sendToLoki] throws with is empty only for a silent
    rejection. *)
Lemma sendToLoki_outcome p :
  match sendToLoki p with
  | Ok _ => acknowledged p = true
  | Throw error =>
      acknowledged p = false
      /\ String.eqb (errorMessageOf error) "" = silent p
  end.
Proof.
  destruct p as [status|response|error]; cbn [sendToLoki acknowledged silent].
  - destruct (status =? 204)%Z; [reflexivity|]. split; [reflexivity|].
    cbn [errorMessageOf]. reflexivity.
  - split; [reflexivity|]. cbn [errorMessageOf]. reflexivity.
  - split; [reflexivity|]. now destruct error.
Qed.

Lemma settle_has_text d p now s :
  has_text (lastError (settle d p now s)) = negb (acknowledged p || silent p).
Proof.
  unfold LokiDelivery.settle.
  rewrite (proj2 (LokiProps.flushLogs_resume_frame argumentLimit d (sendToLoki p) now s)).
  pose proof (sendToLoki_outcome p) as H.
  destruct (sendToLoki p) as [u|error].
  - now rewrite H.
  - destruct H as [-> <-]. reflexivity.
Qed.

(** Only a response with status 204 counts as delivered.  Any other
    response, an axios error and any other rejection leave the last flush
    time alone; the batch is put back when the live buffer is below the
    bound of 1000 and the batch within the argument limit, and with a
    longer batch [flushLogs] rejects with a RangeError and the batch is
    gone.  The status reads error afterwards, except after a rejection
    whose description is the empty string, which [getStatus] takes for no
    error. *)
Theorem only_204_counts_as_delivered (d : delivery) (p : posted) (now : Date)
    (s : LokiService) :
  let s' := settle d p now s in
  let below := (List.length (logBuffer s) <? 1000)%nat in
  let fits := (List.length (logsToSend d) <=? argumentLimit)%nat in
  LokiStatus.status (getStatus s')
    = (if acknowledged p || silent p then "active" else "error")%string
  /\ lastFlush s' = (if acknowledged p then Some now else lastFlush s)
  /\ logBuffer s'
     = (if acknowledged p then []
        else if below && fits then logsToSend d else [])
       ++ logBuffer s
  /\ settle_outcome d p now s
     = (if acknowledged p then Ok tt
        else if below && negb fits
             then Throw (ErrorObject "Maximum call stack size exceeded")
             else Ok tt)
  /\ (acknowledged p = true <-> exists status, p = Response status /\ status = 204%Z).
Proof.
  cbv zeta.
  pose proof (sendToLoki_outcome p) as H.
  split; [|split; [|split; [|split]]].
  - unfold getStatus. cbn [LokiStatus.status]. rewrite settle_has_text.
    now destruct (acknowledged p || silent p).
  - unfold LokiDelivery.settle. destruct (sendToLoki p) as [u|error].
    + rewrite H. reflexivity.
    + destruct H as [-> _]. cbn [flushLogs_resume].
      apply (LokiProps.flushLogs_catch_frame argumentLimit).
  - unfold LokiDelivery.settle. rewrite LokiProps.flushLogs_resume_buffer.
    destruct (sendToLoki p) as [u|error].
    + rewrite H. reflexivity.
    + destruct H as [-> _]. reflexivity.
  - unfold LokiDelivery.settle_outcome. destruct (sendToLoki p) as [u|error].
    + rewrite H. reflexivity.
    + destruct H as [-> _]. cbn [flushLogs_resume].
      destruct (LokiProps.flushLogs_catch_cases argumentLimit (logsToSend d) s)
        as [[B F]|[[B F]|B]].
      * rewrite LokiProps.flushLogs_catch_requeue by assumption.
        apply Nat.ltb_lt in B as ->. apply Nat.leb_le in F as ->. reflexivity.
      * rewrite LokiProps.flushLogs_catch_lost by assumption.
        apply Nat.ltb_lt in B as ->. apply Nat.leb_gt in F as ->. reflexivity.
      * rewrite LokiProps.flushLogs_catch_drop by assumption.
        apply Nat.ltb_ge in B as ->. reflexivity.
  - destruct p as [status|response|error]; cbn [acknowledged].
    + split.
      * intros E. exists status. split; [reflexivity|]. now apply Z.eqb_eq.
      * intros (st & E & ->). injection E as ->. reflexivity.
    + split; [discriminate|]. intros (st & E & _). discriminate.
    + split; [discriminate|]. intros (st & E & _). discriminate.
Qed.

End Settling.

Lemma overflow_threshold_does_not_bound_buffer_witness :
  invalid Demo.first = false
  /\ (3 <= Demo.arguments)%nat
  /\ logBuffer (service (run Demo.parse_labels Demo.arguments (Some 100%Z)
                           (failing_rounds Demo.first NonError Demo.now 3) boot))
     = repeat (stamped Demo.now Demo.first) 3
  /\ inflight (run Demo.parse_labels Demo.arguments (Some 100%Z)
                 (failing_rounds Demo.first NonError Demo.now 3) boot) = [].
Proof.
  assert (L : (3 <= Demo.arguments)%nat) by (apply Nat.leb_le; vm_compute; reflexivity).
  split; [reflexivity|]. split; [exact L|].
  apply (proj1 (overflow_threshold_does_not_bound_buffer Demo.parse_labels Demo.arguments
                  (Some 100%Z) Demo.first NonError Demo.now eq_refl) 3%nat L).
Defined.

Lemma request_carries_every_entry_once_witness :
  convertToLokiFormat Demo.parse_labels [Demo.first; Demo.second] Demo.now
    = Ok Sample.pair_request
  /\ Permutation (List.concat (map values Sample.pair_request))
                 (valuesOf Demo.now [Demo.first; Demo.second])
  /\ List.length (List.concat (map values Sample.pair_request))
     = List.length [Demo.first; Demo.second]
  /\ Forall (fun s => values s <> []) Sample.pair_request.
Proof.
  split; [vm_compute; reflexivity|].
  apply (request_carries_every_entry_once Demo.parse_labels
           [Demo.first; Demo.second] Demo.now Sample.pair_request).
  vm_compute. reflexivity.
Defined.

Lemma healthy_sink_keeps_buffer_below_batch_witness :
  (forall props, exists labels,
      Sample.reads_everything (stringify_object props) = Ok labels)
  /\ (1 <= 2)%Z
  /\ all_delivered Sample.acknowledged_pair = true
  /\ (Z.of_nat (List.length (logBuffer (service
        (run Sample.reads_everything Demo.arguments (Some 2%Z)
           Sample.acknowledged_pair boot)))) < 2)%Z
  /\ lastError (service
        (run Sample.reads_everything Demo.arguments (Some 2%Z)
           Sample.acknowledged_pair boot)) = None
  /\ LokiStatus.status (getStatus (service
        (run Sample.reads_everything Demo.arguments (Some 2%Z)
           Sample.acknowledged_pair boot)))
     = "active"%string.
Proof.
  refine (let H := (fun props => ex_intro _ (Str (stringify_object props)) eq_refl)
                   : forall props, exists labels,
                       Sample.reads_everything (stringify_object props) = Ok labels in
          conj H (conj _ (conj eq_refl
            (healthy_sink_keeps_buffer_below_batch Sample.reads_everything
               Demo.arguments 2 H _ Sample.acknowledged_pair eq_refl)))); lia.
Defined.

End DeliveryProps.

Module HealthProps.
Import Js Loki LokiDelivery HealthService.
Import Health.
Local Open Scope string_scope.
Local Open Scope list_scope.

(** The health report in terms of the connection and of [LokiService]:
    error when the client is not connected or a last error is recorded,
    else degraded above 100 buffered entries, else ok.  Readiness fails on
    error alone, so a backlog of any size leaves the service ready, and
    after a delivery settles it is ready exactly when the client is
    connected and the delivery was acknowledged (or failed without a
    description). *)
Theorem health_follows_last_delivery (startTime now : Date)
    (npm_package_version : option string) (connected : bool)
    (mqttLastError : option string) (s : LokiService) :
  let health := getHealth startTime now npm_package_version connected mqttLastError s in
  HealthStatus.status health
    = (if negb connected || has_text (lastError s) then Health.error
       else if (100 <? List.length (logBuffer s))%nat then degraded
       else ok)
  /\ getReadiness health
     = (if connected && negb (has_text (lastError s)) then "ready" else "not ready")%string
  /\ forall argumentLimit d p at_,
       getReadiness (getHealth startTime now npm_package_version connected mqttLastError
                       (settle argumentLimit d p at_ s))
       = (if connected && (acknowledged p || silent p) then "ready" else "not ready")%string.
Proof.
  cbv zeta.
  assert (R : forall s0,
    getReadiness (getHealth startTime now npm_package_version connected mqttLastError s0)
     = (if connected && negb (has_text (lastError s0)) then "ready" else "not ready")%string).
  { intros s0. unfold getReadiness, getHealth. cbv zeta.
    cbn [HealthStatus.status MqttHealth.status LokiHealth.status].
    unfold getLokiHealthStatus, getStatus. cbn [LokiStatus.lastError LokiStatus.bufferedLogs].
    destruct connected, (has_text (lastError s0)),
      (Nat.ltb 100 (List.length (logBuffer s0))); reflexivity. }
  split; [|split].
  - unfold getHealth. cbv zeta.
    cbn [HealthStatus.status MqttHealth.status LokiHealth.status].
    unfold getLokiHealthStatus, getStatus. cbn [LokiStatus.lastError LokiStatus.bufferedLogs].
    destruct connected, (has_text (lastError s)),
      (Nat.ltb 100 (List.length (logBuffer s))); reflexivity.
  - apply R.
  - intros argumentLimit d p at_.
    rewrite R, DeliveryProps.settle_has_text, negb_involutive. reflexivity.
Qed.

End HealthProps.

(* ================================================================== *)
(** * The connection handlers                                         *)
(* ================================================================== *)

Module ConnectionProps.
Import Js Connection.
Local Open Scope list_scope.
Local Open Scope Z_scope.

Lemma subscribe_never_ends ts :
  filter is_end (map Subscribe ts) = []
  /\ filter (fun c => negb (is_end c)) (map Subscribe ts) = map Subscribe ts.
Proof. induction ts as [|t ts [IH1 IH2]]; [auto|]. cbn. now rewrite IH1, IH2. Qed.

Section Config.

Variable topics : list string.

Lemma ended_app s extra :
  Z.of_nat (List.length (filter is_end (calls s ++ extra)))
  = ended s + Z.of_nat (List.length (filter is_end extra)).
Proof. unfold ended. rewrite filter_app, length_app. lia. Qed.

(** One event without a connect in it: the counter moves by one on
    [reconnect] alone, and the client is ended exactly when the counter
    passes the maximum. *)
Lemma handle_budget ev s :
  is_connected_event ev = false ->
  let s' := handle topics ev s in
  reconnectAttempts s' = reconnectAttempts s + reconnects [ev]
  /\ ended s' = ended s + (if is_reconnecting ev && (10 <? reconnectAttempts s + 1) then 1 else 0)
  /\ MqttConnectionStatus.connected (connectionStatus s')
     = MqttConnectionStatus.connected (connectionStatus s) && negb (drops_connection ev)
  /\ MqttConnectionStatus.connectedSince (connectionStatus s')
     = MqttConnectionStatus.connectedSince (connectionStatus s)
  /\ filter (fun c => negb (is_end c)) (calls s') = filter (fun c => negb (is_end c)) (calls s)
  /\ MqttConnectionStatus.reconnectAttempts (connectionStatus s')
     = (if is_reconnecting ev then reconnectAttempts s + 1
        else MqttConnectionStatus.reconnectAttempts (connectionStatus s)).
Proof.
  intros H. destruct ev; try discriminate; cbn [handle]; cbv zeta;
    unfold on_error, on_close, on_offline, on_reconnect, with_connected, reconnects;
    cbn [reconnectAttempts connectionStatus calls MqttConnectionStatus.connected
         MqttConnectionStatus.connectedSince MqttConnectionStatus.reconnectAttempts
         is_reconnecting drops_connection
         filter List.length andb negb];
    rewrite ?andb_false_r, ?andb_true_r, ?Z.add_0_r; try (repeat split; try reflexivity; unfold ended; cbn [calls]; lia).
  unfold maxReconnectAttempts.
  destruct (10 <? reconnectAttempts s + 1).
  - unfold ended at 1. cbn [calls]. rewrite ended_app, filter_app. cbn.
    rewrite app_nil_r. repeat split; try reflexivity; unfold ended; lia.
  - repeat split; try reflexivity; unfold ended; cbn [calls]; lia.
Qed.

Lemma handle_all_budget evs : forall s,
  forallb (fun ev => negb (is_connected_event ev)) evs = true ->
  let s' := handle_all topics evs s in
  reconnectAttempts s' = reconnectAttempts s + reconnects evs
  /\ ended s' = ended s
                + Z.max 0 (reconnectAttempts s + reconnects evs - 10)
                - Z.max 0 (reconnectAttempts s - 10)
  /\ MqttConnectionStatus.connected (connectionStatus s')
     = MqttConnectionStatus.connected (connectionStatus s)
       && negb (existsb drops_connection evs)
  /\ MqttConnectionStatus.connectedSince (connectionStatus s')
     = MqttConnectionStatus.connectedSince (connectionStatus s)
  /\ filter (fun c => negb (is_end c)) (calls s') = filter (fun c => negb (is_end c)) (calls s)
  /\ MqttConnectionStatus.reconnectAttempts (connectionStatus s')
     = (if reconnects evs =? 0
        then MqttConnectionStatus.reconnectAttempts (connectionStatus s)
        else reconnectAttempts s + reconnects evs).
Proof.
  induction evs as [|ev evs IH]; intros s H; cbv zeta.
  - cbn. rewrite andb_true_r. unfold reconnects. cbn. repeat split; try reflexivity; lia.
  - cbn [forallb] in H. apply andb_prop in H as [H1 H2].
    apply negb_true_iff in H1.
    change (handle_all topics (ev :: evs) s) with (handle_all topics evs (handle topics ev s)).
    destruct (handle_budget ev s H1) as (A1 & A2 & A3 & A4 & A5 & A6).
    destruct (IH (handle topics ev s) H2) as (B1 & B2 & B3 & B4 & B5 & B6).
    assert (R : reconnects (ev :: evs) = reconnects [ev] + reconnects evs).
    { unfold reconnects. cbn [filter]. destruct (is_reconnecting ev); cbn [List.length]; lia. }
    assert (Rv : reconnects [ev] = if is_reconnecting ev then 1 else 0).
    { unfold reconnects. cbn [filter]. now destruct (is_reconnecting ev). }
    assert (R0 : 0 <= reconnects evs) by (unfold reconnects; lia).
    split; [|split; [|split; [|split; [|split]]]].
    + rewrite B1, A1, R. lia.
    + rewrite B2, A2, A1, R, Rv.
      destruct (is_reconnecting ev); cbn [andb].
      * destruct (Z.ltb_spec 10 (reconnectAttempts s + 1)); lia.
      * lia.
    + rewrite B3, A3. cbn [existsb]. now rewrite negb_orb, andb_assoc.
    + now rewrite B4, A4.
    + now rewrite B5, A5.
    + rewrite B6, A6, A1, R, Rv.
      destruct (is_reconnecting ev).
      * replace (1 + reconnects evs =? 0) with false by (symmetry; apply Z.eqb_neq; lia).
        destruct (Z.eqb_spec (reconnects evs) 0); lia.
      * now rewrite !Z.add_0_l, Z.add_0_r.
Qed.

(** The reconnect budget.  After a connect and any events that hold no
    further connect: the counter is the number of reconnects since, the
    client has been told to end once for each reconnect beyond the tenth,
    it counts as connected unless an error, close or offline event came,
    the topics were subscribed in order, and the reported number of
    attempts is the stale one from before the connect until the first
    reconnect. *)
Theorem reconnect_budget (now : Date) (evs : list client_event) (s : Subscriber) :
  forallb (fun ev => negb (is_connected_event ev)) evs = true ->
  let s' := handle_all topics evs (on_connect topics now s) in
  reconnectAttempts s' = reconnects evs
  /\ ended s' = ended s + Z.max 0 (reconnects evs - 10)
  /\ MqttConnectionStatus.connected (connectionStatus s')
     = negb (existsb drops_connection evs)
  /\ MqttConnectionStatus.connectedSince (connectionStatus s') = Some now
  /\ filter (fun c => negb (is_end c)) (calls s')
     = filter (fun c => negb (is_end c)) (calls s) ++ map Subscribe topics
  /\ MqttConnectionStatus.reconnectAttempts (connectionStatus s')
     = (if reconnects evs =? 0
        then MqttConnectionStatus.reconnectAttempts (connectionStatus s)
        else reconnects evs).
Proof.
  intros H. cbv zeta.
  destruct (handle_all_budget evs (on_connect topics now s) H)
    as (B1 & B2 & B3 & B4 & B5 & B6).
  rewrite B1, B2, B3, B4, B5, B6.
  cbn [on_connect reconnectAttempts connectionStatus calls
       MqttConnectionStatus.connected MqttConnectionStatus.connectedSince
       MqttConnectionStatus.reconnectAttempts andb].
  assert (R0 : 0 <= reconnects evs) by (unfold reconnects; lia).
  assert (E : ended (on_connect topics now s) = ended s).
  { unfold ended at 1. cbn [on_connect calls]. rewrite ended_app.
    rewrite (proj1 (subscribe_never_ends topics)). cbn. lia. }
  rewrite E, filter_app, (proj2 (subscribe_never_ends topics)).
  repeat split; lia.
Qed.

End Config.

Lemma reconnect_budget_witness :
  forallb (fun ev => negb (is_connected_event ev)) Sample.eleven_reconnects = true
  /\ ended (handle_all ["smtrack/#"%string] Sample.eleven_reconnects
              (on_connect ["smtrack/#"%string] Demo.now fresh))
     = ended fresh + Z.max 0 (reconnects Sample.eleven_reconnects - 10).
Proof.
  split; [reflexivity|].
  apply (reconnect_budget ["smtrack/#"%string] Demo.now Sample.eleven_reconnects fresh).
  reflexivity.
Defined.

End ConnectionProps.

(* ================================================================== *)
(** * Labels, the test endpoint, topics and the pipeline              *)
(* ================================================================== *)

Module LabelProps.
Import Js Mqtt Loki Labels.
Local Open Scope string_scope.
Local Open Scope list_scope.

Lemma labelsOf_sourced severity device_id source metadata message timestamp :
  labelsOf {| LogEntry.message := message;
              LogEntry.device_id := device_id;
              LogEntry.severity := severity;
              LogEntry.timestamp := timestamp;
              LogEntry.labels :=
                Some (spread [ ("severity", severity); ("device_id", device_id);
                               ("source", Str source) ]
                             (if truthy metadata
                              then [("metadata", of_option (JSON_stringify metadata))]
                              else [])) |}
  = sourced severity device_id source metadata.
Proof.
  unfold labelsOf, sourced. cbn [LogEntry.labels LogEntry.severity LogEntry.device_id].
  destruct (truthy metadata); reflexivity.
Qed.

Lemma stringify_sourced severity device_id source metadata :
  stringify_object (sourced severity device_id source metadata)
  = stringify_object
      ([ ("severity", severity); ("device_id", device_id); ("source", Str source) ]
       ++ match metadata_text metadata with
          | Some text => [("metadata", Str text)]
          | None => []
          end).
Proof.
  unfold sourced, metadata_text, stringify_object.
  destruct (truthy metadata); [|reflexivity].
  destruct (JSON_stringify metadata) as [text|] eqn:E; [reflexivity|].
  cbn [of_option JSON_stringify]. rewrite !flat_map_app. cbn [flat_map JSON_stringify snd].
  reflexivity.
Qed.

(** Entries that come from the bus carry the labels severity, device_id,
    source and, for truthy metadata, metadata, in this order.  With string
    severities and identities two of them fall into one stream exactly
    when severity, identity and metadata text agree. *)
Theorem mqtt_entries_share_stream (m1 m2 : IoTMessage.t) :
  is_string (IoTMessage.severity m1) = true ->
  is_string (IoTMessage.deviceId m1) = true ->
  is_string (IoTMessage.severity m2) = true ->
  is_string (IoTMessage.deviceId m2) = true ->
  labelsOf (convertToLogEntry m1)
    = sourced (IoTMessage.severity m1) (IoTMessage.deviceId m1) "smtrack-logging"
              (IoTMessage.metadata m1)
  /\ (streamKeyOf (convertToLogEntry m1) = streamKeyOf (convertToLogEntry m2)
      <-> IoTMessage.severity m1 = IoTMessage.severity m2
          /\ IoTMessage.deviceId m1 = IoTMessage.deviceId m2
          /\ metadata_text (IoTMessage.metadata m1) = metadata_text (IoTMessage.metadata m2)).
Proof.
  intros S1 D1 S2 D2.
  assert (L : forall m, labelsOf (convertToLogEntry m)
            = sourced (IoTMessage.severity m) (IoTMessage.deviceId m) "smtrack-logging"
                      (IoTMessage.metadata m)).
  { intros m. unfold convertToLogEntry. cbv zeta. apply labelsOf_sourced. }
  split; [apply L|].
  unfold streamKeyOf. rewrite !L, !stringify_sourced.
  split.
  - intros E. apply JsonProps.stringify_object_inj in E.
    + injection E as E1 E2 E3. repeat split; try assumption.
      destruct (metadata_text (IoTMessage.metadata m1)),
               (metadata_text (IoTMessage.metadata m2)); congruence.
    + destruct (IoTMessage.severity m1), (IoTMessage.deviceId m1); try discriminate.
      destruct (metadata_text (IoTMessage.metadata m1)); reflexivity.
    + destruct (IoTMessage.severity m2), (IoTMessage.deviceId m2); try discriminate.
      destruct (metadata_text (IoTMessage.metadata m2)); reflexivity.
  - intros (-> & -> & ->). reflexivity.
Qed.

Lemma mqtt_entries_share_stream_witness :
  is_string (IoTMessage.severity Sample.reading) = true
  /\ is_string (IoTMessage.deviceId Sample.reading) = true
  /\ is_string (IoTMessage.severity Sample.alarm) = true
  /\ is_string (IoTMessage.deviceId Sample.alarm) = true
  /\ labelsOf (convertToLogEntry Sample.reading)
     = sourced (IoTMessage.severity Sample.reading) (IoTMessage.deviceId Sample.reading)
               "smtrack-logging" (IoTMessage.metadata Sample.reading).
Proof.
  repeat (split; [reflexivity|]).
  apply (mqtt_entries_share_stream Sample.reading Sample.alarm); reflexivity.
Defined.

(** ** The label set of an entry *)









Section Host.

Variable JSON_parse : string -> result value.


End Host.

End LabelProps.

Module ControllerProps.
Import Js Mqtt Loki Labels Controller.
Local Open Scope string_scope.
Local Open Scope list_scope.

Lemma LogSeverity_member_truthy text :
  existsb (fun l => String.eqb text (LogSeverity_text l))
          [DEBUG; INFO; WARNING; ERROR; CRITICAL] = true ->
  truthy (Str text) = true.
Proof.
  intros H. destruct (String.eqb_spec text "") as [->|N]; [discriminate H|].
  cbn. now apply String.eqb_neq in N as ->.
Qed.

Section Host.

Variable JSON_parse : string -> result value.
Variable argumentLimit : nat.
Variable batchSize : option Z.

(** A test-log request that passed validation is never turned away by
    [pushLog] while the service is running: its entry is appended behind
    what the buffer holds, and the whole is afterwards in the buffer or in
    the delivery that the append started, unless the flush that the append
    started lost it (the request could not be built and the buffer,
    longer than the argument limit, could not be put back).  The entry has
    the requested severity or info, and is labelled with the source
    test-endpoint. *)
Theorem testLog_is_accepted (request : TestLogRequest.t) (now : Date) (s : LokiService) :
  validated request = true ->
  isShuttingDown s = false ->
  let entry := testLogEntry request now in
  let r := testLog JSON_parse argumentLimit batchSize request now s in
  lost_by_pushLog JSON_parse argumentLimit batchSize entry now s
    ++ detached (snd r) ++ logBuffer (fst r)
  = logBuffer s ++ [entry]
  /\ ((List.length (logBuffer s) < argumentLimit)%nat ->
      detached (snd r) ++ logBuffer (fst r) = logBuffer s ++ [entry])
  /\ LogEntry.severity entry
     = match TestLogRequest.severity request with
       | Str text => Str text
       | _ => sev INFO
       end
  /\ labelsOf entry
     = sourced (LogEntry.severity entry) (TestLogRequest.deviceId request)
               "test-endpoint" (TestLogRequest.metadata request).
Proof.
  intros V Hsd. cbv zeta. unfold validated in V.
  apply andb_prop in V as [V V5]. apply andb_prop in V as [V V4].
  apply andb_prop in V as [V V3]. apply andb_prop in V as [V1 V2].
  assert (Sv : LogEntry.severity (testLogEntry request now)
               = match TestLogRequest.severity request with
                 | Str text => Str text
                 | _ => sev INFO
                 end).
  { unfold testLogEntry. cbv zeta. cbn [LogEntry.severity]. unfold or_else.
    destruct (TestLogRequest.severity request) as [| |bb|n|text|items|props|nat];
      try discriminate V5; try reflexivity.
    now rewrite (LogSeverity_member_truthy text V5). }
  assert (Valid : invalid (testLogEntry request now) = false).
  { unfold invalid. rewrite Sv. unfold testLogEntry. cbv zeta.
    cbn [LogEntry.message LogEntry.device_id]. rewrite V2, V4. cbn [negb orb].
    destruct (TestLogRequest.severity request) as [| |bb|n|text|items|props|nat];
      try discriminate V5; try reflexivity.
    now rewrite (LogSeverity_member_truthy text V5). }
  assert (D : detached (snd (testLog JSON_parse argumentLimit batchSize request now s))
              = detached (snd (pushLog JSON_parse argumentLimit batchSize
                                 (testLogEntry request now) now s))).
  { unfold testLog. cbv zeta. cbn [snd]. now destruct (snd (pushLog _ _ _ _ _ _)). }
  destruct (LokiProps.pushLog_holds JSON_parse argumentLimit batchSize
              (testLogEntry request now) now s) as (E & _).
  unfold Loki.accepted in E. rewrite Hsd, Valid in E.
  split; [|split; [|split]].
  - rewrite D. exact E.
  - intros F. rewrite D.
    rewrite (LokiProps.lost_by_pushLog_fits JSON_parse argumentLimit batchSize _ now s F)
      in E.
    exact E.
  - exact Sv.
  - unfold testLogEntry. cbv zeta. cbn [LogEntry.severity]. apply LabelProps.labelsOf_sourced.
Qed.

End Host.

Lemma testLog_is_accepted_witness :
  validated Sample.ping = true
  /\ isShuttingDown initial = false
  /\ lost_by_pushLog Demo.parse_labels Demo.arguments (Some 100%Z)
       (testLogEntry Sample.ping Demo.now) Demo.now initial
     ++ detached (snd (testLog Demo.parse_labels Demo.arguments (Some 100%Z)
                         Sample.ping Demo.now initial))
     ++ logBuffer (fst (testLog Demo.parse_labels Demo.arguments (Some 100%Z)
                          Sample.ping Demo.now initial))
     = logBuffer initial ++ [testLogEntry Sample.ping Demo.now].
Proof.
  repeat (split; [reflexivity|]).
  exact (proj1 (testLog_is_accepted Demo.parse_labels Demo.arguments (Some 100%Z)
                  Sample.ping Demo.now initial eq_refl eq_refl)).
Defined.

End ControllerProps.

Module TopicProps.
Import Js Mqtt.
Local Open Scope string_scope.
Local Open Scope list_scope.

Lemma includes_slash_cons c s :
  includes "/" (String c s) = Ascii.eqb c "/" || includes "/" s.
Proof.
  cbn [includes String.prefix].
  destruct (Ascii.eqb_spec c "/") as [->|N].
  - cbn. now destruct s.
  - destruct (ascii_dec "/"%char c) as [E|E]; [congruence|]. reflexivity.
Qed.

Lemma split_segment a : forall b,
  includes "/" a = false ->
  split "/" (a ++ String "/" b) = a :: split "/" b.
Proof.
  induction a as [|c a IH]; intros b H.
  - reflexivity.
  - rewrite includes_slash_cons in H. apply orb_false_elim in H as [Hc Ha].
    cbn [append split]. rewrite Hc, (IH b Ha). reflexivity.
Qed.

Lemma split_last a :
  includes "/" a = false -> split "/" a = [a].
Proof.
  induction a as [|c a IH]; intros H.
  - reflexivity.
  - rewrite includes_slash_cons in H. apply orb_false_elim in H as [Hc Ha].
    cbn [split]. rewrite Hc, (IH Ha). reflexivity.
Qed.

Lemma slash_free_includes segment :
  MqttSpec.slash_free segment = true -> includes "/" segment = false.
Proof.
  induction segment as [|c segment IH]; intros H; [reflexivity|].
  cbn [MqttSpec.slash_free] in H. apply andb_prop in H as [Hc Hs].
  rewrite includes_slash_cons. apply negb_true_iff in Hc. now rewrite Hc, IH.
Qed.

Lemma split_topic_of segments :
  segments <> [] ->
  forallb MqttSpec.slash_free segments = true ->
  split "/" (MqttSpec.topic_of segments) = segments.
Proof.
  induction segments as [|segment rest IH]; intros N H; [contradiction|].
  cbn [forallb] in H. apply andb_prop in H as [Hs Hr].
  apply slash_free_includes in Hs.
  destruct rest as [|next rest].
  - cbn [MqttSpec.topic_of]. now apply split_last.
  - change (MqttSpec.topic_of (segment :: next :: rest))
      with (segment ++ String "/" (MqttSpec.topic_of (next :: rest)))%string.
    rewrite (split_segment segment _ Hs), IH; [reflexivity|discriminate|exact Hr].
Qed.

Lemma split_slash_free topic : forallb MqttSpec.slash_free (split "/" topic) = true.
Proof.
  induction topic as [|c topic IH]; [reflexivity|].
  cbn [split]. destruct (Ascii.eqb c "/") eqn:E.
  - cbn [forallb MqttSpec.slash_free]. exact IH.
  - destruct (split "/" topic) as [|p ps]; cbn [forallb MqttSpec.slash_free] in *.
    + now rewrite E.
    + now rewrite E.
Qed.

Lemma topic_of_split topic : MqttSpec.topic_of (split "/" topic) = topic.
Proof.
  induction topic as [|c topic IH]; [reflexivity|].
  cbn [split]. destruct (Ascii.eqb_spec c "/") as [->|N].
  - pose proof (MqttProps.split_nonempty "/" topic) as NE.
    destruct (split "/" topic) as [|p ps]; [contradiction|].
    change (MqttSpec.topic_of (EmptyString :: p :: ps))
      with (String "/" (MqttSpec.topic_of (p :: ps))).
    now rewrite IH.
  - pose proof (MqttProps.split_nonempty "/" topic) as NE.
    destruct (split "/" topic) as [|p ps]; [contradiction|].
    destruct ps as [|q ps].
    + cbn [MqttSpec.topic_of] in *. now rewrite IH.
    + change (MqttSpec.topic_of (String c p :: q :: ps))
        with (String c (p ++ String "/" (MqttSpec.topic_of (q :: ps))))%string.
      change (MqttSpec.topic_of (p :: q :: ps))
        with (p ++ String "/" (MqttSpec.topic_of (q :: ps)))%string in IH.
      now rewrite IH.
Qed.

(** C6: every topic is its segments written with a separator between
    them, none of which holds a separator, and there is at least one; and
    for the topic written from any such segments the device identity is
    the second segment of three or more, the first of exactly two, and the
    placeholder "unknown" for a single segment (where no second-to-last
    segment exists). *)
Theorem extractDeviceIdFromTopic_by_segments :
  (forall topic, exists segments,
      segments <> []
      /\ forallb MqttSpec.slash_free segments = true
      /\ topic = MqttSpec.topic_of segments)
  /\ (forall first rest,
        forallb MqttSpec.slash_free (first :: rest) = true ->
        extractDeviceIdFromTopic (MqttSpec.topic_of (first :: rest))
        = Str (MqttSpec.identity_of_segments (first :: rest))
        /\ MqttSpec.identity_of_segments (first :: rest)
           = match rest with
             | [] => "unknown"
             | [_] => first
             | second :: _ :: _ => second
             end).
Proof.
  split.
  - intros topic. exists (split "/" topic).
    split; [apply MqttProps.split_nonempty|].
    split; [apply split_slash_free|]. symmetry. apply topic_of_split.
  - intros first rest H. unfold extractDeviceIdFromTopic. cbv zeta.
    rewrite (split_topic_of (first :: rest)) by (discriminate || exact H).
    destruct rest as [|second [|third rest]]; split; reflexivity.
Qed.

(** The identity by the shape of the topic: the second segment of
    [head/id/...], the first of [id/head], and unknown when the topic has
    no separator. *)
Theorem device_id_by_topic_shape (head id tail : string) :
  includes "/" head = false ->
  includes "/" id = false ->
  extractDeviceIdFromTopic (head ++ "/" ++ id ++ "/" ++ tail) = Str id
  /\ extractDeviceIdFromTopic (id ++ "/" ++ head) = Str id
  /\ extractDeviceIdFromTopic head = Str "unknown".
Proof.
  intros Hh Hi. unfold extractDeviceIdFromTopic. cbv zeta.
  cbn ["++"%string]. 
  split; [|split].
  - rewrite (split_segment head _ Hh), (split_segment id _ Hi).
    pose proof (MqttProps.split_nonempty "/" tail) as N.
    destruct (split "/" tail) as [|t ts]; [contradiction|]. reflexivity.
  - rewrite (split_segment id _ Hi), (split_last head Hh). reflexivity.
  - rewrite (split_last head Hh). reflexivity.
Qed.

Lemma device_id_by_topic_shape_witness :
  includes "/" "smtrack" = false
  /\ includes "/" "dev42" = false
  /\ extractDeviceIdFromTopic ("smtrack" ++ "/" ++ "dev42" ++ "/" ++ "logs/raw") = Str "dev42"
  /\ extractDeviceIdFromTopic ("dev42" ++ "/" ++ "smtrack") = Str "dev42"
  /\ extractDeviceIdFromTopic "smtrack" = Str "unknown".
Proof.
  repeat (split; [reflexivity|]).
  apply (device_id_by_topic_shape "smtrack" "dev42" "logs/raw"); reflexivity.
Defined.

End TopicProps.

Module PipelineProps.
Import Js Mqtt Loki Pipeline.
Local Open Scope string_scope.
Local Open Scope list_scope.

Lemma inferMessageType_plain_level (topic text : string) :
  exists l, inferMessageType topic (Obj [("message", Str text)]) = Ok (sev l).
Proof.
  unfold inferMessageType.
  destruct (includes "/error" topic || includes "/alert" topic); [now exists ERROR|].
  destruct (includes "/warning" topic || includes "/warn" topic); [now exists WARNING|].
  destruct (includes "/debug" topic); [now exists DEBUG|].
  cbn [get_field lookup String.eqb Ascii.eqb Bool.eqb bind truthy is_string of_option
       JSON_stringify call_toLowerCase].
  match goal with
  | |- context [if ?c then Ok (sev ERROR) else _] => destruct c; [now exists ERROR|]
  end.
  match goal with
  | |- context [if ?c then Ok (sev WARNING) else _] => destruct c; [now exists WARNING|]
  end.
  now exists INFO.
Qed.

Section Host.

Variable Buffer_toString : list Byte.byte -> string.
Variable JSON_parse : string -> result value.
Variable Date_construct : value -> result Date.
Variable argumentLimit : nat.
Variable batchSize : option Z.

(** A payload that is not JSON is pushed as plain text and appended behind
    what the buffer holds, unless its text is empty or the topic gives an
    empty identity: then [pushLog] turns the entry away and nothing is
    appended.  What the buffer held and the entry are afterwards in the
    buffer or in the delivery that the append started, unless the flush
    that the append started lost them (the request could not be built and
    the buffer, longer than the argument limit, could not be put back). *)
Theorem plain_text_is_buffered_unless_empty
    (topic : string) (payload : list Byte.byte) (now : Date) (error : thrown)
    (s : LokiService) :
  JSON_parse (Buffer_toString payload) = Throw error ->
  isShuttingDown s = false ->
  exists entry,
    normalize Buffer_toString JSON_parse Date_construct topic payload now = Ok entry
    /\ let r := handleMessage Buffer_toString JSON_parse Date_construct argumentLimit
                  batchSize topic payload now s in
       let appended := if String.eqb (Buffer_toString payload) ""
                          || negb (truthy (extractDeviceIdFromTopic topic))
                       then [] else [entry] in
       lost_by_pushLog JSON_parse argumentLimit batchSize entry now s
         ++ detached (snd r) ++ logBuffer (fst r)
       = logBuffer s ++ appended
       /\ ((List.length (logBuffer s) < argumentLimit)%nat ->
           detached (snd r) ++ logBuffer (fst r) = logBuffer s ++ appended).
Proof.
  intros Hp Hsd. unfold handleMessage, normalize. cbv zeta. rewrite Hp.
  cbn [bind try_catch]. unfold createPlainTextMessage.
  destruct (inferMessageType_plain_level topic (Buffer_toString payload)) as [l ->].
  cbn [bind]. eexists. split; [reflexivity|]. cbn [fst snd].
  match goal with
  | |- context [pushLog _ _ _ ?e now s] => set (entry := e) in *
  end.
  destruct (LokiProps.pushLog_holds JSON_parse argumentLimit batchSize entry now s)
    as (E & _).
  pose proof (LokiProps.lost_by_pushLog_fits JSON_parse argumentLimit batchSize
                entry now s) as L.
  assert (D : detached (match snd (pushLog JSON_parse argumentLimit batchSize entry now s)
                        with Rejected _ => Fulfilled | p => p end)
              = detached (snd (pushLog JSON_parse argumentLimit batchSize entry now s)))
    by (now destruct (snd (pushLog _ _ _ _ _ _))).
  rewrite D. clear D.
  assert (I : invalid entry
              = (String.eqb (Buffer_toString payload) ""
                 || negb (truthy (extractDeviceIdFromTopic topic)))).
  { subst entry. unfold invalid, convertToLogEntry. cbv zeta.
    cbn [IoTMessage.message IoTMessage.deviceId IoTMessage.severity is_string
         LogEntry.message LogEntry.device_id LogEntry.severity].
    rewrite MqttProps.truthy_sev. cbn [truthy negb].
    now rewrite negb_involutive, !orb_false_r. }
  assert (A : Loki.accepted argumentLimit (isShuttingDown s) (CallPushLog entry now)
              = if String.eqb (Buffer_toString payload) ""
                   || negb (truthy (extractDeviceIdFromTopic topic))
                then [] else [entry]).
  { unfold Loki.accepted. rewrite Hsd, I. now destruct (_ || _). }
  rewrite A in E. split; [exact E|].
  intros F. rewrite (L F) in E. exact E.
Qed.

(** The timestamp of a parsed message is the ingestion time when the
    payload's [timestamp] is falsy and otherwise whatever [new Date] makes
    of it; [pushLog] never replaces it, and an invalid date goes out with
    the timestamp text NaN. *)
Theorem payload_timestamp_is_carried_unchecked
    (parsedMessage stamp : value) (topic : string) (now : Date) (message : IoTMessage.t) :
  normalizeMessage Date_construct parsedMessage topic now = Ok message ->
  get_field parsedMessage "timestamp" = Ok stamp ->
  (if truthy stamp then Date_construct stamp else Ok now)
    = Ok (IoTMessage.timestamp message)
  /\ forall later,
       LogEntry.timestamp (stamped later (convertToLogEntry message))
         = Some (IoTMessage.timestamp message)
       /\ nanosecondsOf later (stamped later (convertToLogEntry message))
          = match IoTMessage.timestamp message with
            | DateMs ms => Number_toString (Number_mul (Finite ms) (Finite 1000000))
            | InvalidDate => "NaN"
            end.
Proof.
  intros Hn Hs. unfold normalizeMessage in Hn.
  destruct (get_field parsedMessage "deviceId") as [explicitId|]; [|discriminate].
  destruct (get_field parsedMessage "message") as [text|]; [|discriminate].
  cbn [bind] in Hn.
  destruct (resolveSeverity parsedMessage topic) as [severity|]; [|discriminate].
  destruct (get_field parsedMessage "metadata") as [metadata|]; [|discriminate].
  cbn [bind] in Hn. rewrite Hs in Hn. cbn [bind] in Hn.
  destruct (if truthy stamp then Date_construct stamp else Ok now) as [t|]; [|discriminate].
  cbn [bind] in Hn. injection Hn as <-. cbn [IoTMessage.timestamp].
  split; [reflexivity|]. intros later. split; [reflexivity|].
  unfold nanosecondsOf. cbn. destruct t; reflexivity.
Qed.

End Host.

Lemma plain_text_is_buffered_unless_empty_witness :
  Demo.parse_known [] (Demo.utf8 (list_byte_of_string "hello"))
    = Throw (ErrorObject "Unexpected token")
  /\ isShuttingDown initial = false
  /\ exists entry,
       normalize Demo.utf8 (Demo.parse_known []) Demo.no_date
         "smtrack/dev42/logs" (list_byte_of_string "hello") Demo.now = Ok entry
       /\ lost_by_pushLog (Demo.parse_known []) Demo.arguments (Some 100%Z) entry
            Demo.now initial
          ++ detached (snd (handleMessage Demo.utf8 (Demo.parse_known []) Demo.no_date
                              Demo.arguments (Some 100%Z) "smtrack/dev42/logs"
                              (list_byte_of_string "hello") Demo.now initial))
          ++ logBuffer (fst (handleMessage Demo.utf8 (Demo.parse_known []) Demo.no_date
                               Demo.arguments (Some 100%Z) "smtrack/dev42/logs"
                               (list_byte_of_string "hello") Demo.now initial))
          = logBuffer initial
            ++ (if String.eqb (Demo.utf8 (list_byte_of_string "hello")) ""
                   || negb (truthy (extractDeviceIdFromTopic "smtrack/dev42/logs"))
                then [] else [entry]).
Proof.
  repeat (split; [reflexivity|]).
  destruct (plain_text_is_buffered_unless_empty Demo.utf8 (Demo.parse_known [])
              Demo.no_date Demo.arguments (Some 100%Z) "smtrack/dev42/logs"
              (list_byte_of_string "hello") Demo.now
              (ErrorObject "Unexpected token") initial eq_refl eq_refl)
    as (entry & N & H & _).
  exists entry. split; [exact N|exact H].
Defined.

Lemma payload_timestamp_is_carried_unchecked_witness :
  normalizeMessage Demo.no_date Sample.undated_payload "smtrack/dev1/logs" Demo.now
    = Ok Sample.undated
  /\ get_field Sample.undated_payload "timestamp" = Ok (Str "soon")
  /\ (if truthy (Str "soon") then Demo.no_date (Str "soon") else Ok Demo.now)
     = Ok (IoTMessage.timestamp Sample.undated)
  /\ nanosecondsOf Demo.now (stamped Demo.now (convertToLogEntry Sample.undated))
     = "NaN".
Proof.
  assert (A : normalizeMessage Demo.no_date Sample.undated_payload "smtrack/dev1/logs"
                Demo.now = Ok Sample.undated) by (vm_compute; reflexivity).
  assert (B : get_field Sample.undated_payload "timestamp" = Ok (Str "soon"))
    by reflexivity.
  split; [exact A|]. split; [exact B|].
  destruct (payload_timestamp_is_carried_unchecked Demo.no_date
              Sample.undated_payload (Str "soon") "smtrack/dev1/logs" Demo.now
              Sample.undated A B) as [C D].
  split; [exact C|]. exact (proj2 (D Demo.now)).
Defined.

End PipelineProps.
